(** * ddrconfcmp: the register-list comparison engine

    A shallow embedding of the comparison core of [ddrconfcmp.c]:
    the duplicate scanner ([find_duplicates_ddrc], [find_duplicates_ddrphy]),
    the key-set differencer ([count_common_ddrc], [extract_common_ddrc] and
    the counting part of [find_and_display_unique_ddrc]) and the comparator
    [compare_ddrc_cfg_arrays] with its block relocation pass.  Around this
    core it embeds the rows of the table of unique registers, the report of
    [check_duplicate_interference], the listing of
    [print_duplicates_ddrc_sidebyside], the checks [check_ddrc_cfg] and
    [check_fsp_cfg], the argument loop of [main], and the checksum
    [compute_crc32], which ddrconfdump has as [crc32].

    Conventions of the embedding.
    - A C array argument [(cfg, num)] is the list of its [num] records;
      [cfg[i]] is the list lookup [cfg !! i].  The source casts [num] to
      [int] in its loop bounds; a list stands for an array of fewer than
      2^31 records, where that cast is the identity.
    - [unsigned int] registers and values are integers compared with [=];
      the program does no arithmetic on them.  Counters of type [int] are
      integers as well, [unsigned int] counters and indices are naturals.
    - The pointer [diff_count_p] is [option Z]: [None] is the null pointer,
      [Some d] a pointer to an [int] that holds [d].
    - [malloc] and [calloc] may fail.  The comparator receives the heap as
      an oracle [heap : nat -> bool] (does the k-th request succeed) and the
      number [brk] of requests made so far.
    - Output: the calls of [print_error], [print_warning], [print_info] and
      [print_success] are recorded as [message]s, and the blocks shown by
      the relocation pass as [relocated_block]s.  Column layout, colours,
      and the header and the difference rows that the comparator prints
      with [printf] are left out.
    - The checksum is taken over a list of byte values; how a table is laid
      out in memory is not modelled, so the checksum is not applied to
      tables.
    - The command line is the list of the strings [argv[1]] to
      [argv[argc - 1]].
    - The [while] loop of the relocation pass has no evident bound, so it
      runs on fuel; [None] means that the fuel ran out. *)

From Stdlib Require Import ZArith Lia.
From stdpp Require Import base tactics option numbers list sorting strings.

Set Default Proof Using "Type".

(** ** Data model ([ddr.h]) *)

(** [struct ddrc_cfg_param] *)
Record ddrc_cfg_param := { reg : Z; val : Z }.

(** [struct ddrphy_cfg_param] *)
Record ddrphy_cfg_param := { phy_reg : Z; phy_val : Z }.

#[global] Instance ddrc_cfg_param_eq_dec : EqDecision ddrc_cfg_param.
Proof. solve_decision. Defined.

#[global] Instance ddrphy_cfg_param_eq_dec : EqDecision ddrphy_cfg_param.
Proof. solve_decision. Defined.

(** [struct duplicate_info]: a register and the first [count] cells of its
    [indices] and [values] arrays (each of capacity 64). *)
Record duplicate_info := {
  dup_reg : Z;
  indices : list nat;
  values : list Z;
  count : nat
}.

#[global] Instance duplicate_info_eq_dec : EqDecision duplicate_info.
Proof. solve_decision. Defined.

(** Capacity of [indices] and [values] in [struct duplicate_info]. *)
Definition MAX_OCCURRENCES : nat := 64.

(** Width of the lookahead window of the relocation pass. *)
Definition LOOKAHEAD : nat := 50.

(** ** Duplicate scanner *)

Section duplicate_scanner.
Context {param : Type} (reg_of val_of : param → Z).

(** The inner loop [for (j = i + 1; j < num; j++)]: [rest] holds the
    records from index [j] on, [d] is [dups[dup_count]]. *)
Fixpoint collect_occurrences (r : Z) (j : nat) (rest : list param)
    (d : duplicate_info) (processed : list bool)
    : duplicate_info * list bool :=
  match rest with
  | [] => (d, processed)
  | c :: rest' =>
      if decide (r = reg_of c ∧ count d < MAX_OCCURRENCES) then
        collect_occurrences r (S j) rest'
          {| dup_reg := dup_reg d;
             indices := indices d ++ [j];
             values := values d ++ [val_of c];
             count := S (count d) |}
          (<[j := true]> processed)
      else collect_occurrences r (S j) rest' d processed
  end.

(** The outer loop [for (i = 0; i < num && dup_count < max_dups; i++)]:
    [rest] holds the records from index [i] on, [dups] the groups
    completed so far ([dup_count] is their number). *)
Fixpoint scan_duplicates (i : nat) (rest : list param)
    (processed : list bool) (dups : list duplicate_info) (max_dups : Z)
    : list duplicate_info :=
  match rest with
  | [] => dups
  | c :: rest' =>
      if decide (Z.of_nat (length dups) < max_dups)%Z then
        match processed !! i with
        | Some true => scan_duplicates (S i) rest' processed dups max_dups
        | _ =>
            let '(d, processed') :=
              collect_occurrences (reg_of c) (S i) rest'
                {| dup_reg := reg_of c; indices := [i];
                   values := [val_of c]; count := 1 |}
                processed in
            if decide (1 < count d) then
              scan_duplicates (S i) rest' processed' (dups ++ [d]) max_dups
            else scan_duplicates (S i) rest' processed' dups max_dups
        end
      else dups
  end.

(** The function returns [dup_count] and fills [dups[0 .. dup_count)];
    the embedding returns these groups, [dup_count] is their number.
    [calloc_ok] tells whether [calloc] returned a buffer. *)
Definition find_duplicates (calloc_ok : bool) (cfg : list param)
    (max_dups : Z) : list duplicate_info :=
  if calloc_ok then
    scan_duplicates 0 cfg (replicate (length cfg) false) [] max_dups
  else [].
End duplicate_scanner.

Definition find_duplicates_ddrc :=
  find_duplicates (param := ddrc_cfg_param) reg val.

Definition find_duplicates_ddrphy :=
  find_duplicates (param := ddrphy_cfg_param) phy_reg phy_val.

(** ** Key-set differencer *)

(** The search loop
    [for (j = 0; j < num; j++) if (r == cfg[j].reg) { found = 1; break; }]. *)
Fixpoint reg_found (r : Z) (cfg : list ddrc_cfg_param) : bool :=
  match cfg with
  | [] => false
  | c :: rest => if decide (r = reg c) then true else reg_found r rest
  end.

(** Number of records of [cfg] whose register is found in [other]. *)
Fixpoint count_found (cfg other : list ddrc_cfg_param) : nat :=
  match cfg with
  | [] => 0
  | c :: rest =>
      if reg_found (reg c) other then S (count_found rest other)
      else count_found rest other
  end.

(** Number of records of [cfg] whose register is not found in [other]. *)
Fixpoint count_not_found (cfg other : list ddrc_cfg_param) : nat :=
  match cfg with
  | [] => 0
  | c :: rest =>
      if reg_found (reg c) other then count_not_found rest other
      else S (count_not_found rest other)
  end.

(** [left_count] and [right_count] of [find_and_display_unique_ddrc]. *)
Definition unique_counts_ddrc (cfg1 cfg2 : list ddrc_cfg_param) : nat * nat :=
  (count_not_found cfg1 cfg2, count_not_found cfg2 cfg1).

(** Returns the status together with [*common1] and [*common2]. *)
Definition count_common_ddrc (cfg1 cfg2 : list ddrc_cfg_param)
    : Z * nat * nat :=
  let common1 := count_found cfg1 cfg2 in
  let common2 := count_found cfg2 cfg1 in
  ((if decide (common1 = common2) then 0 else -1)%Z, common1, common2).

(** The records of [cfg] whose register is found in [other], in order. *)
Fixpoint extract_found (cfg other : list ddrc_cfg_param)
    : list ddrc_cfg_param :=
  match cfg with
  | [] => []
  | c :: rest =>
      if reg_found (reg c) other then c :: extract_found rest other
      else extract_found rest other
  end.

(** Returns the contents written to [common1] and [common2]. *)
Definition extract_common_ddrc (cfg1 cfg2 : list ddrc_cfg_param)
    : list ddrc_cfg_param * list ddrc_cfg_param :=
  (extract_found cfg1 cfg2, extract_found cfg2 cfg1).

(** ** Diagnostics *)

Inductive message :=
  | W_structural_differences
  | I_unique_registers
  | E_common_counts (common1 common2 : nat)
  | E_allocation_failed
  | I_no_common_registers
  | S_registers_and_values_match
  | E_unexpected_result (r : Z)
  | I_registers_match_differences (n : Z)
  | I_register_value_differences
  | E_different_register_sets
  | I_left_not_in_right
  | I_right_not_in_left
  | W_different_order
  | I_reordered_registers
  | I_value_differences (n : Z).

Definition find_and_display_unique_ddrc (cfg1 cfg2 : list ddrc_cfg_param)
    : list message :=
  let '(left_count, right_count) := unique_counts_ddrc cfg1 cfg2 in
  if decide (left_count = 0 ∧ right_count = 0) then []
  else [I_unique_registers].

Definition print_comparison_summary (result diff_count : Z) : list message :=
  if decide (result = -1)%Z then []
  else if decide (result = 0)%Z then
    if decide (diff_count = 0)%Z then [S_registers_and_values_match] else []
  else if decide (result = 1)%Z then []
  else [E_unexpected_result result].

(** ** Order classifier and value comparator *)

(** [for (i = 0; i < num1; i++) if (cfg1[i].reg != cfg2[i].reg)
    { same_order = 0; break; }], on lists of equal length. *)
Fixpoint same_order (cfg1 cfg2 : list ddrc_cfg_param) : bool :=
  match cfg1, cfg2 with
  | c1 :: rest1, c2 :: rest2 =>
      if decide (reg c1 ≠ reg c2) then false else same_order rest1 rest2
  | _, _ => true
  end.

(** [diff_count] of the same-order branch. *)
Fixpoint count_positional_diffs (cfg1 cfg2 : list ddrc_cfg_param) : Z :=
  match cfg1, cfg2 with
  | c1 :: rest1, c2 :: rest2 =>
      if decide (val c1 ≠ val c2) then
        (1 + count_positional_diffs rest1 rest2)%Z
      else count_positional_diffs rest1 rest2
  | _, _ => 0%Z
  end.

(** The first presence loop: every left register is searched on the right;
    the first miss reports the error and clears [all_present]. *)
Fixpoint check_left_in_right (rest cfg2 : list ddrc_cfg_param)
    (all_present : bool) : bool * list message :=
  match rest with
  | [] => (all_present, [])
  | c :: rest' =>
      if reg_found (reg c) cfg2 then check_left_in_right rest' cfg2 all_present
      else
        let here :=
          if all_present then [E_different_register_sets; I_left_not_in_right]
          else [] in
        let '(flag, log) := check_left_in_right rest' cfg2 false in
        (flag, here ++ log)
  end.

(** The second presence loop, [i] is the index of the head of [rest]. *)
Fixpoint check_right_in_left (i : nat) (rest cfg1 : list ddrc_cfg_param)
    (all_present : bool) : bool * list message :=
  match rest with
  | [] => (all_present, [])
  | c :: rest' =>
      if reg_found (reg c) cfg1 then
        check_right_in_left (S i) rest' cfg1 all_present
      else
        let here1 :=
          if all_present then [E_different_register_sets] else [] in
        let all_present' := false in
        let here2 :=
          if negb all_present' && bool_decide (i = 0)
          then [I_right_not_in_left] else [] in
        let '(flag, log) := check_right_in_left (S i) rest' cfg1 all_present' in
        (flag, here1 ++ here2 ++ log)
  end.

(** The inner search of the value pass of the reordered branch: does the
    first right record with the register of [c] hold another value. *)
Fixpoint first_match_differs (c : ddrc_cfg_param)
    (cfg2 : list ddrc_cfg_param) : bool :=
  match cfg2 with
  | [] => false
  | d :: rest =>
      if decide (reg c = reg d) then bool_decide (val c ≠ val d)
      else first_match_differs c rest
  end.

(** [diff_count] of the reordered branch. *)
Fixpoint count_matched_diffs (cfg1 cfg2 : list ddrc_cfg_param) : Z :=
  match cfg1 with
  | [] => 0%Z
  | c :: rest =>
      if first_match_differs c cfg2 then (1 + count_matched_diffs rest cfg2)%Z
      else count_matched_diffs rest cfg2
  end.

(** ** Block relocator *)

(** A displayed block: the left range [[block_start_i1, block_end_i1)] and
    the right range [[block_start_i2, block_end_i2)]. *)
Record relocated_block := {
  block_start_i1 : nat; block_end_i1 : nat;
  block_start_i2 : nat; block_end_i2 : nat
}.

(** [found_soon]: the search
    [for (check = start; check < start + 50 && check < num; check++)]. *)
Definition found_soon (r : Z) (cfg : list ddrc_cfg_param) (start : nat)
    : bool :=
  reg_found r (take LOOKAHEAD (drop start cfg)).

(** [while (i < num) { if (found_soon) break; i++; }]: [rest] holds the
    records of the scanned list from the cursor [i] on, the window lies in
    [other] at [start]. *)
Fixpoint scan_block (i : nat) (rest other : list ddrc_cfg_param)
    (start : nat) : nat :=
  match rest with
  | [] => i
  | c :: rest' =>
      if found_soon (reg c) other start then i
      else scan_block (S i) rest' other start
  end.

(** The left cursor after the scan of a mismatched block. *)
Definition extend_left (cfg1 cfg2 : list ddrc_cfg_param) (i1 i2 : nat) : nat :=
  scan_block i1 (drop i1 cfg1) cfg2 i2.

(** The right cursor after its scan; [i1] is the updated left cursor. *)
Definition extend_right (cfg1 cfg2 : list ddrc_cfg_param) (i1 i2 : nat) : nat :=
  scan_block i2 (drop i2 cfg2) cfg1 i1.

(** Length of the matched run
    [while (i1 < num1 && i2 < num2 && cfg1[i1].reg == cfg2[i2].reg)]. *)
Fixpoint matched_run (rest1 rest2 : list ddrc_cfg_param) : nat :=
  match rest1, rest2 with
  | c1 :: rest1', c2 :: rest2' =>
      if decide (reg c1 = reg c2) then S (matched_run rest1' rest2') else 0
  | _, _ => 0
  end.

(** The block shown after the two scans, if any side advanced. *)
Definition shown_block (start1 end1 start2 end2 : nat)
    : list relocated_block :=
  if decide (start1 < end1 ∨ start2 < end2) then
    [{| block_start_i1 := start1; block_end_i1 := end1;
        block_start_i2 := start2; block_end_i2 := end2 |}]
  else [].

(** [while (i1 < num1 && i2 < num2)]: returns the final cursors and the
    blocks shown. *)
Fixpoint relocate_blocks (fuel : nat) (cfg1 cfg2 : list ddrc_cfg_param)
    (i1 i2 : nat) (blocks : list relocated_block)
    : option (nat * nat * list relocated_block) :=
  match fuel with
  | O => None
  | S fuel' =>
      match cfg1 !! i1, cfg2 !! i2 with
      | Some c1, Some c2 =>
          if decide (reg c1 = reg c2) then
            let n := matched_run (drop i1 cfg1) (drop i2 cfg2) in
            relocate_blocks fuel' cfg1 cfg2 (i1 + n) (i2 + n) blocks
          else
            let i1' := extend_left cfg1 cfg2 i1 i2 in
            let i2' := extend_right cfg1 cfg2 i1' i2 in
            relocate_blocks fuel' cfg1 cfg2 i1' i2'
              (blocks ++ shown_block i1 i1' i2 i2')
      | _, _ => Some (i1, i2, blocks)
      end
  end.

(** The remaining registers at the end of either list. *)
Definition trailing_blocks (num1 num2 i1 i2 : nat) : list relocated_block :=
  (if decide (i1 < num1) then
     [{| block_start_i1 := i1; block_end_i1 := num1;
         block_start_i2 := i2; block_end_i2 := i2 |}]
   else []) ++
  (if decide (i2 < num2) then
     [{| block_start_i1 := i1; block_end_i1 := i1;
         block_start_i2 := i2; block_end_i2 := num2 |}]
   else []).

(** ** Comparator *)

(** What a call leaves behind: the return value, the cell behind
    [diff_count_p], the number of heap requests made, the messages and the
    blocks shown. *)
Record outcome := {
  result : Z;
  diff_count_out : option Z;
  brk_out : nat;
  diagnostics : list message;
  relocated : list relocated_block
}.

(** [if (diff_count_p) *diff_count_p = diff_count;] *)
Definition store_diff_count (diff_count_p : option Z) (diff_count : Z)
    : option Z :=
  match diff_count_p with
  | Some _ => Some diff_count
  | None => None
  end.

(** The part of [compare_ddrc_cfg_arrays] below the length check. *)
Definition compare_same_length (fuel : nat) (brk : nat)
    (cfg1 cfg2 : list ddrc_cfg_param) (diff_count_p : option Z)
    : option outcome :=
  if same_order cfg1 cfg2 then
    let diff_count := count_positional_diffs cfg1 cfg2 in
    Some {| result := 0;
            diff_count_out := store_diff_count diff_count_p diff_count;
            brk_out := brk;
            diagnostics :=
              if decide (0 < diff_count)%Z then
                [I_registers_match_differences diff_count;
                 I_register_value_differences]
              else [];
            relocated := [] |}
  else
    let '(all_present, log1) := check_left_in_right cfg1 cfg2 true in
    let '(all_present, log2) := check_right_in_left 0 cfg2 cfg1 all_present in
    if negb all_present then
      Some {| result := -1; diff_count_out := diff_count_p; brk_out := brk;
              diagnostics := log1 ++ log2; relocated := [] |}
    else
      match relocate_blocks fuel cfg1 cfg2 0 0 [] with
      | None => None
      | Some (i1, i2, blocks) =>
          let diff_count := count_matched_diffs cfg1 cfg2 in
          Some {| result := 1;
                  diff_count_out := store_diff_count diff_count_p diff_count;
                  brk_out := brk;
                  diagnostics :=
                    log1 ++ log2 ++
                    [W_different_order; I_reordered_registers] ++
                    (if decide (0 < diff_count)%Z then
                       [I_value_differences diff_count;
                        I_register_value_differences]
                     else []);
                  relocated :=
                    blocks ++
                    trailing_blocks (length cfg1) (length cfg2) i1 i2 |}
      end.

Fixpoint compare_ddrc_cfg_arrays (fuel : nat) (heap : nat → bool) (brk : nat)
    (cfg1 cfg2 : list ddrc_cfg_param) (diff_count_p : option Z)
    : option outcome :=
  match fuel with
  | O => None
  | S fuel' =>
      if decide (length cfg1 ≠ length cfg2) then
        let log :=
          W_structural_differences :: find_and_display_unique_ddrc cfg1 cfg2 in
        let '(status, common_count1, common_count2) :=
          count_common_ddrc cfg1 cfg2 in
        if decide (status ≠ 0%Z) then
          Some {| result := -1; diff_count_out := diff_count_p;
                  brk_out := brk;
                  diagnostics :=
                    log ++ [E_common_counts common_count1 common_count2];
                  relocated := [] |}
        else if decide (0 < common_count1) then
          if heap brk && heap (S brk) then
            let '(common1, common2) := extract_common_ddrc cfg1 cfg2 in
            match compare_ddrc_cfg_arrays fuel' heap (S (S brk))
                    common1 common2 diff_count_p with
            | None => None
            | Some common =>
                let common_diff_count := default 0%Z (diff_count_out common) in
                Some {| result := -1;
                        diff_count_out := diff_count_out common;
                        brk_out := brk_out common;
                        diagnostics :=
                          log ++ diagnostics common ++
                          print_comparison_summary (result common)
                            common_diff_count;
                        relocated := relocated common |}
            end
          else
            Some {| result := -1; diff_count_out := diff_count_p;
                    brk_out := S (S brk);
                    diagnostics := log ++ [E_allocation_failed];
                    relocated := [] |}
        else
          Some {| result := -1; diff_count_out := diff_count_p;
                  brk_out := brk;
                  diagnostics := log ++ [I_no_common_registers];
                  relocated := [] |}
      else compare_same_length fuel' brk cfg1 cfg2 diff_count_p
  end.

(** ** Notions used in the statements *)

(** Number of records of [cfg] that carry the register [k]. *)
Definition occurrences {param : Type} (reg_of : param → Z) (k : Z)
    (cfg : list param) : nat :=
  length (filter (λ c, reg_of c = k) cfg).

(** The register [r] occurs among the [LOOKAHEAD] records of [cfg] that
    start at index [start]. *)
Definition in_window (r : Z) (cfg : list ddrc_cfg_param) (start : nat) : Prop :=
  ∃ j d, start ≤ j < start + LOOKAHEAD ∧ cfg !! j = Some d ∧ reg d = r.

(** Every register of [cfg] occurs somewhere in [other]. *)
Definition all_found (cfg other : list ddrc_cfg_param) : Prop :=
  Forall (λ c, reg c ∈ reg <$> other) cfg.

(** The registers that carry different values on the two sides: some left
    record and some right record with the register differ in value. *)
Definition values_differ (k : Z) (cfg1 cfg2 : list ddrc_cfg_param) : Prop :=
  Exists (λ a, reg a = k ∧ Exists (λ b, reg b = k ∧ val a ≠ val b) cfg2) cfg1.

(** The distinct registers whose left and right values differ. *)
Definition differing_keys (cfg1 cfg2 : list ddrc_cfg_param) : list Z :=
  remove_dups (filter (λ k, values_differ k cfg1 cfg2) (reg <$> cfg1)).

(** The aligned pairs of records with different values. *)
Definition positional_diffs (cfg1 cfg2 : list ddrc_cfg_param)
    : list (ddrc_cfg_param * ddrc_cfg_param) :=
  filter (λ p, val p.1 ≠ val p.2) (zip cfg1 cfg2).

(** The value of [c] differs from the value of the first record of [cfg2]
    that has the register of [c]. *)
Definition differs_from_first_match (c : ddrc_cfg_param)
    (cfg2 : list ddrc_cfg_param) : Prop :=
  match list_find (λ d, reg c = reg d) cfg2 with
  | Some (_, d) => val c ≠ val d
  | None => False
  end.

#[global] Instance differs_from_first_match_dec c cfg2 :
  Decision (differs_from_first_match c cfg2).
Proof.
  unfold differs_from_first_match.
  destruct (list_find _ cfg2) as [[? ?]|]; apply _.
Defined.

(** The left records whose value differs from their first match. *)
Definition matched_diffs (cfg1 cfg2 : list ddrc_cfg_param)
    : list ddrc_cfg_param :=
  filter (λ c, differs_from_first_match c cfg2) cfg1.

Section duplicate_groups_notions.
Context {param : Type} (reg_of val_of : param → Z).

(** The indices of the records of [cfg] with register [k], ascending. *)
Definition indices_of (k : Z) (cfg : list param) : list nat :=
  filter (λ j, reg_of <$> cfg !! j = Some k) (seq 0 (length cfg)).

(** The values of the records of [cfg] with register [k], in order. *)
Definition values_of (k : Z) (cfg : list param) : list Z :=
  val_of <$> filter (λ c, reg_of c = k) cfg.

(** The group that holds every occurrence of [k] in [cfg]. *)
Definition group_of (k : Z) (cfg : list param) : duplicate_info :=
  {| dup_reg := k; indices := indices_of k cfg; values := values_of k cfg;
     count := occurrences reg_of k cfg |}.

(** The group [d] starts at a smaller index than the group [e]. *)
Definition group_before (d e : duplicate_info) : Prop :=
  ∃ i j, head (indices d) = Some i ∧ head (indices e) = Some j ∧ i < j.

(** Indices of the records with register [k] in [rest], whose head has
    index [i]. *)
Fixpoint positions (k : Z) (i : nat) (rest : list param) : list nat :=
  match rest with
  | [] => []
  | c :: rest' =>
      if decide (reg_of c = k) then i :: positions k (S i) rest'
      else positions k (S i) rest'
  end.

(** Every group of [dups] starts at an index below [i]. *)
Definition starts_below (i : nat) (dups : list duplicate_info) : Prop :=
  Forall (λ d, ∃ h, head (indices d) = Some h ∧ h < i) dups.

End duplicate_groups_notions.

(** ** Sample tables *)

(** Sample tables: the lists of section 8 of the specification and small
    lists with a repeated register. *)
Definition sample_left : list ddrc_cfg_param :=
  [ {| reg := 0x10; val := 1 |}; {| reg := 0x20; val := 2 |};
    {| reg := 0x30; val := 3 |} ].

Definition sample_right : list ddrc_cfg_param :=
  [ {| reg := 0x20; val := 2 |}; {| reg := 0x10; val := 9 |};
    {| reg := 0x30; val := 3 |} ].

Definition sample_short : list ddrc_cfg_param :=
  [ {| reg := 0x20; val := 2 |}; {| reg := 0x10; val := 1 |} ].

(** [sample_left] without its second record. *)
Definition sample_subset : list ddrc_cfg_param :=
  [ {| reg := 0x10; val := 1 |}; {| reg := 0x30; val := 3 |} ].

(** The common sublists of [sample_left] and [sample_short]: the same two
    registers in opposite orders. *)
Definition sample_common : list ddrc_cfg_param :=
  [ {| reg := 0x10; val := 1 |}; {| reg := 0x20; val := 2 |} ].

Definition sample_twice : list ddrc_cfg_param :=
  [ {| reg := 0x10; val := 1 |}; {| reg := 0x10; val := 2 |} ].

Definition sample_once : list ddrc_cfg_param :=
  [ {| reg := 0x10; val := 1 |} ].

Definition sample_other : list ddrc_cfg_param :=
  [ {| reg := 0x11; val := 1 |} ].

(** Lists with a repeated register: in identical order, and reordered. *)
Definition sample_twice_changed : list ddrc_cfg_param :=
  [ {| reg := 0x10; val := 3 |}; {| reg := 0x10; val := 4 |} ].

Definition sample_repeat_left : list ddrc_cfg_param :=
  [ {| reg := 0x10; val := 1 |}; {| reg := 0x10; val := 2 |};
    {| reg := 0x30; val := 3 |} ].

Definition sample_repeat_right : list ddrc_cfg_param :=
  [ {| reg := 0x10; val := 5 |}; {| reg := 0x30; val := 3 |};
    {| reg := 0x30; val := 3 |} ].

(** A list of 51 distinct registers and its rotation by one place. *)
Definition sample_long : list ddrc_cfg_param :=
  (λ i, {| reg := Z.of_nat i; val := 7 |}) <$> seq 0 51.

Definition sample_rotated : list ddrc_cfg_param :=
  (λ i, {| reg := Z.of_nat i; val := 7 |}) <$> (seq 1 50 ++ [0]).

(** Six records in which register 1 occurs three times and register 2
    twice. *)
Definition sample_groups : list ddrc_cfg_param :=
  [ {| reg := 1; val := 1 |}; {| reg := 2; val := 2 |};
    {| reg := 1; val := 3 |}; {| reg := 3; val := 1 |};
    {| reg := 2; val := 5 |}; {| reg := 1; val := 9 |} ].

(** 202 records: the registers 0 to 100 in ascending order, twice. *)
Definition sample_many : list ddrc_cfg_param :=
  (λ i, {| reg := Z.of_nat (i mod 101); val := Z.of_nat i |}) <$> seq 0 202.

(** ** Notions used in the further properties *)

(** The first register of [rest] is not found in [other]. *)
Definition first_missing (rest other : list ddrc_cfg_param) : Prop :=
  from_option (λ c, reg c ∉ reg <$> other) False (head rest).

#[global] Instance first_missing_dec rest other :
  Decision (first_missing rest other).
Proof. unfold first_missing. destruct (head rest); apply _. Defined.

(** The two tables have the same structure: as many records, and every
    register of either occurs in the other. *)
Definition same_structure (cfg1 cfg2 : list ddrc_cfg_param) : Prop :=
  length cfg1 = length cfg2 ∧ all_found cfg1 cfg2 ∧ all_found cfg2 cfg1.

(** A shown block: ranges in order, inside the lists, not both empty. *)
Definition block_within (num1 num2 : nat) (b : relocated_block) : Prop :=
  block_start_i1 b ≤ block_end_i1 b ≤ num1 ∧
  block_start_i2 b ≤ block_end_i2 b ≤ num2 ∧
  (block_start_i1 b < block_end_i1 b ∨ block_start_i2 b < block_end_i2 b).

(** The block [b] ends, on both sides, where the block [b'] starts or
    before. *)
Definition block_precedes (b b' : relocated_block) : Prop :=
  block_end_i1 b ≤ block_start_i1 b' ∧ block_end_i2 b ≤ block_start_i2 b'.

Section duplicate_groups_shape_def.
Context {param : Type} (reg_of val_of : param → Z).

(** The group [d] lists, in ascending order, indices of [cfg] that carry
    its register, beside the values found there; [count] is their number,
    between [lo] and the capacity. *)
Definition group_shape (lo : nat) (cfg : list param) (d : duplicate_info)
    : Prop :=
  length (indices d) = count d ∧ length (values d) = count d ∧
  lo ≤ count d ≤ MAX_OCCURRENCES ∧
  StronglySorted lt (indices d) ∧
  ∀ n i, indices d !! n = Some i →
         ∃ c, cfg !! i = Some c ∧ reg_of c = dup_reg d ∧
              values d !! n = Some (val_of c).
End duplicate_groups_shape_def.

(** ** The rows shown by [find_and_display_unique_ddrc] *)

(** The search for the [line]-th record of a list that is not found in
    [other]: [found_count] misses were passed so far, [rest] holds the
    records from index [i] on.  Returns the index and the record printed
    into the column, [None] when the column stays empty. *)
Fixpoint unique_entry (line found_count i : nat)
    (rest other : list ddrc_cfg_param) : option (nat * ddrc_cfg_param) :=
  match rest with
  | [] => None
  | c :: rest' =>
      if reg_found (reg c) other then
        unique_entry line found_count (S i) rest' other
      else if decide (found_count = line) then Some (i, c)
      else unique_entry line (S found_count) (S i) rest' other
  end.

(** The rows of the side-by-side table, one per [line]: the left column is
    filled only under [num1 > num2], the right one only under
    [num2 > num1]. *)
Definition unique_rows_ddrc (cfg1 cfg2 : list ddrc_cfg_param)
    : list (option (nat * ddrc_cfg_param) * option (nat * ddrc_cfg_param)) :=
  let '(left_count, right_count) := unique_counts_ddrc cfg1 cfg2 in
  if decide (left_count = 0 ∧ right_count = 0) then []
  else
    let max_unique :=
      if decide (right_count < left_count) then left_count else right_count in
    (λ line,
       (if decide (length cfg2 < length cfg1)
        then unique_entry line 0 0 cfg1 cfg2 else None,
        if decide (length cfg1 < length cfg2)
        then unique_entry line 0 0 cfg2 cfg1 else None))
    <$> seq 0 max_unique.

(** The records of [cfg] whose register does not occur in [other], with
    their indices, which start at [i]. *)
Definition unique_entries_from (i : nat) (cfg other : list ddrc_cfg_param)
    : list (nat * ddrc_cfg_param) :=
  filter (λ e, reg e.2 ∉ reg <$> other) (zip (seq i (length cfg)) cfg).

Definition unique_entries (cfg other : list ddrc_cfg_param)
    : list (nat * ddrc_cfg_param) :=
  unique_entries_from 0 cfg other.

(** ** Duplicates involved in value differences
       ([check_duplicate_interference]) *)

(** What [check_duplicate_interference] prints: the warning that opens the
    report, and one entry per reported register with its [count], its
    [indices] and, for each index, the left and the right value found
    there ([None] where the index lies outside the array). *)
Inductive interference_line :=
  | W_duplicates_in_differences
  | Interference_entry (r : Z) (n : nat) (idx : list nat)
      (shown : list (nat * option Z * option Z)).

(** The local variables of [check_duplicate_interference] and the lines
    printed so far; [reported_regs] holds its first [reported_count]
    cells. *)
Record interference_state := {
  interference_found : bool;
  reported_regs : list Z;
  interference_lines : list interference_line
}.

(** Capacity of [reported_regs]. *)
Definition MAX_REPORTED : nat := 100.

(** The function takes both arrays with one length [num]; the embedding
    takes two lists and walks them in step.  The flag [is_ddrc] selects
    the record type, here the type [param] with its projections. *)
Section duplicate_interference.
Context {param : Type} (reg_of val_of : param → Z).

(** The search of [reported_regs] for [dup_reg]. *)
Fixpoint already_reported (dup_reg : Z) (regs : list Z) : bool :=
  match regs with
  | [] => false
  | r :: rest =>
      if decide (r = dup_reg) then true else already_reported dup_reg rest
  end.

(** The loop over [i < num]: is there an index at which the left register
    is [dup_reg] and the left and right values differ. *)
Fixpoint value_difference (dup_reg : Z) (cfg1 cfg2 : list param) : bool :=
  match cfg1, cfg2 with
  | c1 :: rest1, c2 :: rest2 =>
      if decide (reg_of c1 = dup_reg ∧ val_of c1 ≠ val_of c2) then true
      else value_difference dup_reg rest1 rest2
  | _, _ => false
  end.

(** The values shown for the indices of a group. *)
Definition shown_values (cfg1 cfg2 : list param) (d : duplicate_info)
    : list (nat * option Z * option Z) :=
  (λ pos, (pos, val_of <$> cfg1 !! pos, val_of <$> cfg2 !! pos))
  <$> indices d.

(** One iteration of the loop over the groups of a side. *)
Definition check_duplicate (cfg1 cfg2 : list param)
    (st : interference_state) (d : duplicate_info) : interference_state :=
  if already_reported (dup_reg d) (reported_regs st) then st
  else if value_difference (dup_reg d) cfg1 cfg2 then
    {| interference_found := true;
       reported_regs :=
         if decide (length (reported_regs st) < MAX_REPORTED)
         then reported_regs st ++ [dup_reg d] else reported_regs st;
       interference_lines :=
         interference_lines st
         ++ (if interference_found st then []
             else [W_duplicates_in_differences])
         ++ [Interference_entry (dup_reg d) (count d) (indices d)
               (shown_values cfg1 cfg2 d)] |}
  else st.

(** [check_duplicate_interference]: the left groups, then the right ones. *)
Definition check_duplicate_interference (cfg1 cfg2 : list param)
    (left_dups right_dups : list duplicate_info) : list interference_line :=
  let st0 := {| interference_found := false; reported_regs := [];
                interference_lines := [] |} in
  let st1 := foldl (check_duplicate cfg1 cfg2) st0 left_dups in
  interference_lines (foldl (check_duplicate cfg1 cfg2) st1 right_dups).

End duplicate_interference.

(** The registers of the entries of a report, in order. *)
Definition reported_registers (lines : list interference_line) : list Z :=
  omap (λ l, match l with
             | Interference_entry r _ _ _ => Some r
             | W_duplicates_in_differences => None
             end) lines.

(** The entry printed for group [d]. *)
Definition entry_of {param} (val_of : param → Z) (cfg1 cfg2 : list param)
    (d : duplicate_info) : interference_line :=
  Interference_entry (dup_reg d) (count d) (indices d)
    (shown_values val_of cfg1 cfg2 d).

(** Some index carries register [r] on the left with a value that differs
    from the right value at that index. *)
Definition differs_at {param} (reg_of val_of : param → Z)
    (cfg1 cfg2 : list param) (r : Z) : Prop :=
  ∃ i c1 c2, cfg1 !! i = Some c1 ∧ cfg2 !! i = Some c2 ∧
    reg_of c1 = r ∧ val_of c1 ≠ val_of c2.

(** The state after the groups [seen]: [ds] are the groups that got an
    entry. *)
Definition interference_inv {param} (reg_of val_of : param → Z)
    (cfg1 cfg2 : list param)
    (st : interference_state) (seen ds : list duplicate_info) : Prop :=
  interference_lines st =
    (if interference_found st then [W_duplicates_in_differences] else [])
    ++ (entry_of val_of cfg1 cfg2 <$> ds) ∧
  (interference_found st = true ↔ ds ≠ []) ∧
  reported_regs st = take MAX_REPORTED (dup_reg <$> ds) ∧
  NoDup (take (S MAX_REPORTED) (dup_reg <$> ds)) ∧
  sublist ds seen ∧
  Forall (λ d, differs_at reg_of val_of cfg1 cfg2 (dup_reg d)) ds ∧
  ∀ d, d ∈ seen → differs_at reg_of val_of cfg1 cfg2 (dup_reg d) →
       dup_reg d ∈ dup_reg <$> ds.

(** ** The checks of [main] on the DDRC tables *)

(** A row of [print_duplicates_ddrc_sidebyside]: register and count of the
    i-th left and of the i-th right group, where there is one. *)
Definition duplicate_row : Type := option (Z * nat) * option (Z * nat).

(** [print_duplicates_ddrc_sidebyside] *)
Definition print_duplicates_ddrc_sidebyside
    (left_dups right_dups : list duplicate_info) : list duplicate_row :=
  let left_count := length left_dups in
  let right_count := length right_dups in
  if decide (left_count = 0 ∧ right_count = 0) then []
  else
    let max_count :=
      if decide (right_count < left_count) then left_count else right_count in
    (λ i, ((λ d, (dup_reg d, count d)) <$> left_dups !! i,
           (λ d, (dup_reg d, count d)) <$> right_dups !! i))
    <$> seq 0 max_count.

(** What a check prints: the output of a call of the comparator, the
    lines of [print_comparison_summary], and the lines of the check's
    own. *)
Inductive report_line :=
  | Compared (o : outcome)
  | Summary (m : message)
  | Interference (l : interference_line)
  | Duplicate_row (row : duplicate_row)
  | I_duplicates_found (total : Z)
  | E_fsp_entries_mismatch
  | Fsp_entry (i : nat)
  | Bypass_changed (left_bypass right_bypass : Z).

(** [check_ddrc_cfg] on the tables [dram_timing_left.ddrc_cfg] and
    [dram_timing_right.ddrc_cfg]; [opt_list_duplicates] is the global flag
    set by the command line.  The two [calloc] requests of the duplicate
    scans follow those of the comparison.  Returns the return value, the
    number of allocation requests made so far and the report. *)
Definition check_ddrc_cfg (fuel : nat) (heap : nat → bool) (brk : nat)
    (opt_list_duplicates : bool) (left_cfg right_cfg : list ddrc_cfg_param)
    : option (Z * nat * list report_line) :=
  match compare_ddrc_cfg_arrays fuel heap brk left_cfg right_cfg (Some 0%Z) with
  | None => None
  | Some o =>
      let diff_count := default 0%Z (diff_count_out o) in
      let left_dups := find_duplicates_ddrc (heap (brk_out o)) left_cfg 100 in
      let right_dups :=
        find_duplicates_ddrc (heap (S (brk_out o))) right_cfg 100 in
      Some (0%Z, S (S (brk_out o)),
        [Compared o] ++
        (Summary <$> print_comparison_summary (result o) diff_count) ++
        (if decide (0 < length left_dups ∨ 0 < length right_dups) then
           (if decide (0 ≤ result o ∧ 0 < diff_count)%Z then
              if decide (length left_cfg = length right_cfg) then
                Interference <$>
                  check_duplicate_interference reg val left_cfg right_cfg
                    left_dups right_dups
              else []
            else []) ++
           (if opt_list_duplicates then
              Duplicate_row <$>
                print_duplicates_ddrc_sidebyside left_dups right_dups
            else
              [I_duplicates_found
                 (Z.of_nat (length left_dups) + Z.of_nat (length right_dups))])
         else []))
  end.

(** [struct dram_fsp_cfg] *)
Record dram_fsp_cfg := {
  ddrc_cfg : list ddrc_cfg_param;
  mr_cfg : list ddrc_cfg_param;
  bypass : Z
}.

(** The loop of [check_fsp_cfg] from entry [i] on. *)
Fixpoint check_fsp_entries (fuel : nat) (heap : nat → bool) (brk : nat)
    (i : nat) (left_fsp right_fsp : list dram_fsp_cfg) (ret : Z)
    (log : list report_line) : option (Z * nat * list report_line) :=
  match left_fsp, right_fsp with
  | l :: left_rest, r :: right_rest =>
      match compare_ddrc_cfg_arrays fuel heap brk (ddrc_cfg l) (ddrc_cfg r)
              (Some 0%Z) with
      | None => None
      | Some o =>
          let ret := if decide (result o < 0)%Z then (-1)%Z else ret in
          check_fsp_entries fuel heap (brk_out o) (S i) left_rest right_rest
            ret
            (log ++ [Fsp_entry i; Compared o]
                 ++ (if decide (bypass l ≠ bypass r)
                     then [Bypass_changed (bypass l) (bypass r)] else []))
      end
  | _, _ => Some (ret, brk, log)
  end.

(** [check_fsp_cfg] on [dram_timing_left.fsp_cfg] and
    [dram_timing_right.fsp_cfg]. *)
Definition check_fsp_cfg (fuel : nat) (heap : nat → bool) (brk : nat)
    (left_fsp right_fsp : list dram_fsp_cfg)
    : option (Z * nat * list report_line) :=
  if decide (length left_fsp ≠ length right_fsp) then
    Some ((-1)%Z, brk, [E_fsp_entries_mismatch])
  else check_fsp_entries fuel heap brk 0 left_fsp right_fsp 0%Z [].

(** The registers of the interference entries of a report. *)
Definition interference_registers (lines : list report_line) : list Z :=
  reported_registers
    (omap (λ l, match l with Interference e => Some e | _ => None end) lines).

(** ** The command line of ddrconfcmp ([main]) *)

(** How the argument loop of [main] ends: with the usage text and
    [return 0], with the complaint about an option and [return 1], or
    with the comparison, run under the flag [opt_list_duplicates]. *)
Inductive arguments_outcome :=
  | Exit_usage
  | Exit_unknown_option (arg : string)
  | Run_comparison (opt_list_duplicates : bool).

(** The loop over [argv[1 .. argc)]. *)
Fixpoint parse_arguments (args : list string) (opt_list_duplicates : bool)
    : arguments_outcome :=
  match args with
  | [] => Run_comparison opt_list_duplicates
  | arg :: rest =>
      if decide (arg = "--list-duplicates") then parse_arguments rest true
      else if decide (arg = "--help" ∨ arg = "-h") then Exit_usage
      else Exit_unknown_option arg
  end.

(** The exit status of the process; after the comparison [main] ends in
    [return 0] whatever the checks returned. *)
Definition exit_status (o : arguments_outcome) : Z :=
  match o with
  | Exit_usage => 0
  | Exit_unknown_option _ => 1
  | Run_comparison _ => 0
  end.

(** ** The checksum ([compute_crc32] of ddrconfcmp, [crc32] of
       ddrconfdump) *)

Section checksum.
Local Open Scope Z_scope.

(** [s_crcTable], the same in both programs. *)
Definition s_crcTable : list Z :=
  [0x4DBDF21C; 0x500AE278; 0x76D3D2D4; 0x6B64C2B0;
   0x3B61B38C; 0x26D6A3E8; 0x000F9344; 0x1DB88320;
   0xA005713C; 0xBDB26158; 0x9B6B51F4; 0x86DC4190;
   0xD6D930AC; 0xCB6E20C8; 0xEDB71064; 0xF0000000].

(** [crc = (crc >> 4U) ^ s_crcTable[(crc ^ x) & 0x0FU]] *)
Definition crc_nibble (crc x : Z) : Z :=
  Z.lxor (Z.shiftr crc 4)
    (nth (Z.to_nat (Z.land (Z.lxor crc x) 0x0F)) s_crcTable 0).

(** The body of the loop for the byte [a]. *)
Definition crc_byte (crc a : Z) : Z :=
  let crc := crc_nibble crc (Z.shiftr a 0) in
  crc_nibble crc (Z.shiftr a 4).

(** [compute_crc32] of ddrconfcmp: the checksum of the [size] bytes at
    [addr], given as the list of their values. *)
Definition compute_crc32 (data : list Z) : Z := foldl crc_byte 0 data.

(** [crc32] of ddrconfdump: the same loop. *)
Definition crc32 (data : list Z) : Z := foldl crc_byte 0 data.

(** The CRC-32 of IEEE 802.3 (reflected polynomial [0xEDB88320], initial
    value and final complement [0xFFFFFFFF]), bit by bit. *)
Definition crc_bit (c : Z) : Z :=
  if Z.odd c then Z.lxor (Z.shiftr c 1) 0xEDB88320 else Z.shiftr c 1.

Definition crc32_reference_byte (c a : Z) : Z :=
  Nat.iter 8 crc_bit (Z.lxor c a).

Definition crc32_reference (data : list Z) : Z :=
  Z.lxor (foldl crc32_reference_byte 0xFFFFFFFF data) 0xFFFFFFFF.

(** The value of a [uint8_t]. *)
Definition is_byte (a : Z) : Prop := 0 ≤ a < 256.

End checksum.

(** ** Further sample inputs *)

(** One FSP entry on each side, with the tables [sample_twice] and
    [sample_twice_changed]. *)
Definition sample_fsp_left : list dram_fsp_cfg :=
  [ {| ddrc_cfg := sample_twice; mr_cfg := []; bypass := 0 |} ].

Definition sample_fsp_right : list dram_fsp_cfg :=
  [ {| ddrc_cfg := sample_twice_changed; mr_cfg := []; bypass := 1 |} ].

(** The bytes of the text 123456789. *)
Definition sample_bytes : list Z :=
  [49; 50; 51; 52; 53; 54; 55; 56; 57]%Z.

(** [sample_left] with its records moved round by one place: a permutation
    of identical records. *)
Definition sample_cycled : list ddrc_cfg_param :=
  [ {| reg := 0x30; val := 3 |}; {| reg := 0x10; val := 1 |};
    {| reg := 0x20; val := 2 |} ].

(** Lists of equal length with the same registers, each with one register
    repeated, on which the relocation pass is reached and comes to an
    end. *)
Definition sample_pass_left : list ddrc_cfg_param :=
  [ {| reg := 0x10; val := 1 |}; {| reg := 0x20; val := 2 |};
    {| reg := 0x20; val := 3 |} ].

Definition sample_pass_right : list ddrc_cfg_param :=
  [ {| reg := 0x10; val := 1 |}; {| reg := 0x10; val := 4 |};
    {| reg := 0x20; val := 2 |} ].

(** Lists of equal length with the same registers on which a mismatch
    (at index 2) sends both scans to the end of their lists. *)
Definition sample_end_left : list ddrc_cfg_param :=
  [ {| reg := 0x10; val := 1 |}; {| reg := 0x20; val := 2 |};
    {| reg := 0x10; val := 3 |} ].

Definition sample_end_right : list ddrc_cfg_param :=
  [ {| reg := 0x10; val := 1 |}; {| reg := 0x20; val := 2 |};
    {| reg := 0x20; val := 4 |} ].

(** The report shows "Registers and values match": in the summary that the
    check prints, or in the output of the comparator (where it comes from
    the summary of the nested comparison). *)
Definition success_printed (lines : list report_line) : Prop :=
  Summary S_registers_and_values_match ∈ lines ∨
  ∃ o, Compared o ∈ lines ∧ S_registers_and_values_match ∈ diagnostics o.

(** * Properties *)

(** ** The model on the sample tables *)

(** A right list that lacks one register of the left list: the call
    returns -1, and the nested comparison of the two common records finds
    them identical. *)
Example compare_sample_subset :
  compare_ddrc_cfg_arrays 2 (λ _, true) 0 sample_left sample_subset (Some 0%Z)
  = Some {| result := -1; diff_count_out := Some 0%Z; brk_out := 2;
            diagnostics :=
              [W_structural_differences; I_unique_registers;
               S_registers_and_values_match];
            relocated := [] |}.
Proof. reflexivity. Qed.

(** The same call when the second allocation fails. *)
Example compare_sample_subset_no_memory :
  compare_ddrc_cfg_arrays 2 (λ k, bool_decide (k = 0)) 0
    sample_left sample_subset (Some 0%Z)
  = Some {| result := -1; diff_count_out := Some 0%Z; brk_out := 2;
            diagnostics :=
              [W_structural_differences; I_unique_registers;
               E_allocation_failed];
            relocated := [] |}.
Proof. reflexivity. Qed.

(** A repeated register that moved: one left block and the right tail. *)
Example compare_sample_repeat :
  compare_ddrc_cfg_arrays 5 (λ _, true) 0
    sample_repeat_left sample_repeat_right (Some 0%Z)
  = Some {| result := 1; diff_count_out := Some 2%Z; brk_out := 0;
            diagnostics :=
              [W_different_order; I_reordered_registers;
               I_value_differences 2; I_register_value_differences];
            relocated :=
              [ {| block_start_i1 := 1; block_end_i1 := 2;
                   block_start_i2 := 1; block_end_i2 := 1 |};
                {| block_start_i1 := 3; block_end_i1 := 3;
                   block_start_i2 := 2; block_end_i2 := 3 |} ] |}.
Proof. reflexivity. Qed.

(** The groups of [sample_groups]. *)
Example find_duplicates_sample_groups :
  find_duplicates_ddrc true sample_groups 100
  = [ {| dup_reg := 1; indices := [0; 2; 5]; values := [1; 3; 9]%Z;
         count := 3 |};
      {| dup_reg := 2; indices := [1; 4]; values := [2; 5]%Z; count := 2 |} ].
Proof. reflexivity. Qed.

(** ** Key-set differencer *)

Lemma reg_found_elem_of r cfg : reg_found r cfg = true ↔ r ∈ reg <$> cfg.
Proof.
  induction cfg as [|c cfg IH]; simpl.
  - split; [done | by intros ?%elem_of_nil].
  - rewrite elem_of_cons, <- IH. case_decide; [by split; auto|].
    split; [by right | by intros [?|?]].
Qed.

Lemma reg_found_bool_decide r cfg :
  reg_found r cfg = bool_decide (r ∈ reg <$> cfg).
Proof.
  destruct (reg_found r cfg) eqn:E; symmetry.
  - by apply bool_decide_eq_true, reg_found_elem_of.
  - apply bool_decide_eq_false. rewrite <- reg_found_elem_of. congruence.
Qed.

Lemma extract_found_filter cfg other :
  extract_found cfg other = filter (λ c, reg c ∈ reg <$> other) cfg.
Proof.
  induction cfg as [|c cfg IH]; [done|]. simpl.
  rewrite reg_found_bool_decide, filter_cons, IH.
  by destruct (decide (reg c ∈ reg <$> other));
    [rewrite bool_decide_true | rewrite bool_decide_false].
Qed.

Lemma count_found_extract cfg other :
  count_found cfg other = length (extract_found cfg other).
Proof.
  induction cfg as [|c cfg IH]; [done|]. simpl.
  destruct (reg_found (reg c) other); simpl; by rewrite IH.
Qed.

Lemma count_found_not_found cfg other :
  count_not_found cfg other + count_found cfg other = length cfg.
Proof.
  induction cfg as [|c cfg IH]; [done|]. simpl.
  destruct (reg_found (reg c) other); simpl; lia.
Qed.

Lemma occurrences_count_occ k (cfg : list ddrc_cfg_param) :
  occurrences reg k cfg = count_occ Z.eq_dec (reg <$> cfg) k.
Proof.
  unfold occurrences. induction cfg as [|c cfg IH]; [done|].
  rewrite filter_cons. simpl.
  destruct (decide (reg c = k)), (Z.eq_dec (reg c) k); simpl; try done.
  by rewrite IH.
Qed.

Lemma count_occ_filter (P : Z → Prop) `{!∀ x, Decision (P x)} l k :
  count_occ Z.eq_dec (filter P l) k =
  if decide (P k) then count_occ Z.eq_dec l k else 0.
Proof.
  induction l as [|x l IH].
  - simpl. by case_decide.
  - rewrite filter_cons. destruct (decide (P x)) as [Hx|Hx]; simpl.
    + destruct (Z.eq_dec x k) as [->|]; rewrite IH;
        destruct (decide (P k)); done.
    + rewrite IH. destruct (Z.eq_dec x k) as [->|]; [|done].
      by rewrite !decide_False.
Qed.

Lemma fmap_filter_reg (P : Z → Prop) `{!∀ x, Decision (P x)}
    `{!∀ c : ddrc_cfg_param, Decision (P (reg c))}
    (cfg : list ddrc_cfg_param) :
  reg <$> filter (λ c, P (reg c)) cfg = filter P (reg <$> cfg).
Proof.
  induction cfg as [|c cfg IH]; [done|].
  rewrite fmap_cons, !filter_cons.
  repeat case_decide; try done. rewrite fmap_cons. by f_equal.
Qed.

(** When every common register occurs equally often on both sides, the
    common records of the two sides carry the same registers up to order. *)
Lemma common_keys_permutation cfg1 cfg2 :
  (∀ k, k ∈ reg <$> cfg1 → k ∈ reg <$> cfg2 →
        occurrences reg k cfg1 = occurrences reg k cfg2) →
  reg <$> extract_found cfg1 cfg2 ≡ₚ reg <$> extract_found cfg2 cfg1.
Proof.
  intros Hocc. rewrite !extract_found_filter.
  rewrite (fmap_filter_reg (λ k, k ∈ reg <$> cfg2) cfg1).
  rewrite (fmap_filter_reg (λ k, k ∈ reg <$> cfg1) cfg2).
  apply (Permutation_count_occ Z.eq_dec). intros k.
  rewrite !count_occ_filter.
  destruct (decide (k ∈ reg <$> cfg2)) as [H2|H2],
           (decide (k ∈ reg <$> cfg1)) as [H1|H1].
  - rewrite <- !occurrences_count_occ. by apply Hocc.
  - apply count_occ_not_In. by rewrite <- list_elem_of_In.
  - symmetry. apply count_occ_not_In. by rewrite <- list_elem_of_In.
  - done.
Qed.

(** The unique and the common counts of each side add up to the length of
    that side, and the extracted sublists have the counted lengths.  When
    every common register occurs equally often on both sides, the two
    common counts agree and [count_common_ddrc] returns 0. *)
Lemma key_set_differencer_counts (cfg1 cfg2 : list ddrc_cfg_param) :
  (unique_counts_ddrc cfg1 cfg2).1 + (count_common_ddrc cfg1 cfg2).1.2
    = length cfg1 ∧
  (unique_counts_ddrc cfg1 cfg2).2 + (count_common_ddrc cfg1 cfg2).2
    = length cfg2 ∧
  length (extract_common_ddrc cfg1 cfg2).1 = (count_common_ddrc cfg1 cfg2).1.2 ∧
  length (extract_common_ddrc cfg1 cfg2).2 = (count_common_ddrc cfg1 cfg2).2 ∧
  ((∀ k, k ∈ reg <$> cfg1 → k ∈ reg <$> cfg2 →
         occurrences reg k cfg1 = occurrences reg k cfg2) →
   (count_common_ddrc cfg1 cfg2).1.2 = (count_common_ddrc cfg1 cfg2).2 ∧
   (count_common_ddrc cfg1 cfg2).1.1 = 0%Z ∧
   length (extract_common_ddrc cfg1 cfg2).1
     = length (extract_common_ddrc cfg1 cfg2).2).
Proof.
  unfold unique_counts_ddrc, count_common_ddrc, extract_common_ddrc. simpl.
  split_and!.
  - apply count_found_not_found.
  - apply count_found_not_found.
  - symmetry. apply count_found_extract.
  - symmetry. apply count_found_extract.
  - intros Hocc.
    assert (count_found cfg1 cfg2 = count_found cfg2 cfg1) as Heq.
    { rewrite !count_found_extract.
      rewrite <- (length_fmap reg (extract_found cfg1 cfg2)).
      rewrite <- (length_fmap reg (extract_found cfg2 cfg1)).
      apply Permutation_length. by apply common_keys_permutation. }
    split_and!; [done | by rewrite decide_True |].
    by rewrite <- !count_found_extract.
Qed.

(** C3: evaluation at the failing input.  The left list holds register
    0x10 twice, the right list holds it once.  Neither side has a unique
    register, so the two partition sums hold (0 + 2 = 2 and 0 + 1 = 1), but
    both left records are common and only one right record is: the common
    counts are 2 and 1, [count_common_ddrc] returns -1, the extracted
    sublists are the two lists themselves, of different lengths, and the
    comparator reports the disagreement as an internal error of its own
    and returns without comparing the common records. *)
Theorem common_counts_disagree :
  unique_counts_ddrc sample_twice sample_once = (0, 0) ∧
  count_common_ddrc sample_twice sample_once = ((-1)%Z, 2, 1) ∧
  extract_common_ddrc sample_twice sample_once = (sample_twice, sample_once) ∧
  length (extract_common_ddrc sample_twice sample_once).1
    ≠ length (extract_common_ddrc sample_twice sample_once).2 ∧
  ∀ fuel heap brk diff_count_p,
    compare_ddrc_cfg_arrays (S fuel) heap brk sample_twice sample_once
      diff_count_p =
    Some {| result := -1; diff_count_out := diff_count_p; brk_out := brk;
            diagnostics := [W_structural_differences; E_common_counts 2 1];
            relocated := [] |}.
Proof.
  split_and!; [reflexivity | reflexivity | reflexivity | by vm_compute |].
  intros fuel heap brk diff_count_p. reflexivity.
Qed.

(** ** Comparator: identical lists *)

Lemma same_order_refl cfg : same_order cfg cfg = true.
Proof. induction cfg as [|c cfg IH]; [done|]. simpl. by rewrite decide_False by auto. Qed.

Lemma count_positional_diffs_refl cfg : count_positional_diffs cfg cfg = 0%Z.
Proof. induction cfg as [|c cfg IH]; [done|]. simpl. by rewrite decide_False by auto. Qed.


(** ** Duplicate scanner: lists without repeated registers *)

Section duplicate_scanner_plain.
Context {param : Type} (reg_of val_of : param → Z).

Lemma collect_occurrences_absent r j rest d processed :
  r ∉ reg_of <$> rest →
  collect_occurrences reg_of val_of r j rest d processed = (d, processed).
Proof.
  revert j. induction rest as [|c rest IH]; intros j Hr; [done|].
  rewrite fmap_cons, not_elem_of_cons in Hr. destruct Hr as [Hc Hr].
  simpl. rewrite decide_False by (intros [? _]; done). by apply IH.
Qed.

Lemma scan_duplicates_NoDup i rest processed dups max_dups :
  NoDup (reg_of <$> rest) →
  scan_duplicates reg_of val_of i rest processed dups max_dups = dups.
Proof.
  revert i. induction rest as [|c rest IH]; intros i Hnd; [done|].
  rewrite fmap_cons, NoDup_cons in Hnd. destruct Hnd as [Hc Hnd].
  simpl. case_decide; [|done].
  destruct (processed !! i) as [[]|]; [by apply IH| |];
    rewrite collect_occurrences_absent by done; simpl; by apply IH.
Qed.

Lemma find_duplicates_NoDup cfg max_dups :
  NoDup (reg_of <$> cfg) →
  find_duplicates reg_of val_of true cfg max_dups = [].
Proof. intros Hnd. unfold find_duplicates. by apply scan_duplicates_NoDup. Qed.
End duplicate_scanner_plain.

(** C10: when [calloc] fails, both scanners return no group, which is also
    what they return for a list whose registers are pairwise distinct. *)
Theorem find_duplicates_calloc_failure (cfg : list ddrc_cfg_param)
    (phy : list ddrphy_cfg_param) (max_dups : Z) :
  find_duplicates_ddrc false cfg max_dups = [] ∧
  find_duplicates_ddrphy false phy max_dups = [] ∧
  (NoDup (reg <$> cfg) →
   find_duplicates_ddrc true cfg max_dups
     = find_duplicates_ddrc false cfg max_dups) ∧
  (NoDup (phy_reg <$> phy) →
   find_duplicates_ddrphy true phy max_dups
     = find_duplicates_ddrphy false phy max_dups).
Proof.
  split_and!; [done | done | |]; intros Hnd.
  - by apply find_duplicates_NoDup.
  - by apply find_duplicates_NoDup.
Qed.

Lemma find_duplicates_calloc_failure_witness :
  find_duplicates_ddrc true sample_left 100
    = find_duplicates_ddrc false sample_left 100.
Proof.
  apply (find_duplicates_calloc_failure sample_left [] 100).
  apply (bool_decide_unpack _). vm_compute. exact I.
Defined.

(** ** Comparator: lists of different lengths *)

Lemma compare_length_mismatch_unfold fuel heap brk cfg1 cfg2 diff_count_p :
  length cfg1 ≠ length cfg2 →
  compare_ddrc_cfg_arrays (S fuel) heap brk cfg1 cfg2 diff_count_p =
  let log :=
    W_structural_differences :: find_and_display_unique_ddrc cfg1 cfg2 in
  if decide (count_found cfg1 cfg2 = count_found cfg2 cfg1) then
    if decide (0 < count_found cfg1 cfg2) then
      if heap brk && heap (S brk) then
        match compare_ddrc_cfg_arrays fuel heap (S (S brk))
                (extract_found cfg1 cfg2) (extract_found cfg2 cfg1)
                diff_count_p with
        | None => None
        | Some common =>
            Some {| result := -1;
                    diff_count_out := diff_count_out common;
                    brk_out := brk_out common;
                    diagnostics :=
                      log ++ diagnostics common ++
                      print_comparison_summary (result common)
                        (default 0%Z (diff_count_out common));
                    relocated := relocated common |}
        end
      else
        Some {| result := -1; diff_count_out := diff_count_p;
                brk_out := S (S brk);
                diagnostics := log ++ [E_allocation_failed];
                relocated := [] |}
    else
      Some {| result := -1; diff_count_out := diff_count_p; brk_out := brk;
              diagnostics := log ++ [I_no_common_registers];
              relocated := [] |}
  else
    Some {| result := -1; diff_count_out := diff_count_p; brk_out := brk;
            diagnostics :=
              log ++ [E_common_counts (count_found cfg1 cfg2)
                                      (count_found cfg2 cfg1)];
            relocated := [] |}.
Proof.
  intros Hlen. simpl. rewrite decide_True by done.
  unfold count_common_ddrc, extract_common_ddrc.
  destruct (decide (count_found cfg1 cfg2 = count_found cfg2 cfg1));
    simpl; [|done].
  by repeat case_match.
Qed.

(** C6 (as amended): when the lengths differ and the two common counts
    disagree, the comparator reports the internal error in a message of its
    own and compares nothing further; it returns -1, the value of a
    structural mismatch, and leaves the difference count as it was. *)
Theorem compare_count_disagreement (fuel : nat) (heap : nat → bool)
    (brk : nat) (cfg1 cfg2 : list ddrc_cfg_param) (diff_count_p : option Z) :
  length cfg1 ≠ length cfg2 →
  (count_common_ddrc cfg1 cfg2).1.1 ≠ 0%Z →
  compare_ddrc_cfg_arrays (S fuel) heap brk cfg1 cfg2 diff_count_p =
  Some {| result := -1; diff_count_out := diff_count_p; brk_out := brk;
          diagnostics :=
            W_structural_differences ::
            find_and_display_unique_ddrc cfg1 cfg2 ++
            [E_common_counts (count_common_ddrc cfg1 cfg2).1.2
                             (count_common_ddrc cfg1 cfg2).2];
          relocated := [] |}.
Proof.
  intros Hlen Hstatus. rewrite compare_length_mismatch_unfold by done.
  unfold count_common_ddrc in *. simpl in *.
  by destruct (decide (count_found cfg1 cfg2 = count_found cfg2 cfg1)).
Qed.

Lemma compare_count_disagreement_witness :
  compare_ddrc_cfg_arrays 1 (λ _, true) 0 sample_twice sample_once (Some 0%Z) =
  Some {| result := -1; diff_count_out := Some 0%Z; brk_out := 0;
          diagnostics := [W_structural_differences; E_common_counts 2 1];
          relocated := [] |}.
Proof.
  apply (compare_count_disagreement 0 (λ _, true) 0 sample_twice sample_once);
    vm_compute; congruence.
Defined.

(** C6 (as stated) fails: the call whose common counts disagree returns
    what a call on lists without any common register returns, namely -1
    and an untouched difference count. *)
Lemma count_disagreement_returns_structural_mismatch :
  ∃ o1 o2,
    (count_common_ddrc sample_twice sample_once).1.1 = (-1)%Z ∧
    (count_common_ddrc sample_twice sample_other).1.1 = 0%Z ∧
    compare_ddrc_cfg_arrays 2 (λ _, true) 0 sample_twice sample_once
      (Some 0%Z) = Some o1 ∧
    compare_ddrc_cfg_arrays 2 (λ _, true) 0 sample_twice sample_other
      (Some 0%Z) = Some o2 ∧
    result o1 = result o2 ∧ diff_count_out o1 = diff_count_out o2.
Proof. by eexists _, _; split_and!; [vm_compute .. | |]. Qed.

(** ** Block relocator *)

Lemma found_soon_in_window r cfg start :
  found_soon r cfg start = true ↔ in_window r cfg start.
Proof.
  unfold found_soon, in_window.
  rewrite reg_found_elem_of, list_elem_of_fmap. split.
  - intros (d & -> & Hd). apply elem_of_take in Hd as (i & Hi & Hlt).
    rewrite lookup_drop in Hi. exists (start + i), d. split_and!; [lia.. | done | done].
  - intros (j & d & Hj & Hd & <-). exists d. split; [done|].
    apply elem_of_take. exists (j - start). rewrite lookup_drop.
    replace (start + (j - start)) with j by lia. split; [done | lia].
Qed.

Lemma scan_block_spec i rest other start :
  i ≤ scan_block i rest other start ≤ i + length rest ∧
  (∀ m c, i ≤ m < scan_block i rest other start →
          rest !! (m - i) = Some c → ¬ in_window (reg c) other start) ∧
  (scan_block i rest other start < i + length rest →
   ∃ c, rest !! (scan_block i rest other start - i) = Some c ∧
        in_window (reg c) other start).
Proof.
  revert i. induction rest as [|c rest IH]; intros i; simpl.
  - split_and!; [lia.. | intros; lia | intros; lia].
  - destruct (found_soon (reg c) other start) eqn:Hfound.
    + split_and!; [lia.. | intros; lia |].
      intros _. exists c. rewrite Nat.sub_diag.
      split; [done | by apply found_soon_in_window].
    + destruct (IH (S i)) as ((Hlo & Hhi) & Hbefore & Hat).
      split_and!; [lia.. | |].
      * intros m c' Hm Hc'. destruct (decide (m = i)) as [->|Hne].
        -- rewrite Nat.sub_diag in Hc'. simplify_eq/=.
           rewrite <- found_soon_in_window. congruence.
        -- apply (Hbefore m c'); [lia|].
           replace (m - i) with (S (m - S i)) in Hc' by lia. done.
      * intros Hlt. destruct Hat as (c' & Hc' & Hwin); [lia|].
        exists c'. split; [|done].
        replace (scan_block (S i) rest other start - i)
          with (S (scan_block (S i) rest other start - S i)) by lia.
        done.
Qed.

Lemma scan_block_drop cfg other i start :
  i ≤ length cfg →
  i ≤ scan_block i (drop i cfg) other start ≤ length cfg ∧
  (∀ m c, i ≤ m < scan_block i (drop i cfg) other start →
          cfg !! m = Some c → ¬ in_window (reg c) other start) ∧
  (scan_block i (drop i cfg) other start < length cfg →
   ∃ c, cfg !! scan_block i (drop i cfg) other start = Some c ∧
        in_window (reg c) other start).
Proof.
  intros Hi.
  destruct (scan_block_spec i (drop i cfg) other start)
    as ((Hlo & Hhi) & Hbefore & Hat).
  rewrite length_drop in Hhi, Hat.
  split_and!; [lia.. | |].
  - intros m c Hm Hc. apply (Hbefore m c Hm).
    rewrite lookup_drop. by replace (i + (m - i)) with m by lia.
  - intros Hlt. destruct Hat as (c & Hc & Hwin); [lia|].
    exists c. split; [|done]. rewrite lookup_drop in Hc.
    by replace (i + (scan_block i (drop i cfg) other start - i))
      with (scan_block i (drop i cfg) other start) in Hc by lia.
Qed.

(** A mismatch at which neither scan advances repeats for ever. *)
Lemma relocate_blocks_stuck cfg1 cfg2 i1 i2 c1 c2 :
  cfg1 !! i1 = Some c1 → cfg2 !! i2 = Some c2 → reg c1 ≠ reg c2 →
  extend_left cfg1 cfg2 i1 i2 = i1 →
  extend_right cfg1 cfg2 i1 i2 = i2 →
  ∀ fuel blocks, relocate_blocks fuel cfg1 cfg2 i1 i2 blocks = None.
Proof.
  intros H1 H2 Hne Hl Hr fuel.
  induction fuel as [|fuel IH]; intros blocks; [done|].
  simpl. rewrite H1, H2, decide_False by done. rewrite Hl, Hr. apply IH.
Qed.

Lemma relocate_blocks_grows fuel cfg1 cfg2 i1 i2 blocks j1 j2 out :
  relocate_blocks fuel cfg1 cfg2 i1 i2 blocks = Some (j1, j2, out) →
  i1 ≤ j1 ∧ i2 ≤ j2 ∧ ∃ more, out = blocks ++ more.
Proof.
  revert i1 i2 blocks. induction fuel as [|fuel IH];
    intros i1 i2 blocks Hr; [done|].
  cbn [relocate_blocks] in Hr.
  destruct (cfg1 !! i1) as [c1|] eqn:H1.
  2: { simplify_eq. split_and!; [done..|]. exists []. by rewrite app_nil_r. }
  destruct (cfg2 !! i2) as [c2|] eqn:H2.
  2: { simplify_eq. split_and!; [done..|]. exists []. by rewrite app_nil_r. }
  pose proof (lookup_lt_Some _ _ _ H1) as Hlt1.
  pose proof (lookup_lt_Some _ _ _ H2) as Hlt2.
  destruct (decide (reg c1 = reg c2)) as [Hreg|Hreg].
  - apply IH in Hr as (? & ? & ?). split_and!; [lia.. | done].
  - cbv zeta in Hr. apply IH in Hr as (Hj1 & Hj2 & more & ->).
    destruct (scan_block_drop cfg1 cfg2 i1 i2) as ([? _] & _); [lia|].
    destruct (scan_block_drop cfg2 cfg1 i2 (extend_left cfg1 cfg2 i1 i2))
      as ([? _] & _); [lia|].
    unfold extend_left, extend_right in *.
    split_and!; [lia.. |]. rewrite <- (assoc_L (++)). by eexists.
Qed.

(** C8: on a mismatch at the cursors, the left cursor moves to the first
    index at or after it whose register occurs in the window of 50 right
    records that starts at the right cursor, or to the end of the left
    list; the right cursor then moves in the same way against the window
    that starts at the new left cursor.  The pass goes on from these two
    cursors: a pass that ends has moved at least one of them, shows the two
    skipped ranges as its next block and ends at or beyond them; when a
    scan has reached the end of its list the pass ends at once, and a pass
    in which neither cursor moves never ends. *)
Theorem relocation_cursor_extension
    (cfg1 cfg2 : list ddrc_cfg_param) (i1 i2 : nat) (c1 c2 : ddrc_cfg_param) :
  cfg1 !! i1 = Some c1 → cfg2 !! i2 = Some c2 → reg c1 ≠ reg c2 →
  let k1 := extend_left cfg1 cfg2 i1 i2 in
  let k2 := extend_right cfg1 cfg2 k1 i2 in
  LOOKAHEAD = 50 ∧
  i1 ≤ k1 ≤ length cfg1 ∧
  (∀ m c, i1 ≤ m < k1 → cfg1 !! m = Some c → ¬ in_window (reg c) cfg2 i2) ∧
  (k1 < length cfg1 →
   ∃ c, cfg1 !! k1 = Some c ∧ in_window (reg c) cfg2 i2) ∧
  i2 ≤ k2 ≤ length cfg2 ∧
  (∀ m c, i2 ≤ m < k2 → cfg2 !! m = Some c → ¬ in_window (reg c) cfg1 k1) ∧
  (k2 < length cfg2 →
   ∃ c, cfg2 !! k2 = Some c ∧ in_window (reg c) cfg1 k1) ∧
  (∀ fuel blocks,
     relocate_blocks (S fuel) cfg1 cfg2 i1 i2 blocks
       = relocate_blocks fuel cfg1 cfg2 k1 k2
           (blocks ++ shown_block i1 k1 i2 k2)) ∧
  (∀ fuel blocks j1 j2 out,
     relocate_blocks fuel cfg1 cfg2 i1 i2 blocks = Some (j1, j2, out) →
     (i1 < k1 ∨ i2 < k2) ∧ k1 ≤ j1 ∧ k2 ≤ j2 ∧
     ∃ more,
       out = blocks ++
             {| block_start_i1 := i1; block_end_i1 := k1;
                block_start_i2 := i2; block_end_i2 := k2 |} :: more) ∧
  (k1 = length cfg1 ∨ k2 = length cfg2 →
   ∀ fuel blocks,
     relocate_blocks (S (S fuel)) cfg1 cfg2 i1 i2 blocks
       = Some (k1, k2, blocks ++ shown_block i1 k1 i2 k2)) ∧
  (k1 = i1 → k2 = i2 →
   ∀ fuel blocks, relocate_blocks fuel cfg1 cfg2 i1 i2 blocks = None).
Proof.
  intros H1 H2 Hne k1 k2.
  pose proof (lookup_lt_Some _ _ _ H1) as Hlt1.
  pose proof (lookup_lt_Some _ _ _ H2) as Hlt2.
  destruct (scan_block_drop cfg1 cfg2 i1 i2) as (Hr1 & Hb1 & Ha1); [lia|].
  destruct (scan_block_drop cfg2 cfg1 i2 k1) as (Hr2 & Hb2 & Ha2); [lia|].
  assert (∀ fuel blocks,
            relocate_blocks (S fuel) cfg1 cfg2 i1 i2 blocks
              = relocate_blocks fuel cfg1 cfg2 k1 k2
                  (blocks ++ shown_block i1 k1 i2 k2)) as Hstep.
  { intros fuel blocks. simpl. rewrite H1, H2. by rewrite decide_False. }
  assert (k1 = i1 → k2 = i2 →
          ∀ fuel blocks, relocate_blocks fuel cfg1 cfg2 i1 i2 blocks = None)
    as Hstuck.
  { intros Hk1 Hk2. apply (relocate_blocks_stuck cfg1 cfg2 i1 i2 c1 c2);
      try done. unfold k2 in Hk2. by rewrite Hk1 in Hk2. }
  split_and!;
    [ done | exact (proj1 Hr1) | exact (proj2 Hr1) | exact Hb1 | exact Ha1
      | exact (proj1 Hr2) | exact (proj2 Hr2) | exact Hb2 | exact Ha2
      | exact Hstep | | | exact Hstuck ].
  2: { intros Hend fuel blocks. rewrite Hstep. cbn [relocate_blocks].
       destruct Hend as [Hend|Hend].
       - by rewrite (lookup_ge_None_2 cfg1 k1) by lia.
       - rewrite (lookup_ge_None_2 cfg2 k2) by lia.
         by destruct (cfg1 !! k1). }
  intros fuel blocks j1 j2 out Hr.
  assert (i1 ≤ k1 ∧ i2 ≤ k2) as [Hle1 Hle2]
    by (split; [exact (proj1 Hr1) | exact (proj1 Hr2)]).
  assert (i1 < k1 ∨ i2 < k2) as Hmove.
  { destruct (decide (k1 = i1)) as [Hk1|?]; [|left; lia].
    destruct (decide (k2 = i2)) as [Hk2|?]; [|right; lia].
    by rewrite (Hstuck Hk1 Hk2) in Hr. }
  destruct fuel as [|fuel]; [done|]. rewrite Hstep in Hr.
  apply relocate_blocks_grows in Hr as (? & ? & more & ->).
  split_and!; [done..|]. exists more.
  unfold shown_block. rewrite decide_True by done.
  by rewrite <- (assoc_L (++)).
Qed.

Lemma relocation_cursor_extension_witness :
  compare_ddrc_cfg_arrays 5 (λ _, true) 0 sample_pass_left sample_pass_right
    (Some 0%Z) =
  Some {| result := 1; diff_count_out := Some 1%Z; brk_out := 0;
          diagnostics :=
            [W_different_order; I_reordered_registers;
             I_value_differences 1; I_register_value_differences];
          relocated :=
            [{| block_start_i1 := 1; block_end_i1 := 1;
                block_start_i2 := 1; block_end_i2 := 2 |};
             {| block_start_i1 := 2; block_end_i1 := 3;
                block_start_i2 := 3; block_end_i2 := 3 |}] |} ∧
  (∃ out more,
     relocate_blocks 3 sample_pass_left sample_pass_right 1 1 []
       = Some (2, 3, out) ∧
     out = [] ++ {| block_start_i1 := 1; block_end_i1 := 1;
                    block_start_i2 := 1; block_end_i2 := 2 |} :: more) ∧
  relocate_blocks 2 sample_end_left sample_end_right 2 2 []
    = Some (3, 3, [] ++ [{| block_start_i1 := 2; block_end_i1 := 3;
                            block_start_i2 := 2; block_end_i2 := 3 |}]).
Proof.
  split; [by vm_compute|]. split.
  2: { destruct (relocation_cursor_extension sample_end_left sample_end_right
                   2 2 {| reg := 0x10; val := 3 |} {| reg := 0x20; val := 4 |})
         as (_ & _ & _ & _ & _ & _ & _ & _ & _ & Hend & _);
         [reflexivity | reflexivity | by vm_compute |].
       apply (Hend (or_introl eq_refl) 0 []). }
  destruct (relocation_cursor_extension sample_pass_left sample_pass_right
              1 1 {| reg := 0x20; val := 2 |} {| reg := 0x10; val := 4 |})
    as (_ & _ & _ & _ & _ & _ & _ & _ & Hshown & _ & _);
    [reflexivity | reflexivity | by vm_compute |].
  destruct (Hshown 3 [] 2 3 _ ltac:(vm_compute; reflexivity))
    as (_ & _ & _ & more & Hout).
  eexists _, more. split; [vm_compute; reflexivity | exact Hout].
Defined.

(** More fuel does not change a result. *)
Lemma relocate_blocks_fuel_mono fuel cfg1 cfg2 i1 i2 blocks r :
  relocate_blocks fuel cfg1 cfg2 i1 i2 blocks = Some r →
  relocate_blocks (S fuel) cfg1 cfg2 i1 i2 blocks = Some r.
Proof.
  revert i1 i2 blocks. induction fuel as [|fuel IH]; intros i1 i2 blocks; [done|].
  intros Hr. cbn [relocate_blocks] in Hr |- *.
  destruct (cfg1 !! i1) as [c1|]; [|done].
  destruct (cfg2 !! i2) as [c2|]; [|done].
  case_decide; by apply IH.
Qed.

(** The matched run is the longest common prefix of the two register
    sequences. *)
Lemma matched_run_spec rest1 rest2 :
  reg <$> take (matched_run rest1 rest2) rest1
    = reg <$> take (matched_run rest1 rest2) rest2 ∧
  matched_run rest1 rest2 ≤ length rest1 ∧
  matched_run rest1 rest2 ≤ length rest2 ∧
  ∀ c1 c2, rest1 !! matched_run rest1 rest2 = Some c1 →
           rest2 !! matched_run rest1 rest2 = Some c2 → reg c1 ≠ reg c2.
Proof.
  revert rest2. induction rest1 as [|c1 rest1 IH]; intros [|c2 rest2];
    cbn [matched_run];
    try (split_and!; [done | simpl; lia.. | done]).
  destruct (decide (reg c1 = reg c2)) as [Hreg|Hreg].
  - destruct (IH rest2) as (Hkeys & ? & ? & Hnext).
    split_and!; [|simpl; lia..|done].
    cbn [take]. rewrite !fmap_cons. by rewrite Hkeys, Hreg.
  - split_and!; [done | simpl; lia.. |]. intros ?? [= <-] [= <-]. done.
Qed.

(** A cursor whose register is found in the window does not move. *)
Lemma scan_block_stays cfg other i c start :
  cfg !! i = Some c → found_soon (reg c) other start = true →
  scan_block i (drop i cfg) other start = i.
Proof.
  intros Hc Hfound. rewrite (drop_S _ _ _ Hc). simpl. by rewrite Hfound.
Qed.

(** The pass stalls at the first mismatch when both registers there recur
    within the window of the other side. *)
Lemma relocate_blocks_first_mismatch cfg1 cfg2 c1 c2 :
  let p := matched_run cfg1 cfg2 in
  cfg1 !! p = Some c1 → cfg2 !! p = Some c2 →
  found_soon (reg c1) cfg2 p = true → found_soon (reg c2) cfg1 p = true →
  ∀ fuel, relocate_blocks fuel cfg1 cfg2 0 0 [] = None.
Proof.
  intros p H1 H2 Hf1 Hf2 fuel.
  destruct (matched_run_spec cfg1 cfg2) as (_ & _ & _ & Hne).
  specialize (Hne c1 c2 H1 H2).
  assert (∀ fuel blocks, relocate_blocks fuel cfg1 cfg2 p p blocks = None)
    as Hstuck.
  { apply (relocate_blocks_stuck cfg1 cfg2 p p c1 c2); [done..| |].
    - by apply (scan_block_stays cfg1 cfg2 p c1).
    - by apply (scan_block_stays cfg2 cfg1 p c2). }
  destruct fuel as [|fuel]; [done|].
  destruct (decide (p = 0)) as [Hp|Hp].
  - rewrite <- Hp. apply Hstuck.
  - cbn [relocate_blocks].
    destruct cfg1 as [|d1 cfg1], cfg2 as [|d2 cfg2]; try done.
    cbn [lookup list_lookup].
    destruct (decide (reg d1 = reg d2)) as [Hd|Hd].
    + cbn [drop]. rewrite Nat.add_0_l. apply Hstuck.
    + destruct Hp. unfold p. cbn [matched_run]. by rewrite decide_False.
Qed.

(** Any reordering of at most [LOOKAHEAD] records with pairwise distinct
    registers stalls the pass: the two registers at the first mismatch both
    lie ahead on the other side, inside the window. *)
Lemma relocate_blocks_short_reordering cfg1 cfg2 :
  NoDup (reg <$> cfg1) → reg <$> cfg1 ≡ₚ reg <$> cfg2 →
  reg <$> cfg1 ≠ reg <$> cfg2 → length cfg1 ≤ LOOKAHEAD →
  ∀ fuel, relocate_blocks fuel cfg1 cfg2 0 0 [] = None.
Proof.
  intros Hnd Hperm Hkeys Hshort.
  assert (length cfg1 = length cfg2) as Hlen.
  { rewrite <- (length_fmap reg cfg1), <- (length_fmap reg cfg2).
    by apply Permutation_length. }
  assert (NoDup (reg <$> cfg2)) as Hnd' by by rewrite <- Hperm.
  destruct (matched_run_spec cfg1 cfg2) as (Hprefix & Hp1 & Hp2 & _).
  set (p := matched_run cfg1 cfg2) in *.
  assert (p < length cfg1) as Hp.
  { destruct (decide (p < length cfg1)) as [|Hge]; [done|]. destruct Hkeys.
    by rewrite !firstn_all2 in Hprefix by lia. }
  destruct (lookup_lt_is_Some_2 cfg1 p Hp) as [c1 H1].
  destruct (lookup_lt_is_Some_2 cfg2 p ltac:(lia)) as [c2 H2].
  assert (∀ (l k : list ddrc_cfg_param) c,
            NoDup (reg <$> l) → reg <$> l ≡ₚ reg <$> k →
            reg <$> take p l = reg <$> take p k → l !! p = Some c →
            length k ≤ LOOKAHEAD →
            found_soon (reg c) k p = true) as Hwindow.
  { intros l k c Hl Hlk Hpre Hc Hk. apply found_soon_in_window.
    assert (reg c ∈ reg <$> k) as (q & Hq)%list_elem_of_lookup.
    { rewrite <- Hlk. apply list_elem_of_fmap_2.
      by apply list_elem_of_lookup_2 in Hc. }
    rewrite list_lookup_fmap in Hq.
    destruct (k !! q) as [d|] eqn:Hd; simplify_eq/=.
    exists q, d. split_and!; [|apply lookup_lt_Some in Hd; lia|done..].
    destruct (decide (p ≤ q)) as [|Hlt]; [done|].
    assert ((reg <$> l) !! q = Some (reg c)) as Hq'.
    { rewrite <- (lookup_take_lt (reg <$> l) p q) by lia.
      rewrite <- fmap_take, Hpre, fmap_take.
      rewrite lookup_take_lt by lia.
      by rewrite list_lookup_fmap, Hd; simpl; rewrite Hq. }
    assert (q = p); [|lia].
    apply (NoDup_lookup (reg <$> l) q p (reg c)); [done..|].
    by rewrite list_lookup_fmap, Hc. }
  apply (relocate_blocks_first_mismatch cfg1 cfg2 c1 c2); [done..| |].
  - apply (Hwindow cfg1 cfg2); [done..|lia].
  - apply (Hwindow cfg2 cfg1); [done | done | done | done | lia].
Qed.

(** ** Comparator: lists of equal length *)

Lemma same_order_keys cfg1 cfg2 :
  length cfg1 = length cfg2 →
  same_order cfg1 cfg2 = true ↔ reg <$> cfg1 = reg <$> cfg2.
Proof.
  revert cfg2. induction cfg1 as [|c1 cfg1 IH]; intros [|c2 cfg2] Hlen;
    simplify_eq/=; [done|].
  destruct (decide (reg c1 = reg c2)) as [Hreg|Hreg].
  - rewrite decide_False by (by intros []). rewrite IH by done.
    split; [intros ->; by rewrite Hreg | by intros [= _ ?]].
  - rewrite decide_True by done. split; [done | intros [= ? _]; done].
Qed.

Lemma check_left_in_right_found rest cfg2 all_present :
  all_found rest cfg2 →
  check_left_in_right rest cfg2 all_present = (all_present, []).
Proof.
  induction 1 as [|c rest Hc _ IH]; [done|]. simpl.
  by rewrite (proj2 (reg_found_elem_of _ _) Hc).
Qed.

Lemma check_left_in_right_flag rest cfg2 all_present :
  (check_left_in_right rest cfg2 all_present).1 = true ↔
  all_present = true ∧ all_found rest cfg2.
Proof.
  unfold all_found. revert all_present.
  induction rest as [|c rest IH]; intros all_present; simpl.
  - rewrite Forall_nil. tauto.
  - rewrite Forall_cons. destruct (reg_found (reg c) cfg2) eqn:Hfound.
    + apply reg_found_elem_of in Hfound. rewrite IH. tauto.
    + specialize (IH false).
      destruct (check_left_in_right rest cfg2 false) as [flag log]. simpl in *.
      rewrite <- reg_found_elem_of, Hfound.
      split; [intros Hflag; apply IH in Hflag as [? _]; done|].
      by intros (_ & ? & _).
Qed.

Lemma check_right_in_left_found i rest cfg1 all_present :
  all_found rest cfg1 →
  check_right_in_left i rest cfg1 all_present = (all_present, []).
Proof.
  intros Hall. revert i. induction Hall as [|c rest Hc _ IH]; intros i; [done|].
  simpl. by rewrite (proj2 (reg_found_elem_of _ _) Hc).
Qed.

Lemma check_right_in_left_flag i rest cfg1 all_present :
  (check_right_in_left i rest cfg1 all_present).1 = true ↔
  all_present = true ∧ all_found rest cfg1.
Proof.
  unfold all_found. revert i all_present.
  induction rest as [|c rest IH]; intros i all_present; simpl.
  - rewrite Forall_nil. tauto.
  - rewrite Forall_cons. destruct (reg_found (reg c) cfg1) eqn:Hfound.
    + apply reg_found_elem_of in Hfound. rewrite IH. tauto.
    + specialize (IH (S i) false).
      destruct (check_right_in_left (S i) rest cfg1 false) as [flag log].
      simpl in *. rewrite <- reg_found_elem_of, Hfound.
      split; [intros Hflag; apply IH in Hflag as [? _]; done|].
      by intros (_ & ? & _).
Qed.

Lemma compare_same_length_identical fuel brk cfg1 cfg2 diff_count_p :
  same_order cfg1 cfg2 = true →
  compare_same_length fuel brk cfg1 cfg2 diff_count_p =
  Some {| result := 0;
          diff_count_out :=
            store_diff_count diff_count_p (count_positional_diffs cfg1 cfg2);
          brk_out := brk;
          diagnostics :=
            if decide (0 < count_positional_diffs cfg1 cfg2)%Z then
              [I_registers_match_differences (count_positional_diffs cfg1 cfg2);
               I_register_value_differences]
            else [];
          relocated := [] |}.
Proof. intros Hsame. unfold compare_same_length. by rewrite Hsame. Qed.

Lemma compare_same_length_missing fuel brk cfg1 cfg2 diff_count_p :
  same_order cfg1 cfg2 = false →
  ¬ (all_found cfg1 cfg2 ∧ all_found cfg2 cfg1) →
  ∃ log,
    compare_same_length fuel brk cfg1 cfg2 diff_count_p =
    Some {| result := -1; diff_count_out := diff_count_p; brk_out := brk;
            diagnostics := log; relocated := [] |}.
Proof.
  intros Hsame Hmiss. unfold compare_same_length. rewrite Hsame.
  pose proof (check_left_in_right_flag cfg1 cfg2 true) as Hleft.
  destruct (check_left_in_right cfg1 cfg2 true) as [flag1 log1].
  pose proof (check_right_in_left_flag 0 cfg2 cfg1 flag1) as Hright.
  destruct (check_right_in_left 0 cfg2 cfg1 flag1) as [flag2 log2].
  simpl in *. destruct flag2; simpl; [|by eexists].
  destruct Hmiss. destruct Hright as [[-> ?] _]; [done|].
  destruct Hleft as [[_ ?] _]; done.
Qed.

Lemma compare_same_length_reordered fuel brk cfg1 cfg2 diff_count_p :
  same_order cfg1 cfg2 = false →
  all_found cfg1 cfg2 → all_found cfg2 cfg1 →
  compare_same_length fuel brk cfg1 cfg2 diff_count_p =
  match relocate_blocks fuel cfg1 cfg2 0 0 [] with
  | None => None
  | Some (i1, i2, blocks) =>
      Some {| result := 1;
              diff_count_out :=
                store_diff_count diff_count_p (count_matched_diffs cfg1 cfg2);
              brk_out := brk;
              diagnostics :=
                [W_different_order; I_reordered_registers] ++
                (if decide (0 < count_matched_diffs cfg1 cfg2)%Z then
                   [I_value_differences (count_matched_diffs cfg1 cfg2);
                    I_register_value_differences]
                 else []);
              relocated :=
                blocks ++ trailing_blocks (length cfg1) (length cfg2) i1 i2 |}
  end.
Proof.
  intros Hsame H12 H21. unfold compare_same_length. rewrite Hsame.
  rewrite check_left_in_right_found, check_right_in_left_found by done.
  simpl. by destruct (relocate_blocks fuel cfg1 cfg2 0 0 []) as [[[??]?]|].
Qed.

Lemma compare_equal_length_unfold fuel heap brk cfg1 cfg2 diff_count_p :
  length cfg1 = length cfg2 →
  compare_ddrc_cfg_arrays (S fuel) heap brk cfg1 cfg2 diff_count_p =
  compare_same_length fuel brk cfg1 cfg2 diff_count_p.
Proof. intros Hlen. simpl. by rewrite decide_False by (by intros []). Qed.

(** The three steps on lists of equal length: identical register order
    gives 0; otherwise a register missing on either side gives -1;
    otherwise the call returns 1 provided its relocation pass comes to an
    end, and does not return when the pass does not. *)
Lemma compare_equal_length_steps fuel heap brk cfg1 cfg2 diff_count_p :
  length cfg1 = length cfg2 →
  (reg <$> cfg1 = reg <$> cfg2 →
   ∃ o, compare_ddrc_cfg_arrays (S fuel) heap brk cfg1 cfg2 diff_count_p
          = Some o ∧ result o = 0%Z) ∧
  (reg <$> cfg1 ≠ reg <$> cfg2 →
   ¬ (all_found cfg1 cfg2 ∧ all_found cfg2 cfg1) →
   ∃ o, compare_ddrc_cfg_arrays (S fuel) heap brk cfg1 cfg2 diff_count_p
          = Some o ∧ result o = (-1)%Z) ∧
  (reg <$> cfg1 ≠ reg <$> cfg2 →
   all_found cfg1 cfg2 → all_found cfg2 cfg1 →
   (is_Some (relocate_blocks fuel cfg1 cfg2 0 0 []) →
    ∃ o, compare_ddrc_cfg_arrays (S fuel) heap brk cfg1 cfg2 diff_count_p
           = Some o ∧ result o = 1%Z) ∧
   (relocate_blocks fuel cfg1 cfg2 0 0 [] = None →
    compare_ddrc_cfg_arrays (S fuel) heap brk cfg1 cfg2 diff_count_p = None)).
Proof.
  intros Hlen. rewrite compare_equal_length_unfold by done.
  pose proof (same_order_keys cfg1 cfg2 Hlen) as Hkeys.
  split_and!.
  - intros Heq. rewrite compare_same_length_identical by by apply Hkeys.
    by eexists.
  - intros Hne Hmiss.
    destruct (compare_same_length_missing fuel brk cfg1 cfg2 diff_count_p)
      as [log ->]; [|done|by eexists].
    destruct (same_order cfg1 cfg2); [|done]. destruct Hne. by apply Hkeys.
  - intros Hne H12 H21.
    rewrite compare_same_length_reordered; [|  |done..].
    + split; [intros [[[i1 i2] blocks] ->]; by eexists | by intros ->].
    + destruct (same_order cfg1 cfg2); [|done]. destruct Hne. by apply Hkeys.
Qed.

(** C1 (evaluation at the failing input): on the lists of the example of
    section 8, which hold the same registers with the first two swapped,
    the call finds the mismatch at index 0 on both sides, neither scan of
    the relocation pass moves its cursor, and the call never returns. *)
Theorem compare_swapped_never_returns (fuel : nat) (heap : nat → bool)
    (brk : nat) (diff_count_p : option Z) :
  compare_ddrc_cfg_arrays fuel heap brk sample_left sample_right diff_count_p
    = None.
Proof.
  destruct fuel as [|fuel]; [done|].
  apply (compare_equal_length_steps fuel heap brk sample_left sample_right);
    [done | by vm_compute | | | ].
  - unfold all_found. apply (bool_decide_unpack _). by vm_compute.
  - unfold all_found. apply (bool_decide_unpack _). by vm_compute.
  - by apply (relocate_blocks_stuck sample_left sample_right 0 0
                {| reg := 0x10; val := 1 |} {| reg := 0x20; val := 2 |}).
Qed.

Lemma compare_sample_common_never_returns fuel heap brk diff_count_p :
  compare_ddrc_cfg_arrays fuel heap brk sample_common sample_short diff_count_p
    = None.
Proof.
  destruct fuel as [|fuel]; [done|].
  apply (compare_equal_length_steps fuel heap brk sample_common sample_short);
    [done | by vm_compute | | | ].
  - unfold all_found. apply (bool_decide_unpack _). by vm_compute.
  - unfold all_found. apply (bool_decide_unpack _). by vm_compute.
  - by apply (relocate_blocks_stuck sample_common sample_short 0 0
                {| reg := 0x10; val := 1 |} {| reg := 0x20; val := 2 |}).
Qed.

(** C2 (evaluation at the failing input): the left list has three records
    and the right list two, both registers of the right list occur on the
    left in the other order; the recursive comparison of the common
    sublists never returns, and neither does the call. *)
Theorem compare_length_mismatch_never_returns (fuel : nat) (brk : nat)
    (diff_count_p : option Z) :
  compare_ddrc_cfg_arrays fuel (λ _, true) brk sample_left sample_short
    diff_count_p = None.
Proof.
  destruct fuel as [|fuel]; [done|].
  rewrite compare_length_mismatch_unfold by (by vm_compute).
  change (extract_found sample_left sample_short) with sample_common.
  change (extract_found sample_short sample_left) with sample_short.
  cbv zeta. rewrite decide_True by reflexivity.
  rewrite decide_True by (vm_compute; lia). simpl andb. cbv iota.
  by rewrite compare_sample_common_never_returns.
Qed.

(** When the lengths differ, a call that returns, returns -1; it returns
    as soon as the recursive comparison returns or is not made. *)
Lemma compare_length_mismatch_result fuel heap brk cfg1 cfg2 diff_count_p :
  length cfg1 ≠ length cfg2 →
  (∀ o, compare_ddrc_cfg_arrays fuel heap brk cfg1 cfg2 diff_count_p = Some o →
        result o = (-1)%Z) ∧
  ((count_common_ddrc cfg1 cfg2).1.1 ≠ 0%Z ∨ count_found cfg1 cfg2 = 0 ∨
   heap brk && heap (S brk) = false →
   ∃ o, compare_ddrc_cfg_arrays (S fuel) heap brk cfg1 cfg2 diff_count_p
          = Some o ∧
        result o = (-1)%Z ∧ diff_count_out o = diff_count_p) ∧
  (is_Some (compare_ddrc_cfg_arrays fuel heap (S (S brk))
              (extract_found cfg1 cfg2) (extract_found cfg2 cfg1)
              diff_count_p) →
   ∃ o, compare_ddrc_cfg_arrays (S fuel) heap brk cfg1 cfg2 diff_count_p
          = Some o ∧ result o = (-1)%Z).
Proof.
  intros Hlen. split_and!.
  - intros o. destruct fuel as [|fuel]; [done|].
    rewrite compare_length_mismatch_unfold by done. cbv zeta.
    repeat case_match; intros; by simplify_eq/=.
  - rewrite compare_length_mismatch_unfold by done.
    unfold count_common_ddrc. cbv zeta. simpl.
    intros Hcase. repeat case_decide; try (by eexists).
    + destruct (heap brk && heap (S brk)); [|by eexists].
      destruct Hcase as [?|[?|?]]; [done | lia | done].
  - intros [common Hcommon]. rewrite compare_length_mismatch_unfold by done.
    cbv zeta. rewrite Hcommon. repeat case_match; by eexists.
Qed.

Lemma compare_same_length_fuel_mono fuel brk cfg1 cfg2 diff_count_p o :
  compare_same_length fuel brk cfg1 cfg2 diff_count_p = Some o →
  compare_same_length (S fuel) brk cfg1 cfg2 diff_count_p = Some o.
Proof.
  unfold compare_same_length.
  destruct (same_order cfg1 cfg2); [done|].
  destruct (check_left_in_right cfg1 cfg2 true) as [flag1 log1].
  destruct (check_right_in_left 0 cfg2 cfg1 flag1) as [[] log2]; [|done].
  cbn [negb].
  destruct (relocate_blocks fuel cfg1 cfg2 0 0 []) as [r|] eqn:Hr; [|done].
  by rewrite (relocate_blocks_fuel_mono _ _ _ _ _ _ _ Hr).
Qed.

Lemma compare_fuel_mono fuel heap brk cfg1 cfg2 diff_count_p o :
  compare_ddrc_cfg_arrays fuel heap brk cfg1 cfg2 diff_count_p = Some o →
  compare_ddrc_cfg_arrays (S fuel) heap brk cfg1 cfg2 diff_count_p = Some o.
Proof.
  revert brk cfg1 cfg2 o.
  induction fuel as [|fuel IH]; intros brk cfg1 cfg2 o; [done|].
  destruct (decide (length cfg1 = length cfg2)) as [Hlen|Hlen].
  - rewrite !compare_equal_length_unfold by done.
    apply compare_same_length_fuel_mono.
  - rewrite !compare_length_mismatch_unfold by done. cbv zeta.
    destruct (compare_ddrc_cfg_arrays fuel heap (S (S brk)) _ _ _)
      as [common|] eqn:Hcommon.
    + by rewrite (IH _ _ _ _ Hcommon).
    + repeat case_match; done.
Qed.

(** ** Value comparator *)

Lemma count_positional_diffs_zip cfg1 cfg2 :
  count_positional_diffs cfg1 cfg2
    = Z.of_nat (length (positional_diffs cfg1 cfg2)).
Proof.
  unfold positional_diffs. revert cfg2.
  induction cfg1 as [|c1 cfg1 IH]; intros [|c2 cfg2]; simpl; [done..|].
  rewrite filter_cons. simpl. rewrite IH.
  destruct (decide (val c1 = val c2)).
  - by rewrite !decide_False by (by intros []).
  - rewrite !decide_True by done. simpl. lia.
Qed.

Lemma first_match_differs_spec c cfg2 :
  first_match_differs c cfg2 = true ↔ differs_from_first_match c cfg2.
Proof.
  unfold differs_from_first_match.
  induction cfg2 as [|d cfg2 IH]; csimpl; [done|].
  case_decide; simpl.
  - by rewrite bool_decide_eq_true.
  - rewrite IH. by destruct (list_find _ cfg2) as [[? ?]|].
Qed.

Lemma count_matched_diffs_filter cfg1 cfg2 :
  count_matched_diffs cfg1 cfg2 = Z.of_nat (length (matched_diffs cfg1 cfg2)).
Proof.
  unfold matched_diffs. induction cfg1 as [|c cfg1 IH]; [done|].
  simpl. rewrite filter_cons, IH.
  pose proof (first_match_differs_spec c cfg2) as Hspec.
  destruct (first_match_differs c cfg2).
  - rewrite decide_True by (by apply Hspec). simpl. lia.
  - rewrite decide_False; [done|]. intros ?%Hspec. done.
Qed.

Lemma first_match_differs_elem_of c cfg2 :
  first_match_differs c cfg2 = true →
  ∃ b, b ∈ cfg2 ∧ reg b = reg c ∧ val c ≠ val b.
Proof.
  induction cfg2 as [|d cfg2 IH]; simpl; [done|]. case_decide.
  - intros ?%bool_decide_eq_true. exists d. split; [left | done].
  - intros (b & ? & ?)%IH. exists b. split; [by right | done].
Qed.

Lemma first_match_differs_unique c b cfg2 :
  NoDup (reg <$> cfg2) → b ∈ cfg2 → reg b = reg c →
  first_match_differs c cfg2 = bool_decide (val c ≠ val b).
Proof.
  induction cfg2 as [|d cfg2 IH]; intros Hnd Hb Hreg.
  { by apply elem_of_nil in Hb. }
  rewrite fmap_cons, NoDup_cons in Hnd. destruct Hnd as [Hd Hnd].
  apply elem_of_cons in Hb as [->|Hb]; simpl.
  - by rewrite decide_True.
  - rewrite decide_False; [by apply IH|].
    intros Heq. apply Hd. rewrite <- Heq, <- Hreg.
    by apply list_elem_of_fmap_2.
Qed.

Lemma NoDup_reg_inj (cfg : list ddrc_cfg_param) a c :
  NoDup (reg <$> cfg) → a ∈ cfg → c ∈ cfg → reg a = reg c → a = c.
Proof.
  intros Hnd (i & Hi)%list_elem_of_lookup (j & Hj)%list_elem_of_lookup Hreg.
  assert (i = j) as ->; [|congruence].
  apply (NoDup_lookup (reg <$> cfg) i j (reg a)); [done| |];
    rewrite list_lookup_fmap; [by rewrite Hi | by rewrite Hj, Hreg].
Qed.

Lemma values_differ_first_match cfg1 cfg2 c :
  NoDup (reg <$> cfg1) → NoDup (reg <$> cfg2) → c ∈ cfg1 →
  values_differ (reg c) cfg1 cfg2 ↔ first_match_differs c cfg2 = true.
Proof.
  intros Hnd1 Hnd2 Hc. unfold values_differ. rewrite Exists_exists. split.
  - intros (a & Ha & Hreg & (b & Hb & Hregb & Hval)%Exists_exists).
    assert (a = c) as -> by by apply (NoDup_reg_inj cfg1).
    rewrite (first_match_differs_unique c b) by done.
    by apply bool_decide_eq_true.
  - intros (b & Hb & Hreg & Hval)%first_match_differs_elem_of.
    exists c. split_and!; [done..|]. apply Exists_exists. by exists b.
Qed.

Lemma remove_dups_NoDup (l : list Z) : NoDup l → remove_dups l = l.
Proof.
  induction 1 as [|x l Hx _ IH]; [done|]. simpl.
  destruct (decide_rel elem_of x l); [done | by rewrite IH].
Qed.

Lemma count_matched_diffs_keys (Q : Z → Prop) `{!∀ k, Decision (Q k)}
    (rest cfg2 : list ddrc_cfg_param) :
  (∀ c, c ∈ rest → Q (reg c) ↔ first_match_differs c cfg2 = true) →
  count_matched_diffs rest cfg2
    = Z.of_nat (length (filter Q (reg <$> rest))).
Proof.
  induction rest as [|c rest IH]; intros HQ; [done|].
  rewrite fmap_cons, filter_cons. simpl.
  rewrite IH by (intros; apply HQ; by right).
  pose proof (HQ c ltac:(left)) as Hc.
  destruct (first_match_differs c cfg2).
  - rewrite decide_True by (by apply Hc). simpl. lia.
  - rewrite decide_False; [done|]. intros ?%Hc. done.
Qed.

(** With pairwise distinct registers on both sides the reordered count is
    the number of distinct registers whose values differ. *)
Lemma count_matched_diffs_differing_keys cfg1 cfg2 :
  NoDup (reg <$> cfg1) → NoDup (reg <$> cfg2) →
  count_matched_diffs cfg1 cfg2
    = Z.of_nat (length (differing_keys cfg1 cfg2)).
Proof.
  intros Hnd1 Hnd2. unfold differing_keys.
  rewrite remove_dups_NoDup by by apply NoDup_filter.
  apply (count_matched_diffs_keys (λ k, values_differ k cfg1 cfg2)).
  intros c Hc. by apply values_differ_first_match.
Qed.

Lemma first_match_differs_skip c d cfg2 :
  reg c ≠ reg d →
  first_match_differs c (d :: cfg2) = first_match_differs c cfg2.
Proof. intros Hne. simpl. by rewrite decide_False. Qed.

Lemma count_matched_diffs_skip rest d cfg2 :
  reg d ∉ reg <$> rest →
  count_matched_diffs rest (d :: cfg2) = count_matched_diffs rest cfg2.
Proof.
  induction rest as [|c rest IH]; intros Hd; [done|].
  rewrite fmap_cons, not_elem_of_cons in Hd. destruct Hd as [Hne Hd].
  cbn [count_matched_diffs].
  rewrite first_match_differs_skip by done. by rewrite IH.
Qed.

(** With pairwise distinct registers in identical order, the positional
    count and the count by first match coincide. *)
Lemma count_positional_matched cfg1 cfg2 :
  reg <$> cfg1 = reg <$> cfg2 → NoDup (reg <$> cfg1) →
  count_positional_diffs cfg1 cfg2 = count_matched_diffs cfg1 cfg2.
Proof.
  revert cfg2. induction cfg1 as [|c1 cfg1 IH]; intros [|c2 cfg2] Hkeys Hnd;
    [done..|].
  rewrite !fmap_cons in Hkeys, Hnd. injection Hkeys as Hreg Hkeys.
  apply NoDup_cons in Hnd as [Hc1 Hnd]. simpl.
  rewrite (decide_True _ _ Hreg).
  rewrite count_matched_diffs_skip by (by rewrite <- Hreg).
  rewrite IH by done.
  destruct (decide (val c1 = val c2)).
  - rewrite decide_False by (by intros []).
    by rewrite bool_decide_false by (by intros []).
  - rewrite decide_True by done. by rewrite bool_decide_true.
Qed.

Lemma all_found_elem_of cfg other :
  all_found cfg other ↔ ∀ k, k ∈ reg <$> cfg → k ∈ reg <$> other.
Proof.
  unfold all_found. rewrite Forall_forall. split.
  - intros Hall k (c & -> & Hc)%list_elem_of_fmap. by apply Hall.
  - intros Hall c Hc. by apply Hall, list_elem_of_fmap_2.
Qed.

Lemma all_found_same_keys cfg1 cfg2 :
  reg <$> cfg1 = reg <$> cfg2 → all_found cfg1 cfg2 ∧ all_found cfg2 cfg1.
Proof. intros Hkeys. rewrite !all_found_elem_of, Hkeys. done. Qed.

Lemma all_found_permutation cfg1 cfg2 :
  reg <$> cfg1 ≡ₚ reg <$> cfg2 → all_found cfg1 cfg2 ∧ all_found cfg2 cfg1.
Proof.
  intros Hperm. rewrite !all_found_elem_of.
  split; intros k; by rewrite Hperm.
Qed.

(** Pigeonhole: distinct left registers that all occur on the right, in a
    right list that is not longer, make the right registers distinct. *)
Lemma all_found_NoDup cfg1 cfg2 :
  length cfg1 = length cfg2 → NoDup (reg <$> cfg1) → all_found cfg1 cfg2 →
  reg <$> cfg1 ≡ₚ reg <$> cfg2.
Proof.
  intros Hlen Hnd Hall. apply submseteq_length_Permutation.
  - apply NoDup_submseteq; [done|]. by apply all_found_elem_of.
  - rewrite !length_fmap. lia.
Qed.

Lemma filter_none {A} (P : A → Prop) `{!∀ x, Decision (P x)} (l : list A) :
  (∀ x, x ∈ l → ¬ P x) → filter P l = [].
Proof.
  induction l as [|x l IH]; intros Hl; [done|].
  rewrite filter_cons_False by (apply Hl; left). apply IH.
  intros y Hy. apply Hl. by right.
Qed.

Lemma differing_keys_permutation cfg perm :
  NoDup (reg <$> cfg) → cfg ≡ₚ perm → differing_keys cfg perm = [].
Proof.
  intros Hnd Hperm. unfold differing_keys.
  rewrite filter_none; [done|].
  intros k _ (a & Ha & <- & (b & Hb & Hreg & Hval)%Exists_exists)%Exists_exists.
  rewrite <- Hperm in Hb.
  by rewrite (NoDup_reg_inj cfg b a) in Hval.
Qed.

Lemma compare_same_length_inv fuel brk cfg1 cfg2 diff_count_p o :
  compare_same_length fuel brk cfg1 cfg2 diff_count_p = Some o →
  (result o = 0%Z ∧ same_order cfg1 cfg2 = true ∧
   diff_count_out o
     = store_diff_count diff_count_p (count_positional_diffs cfg1 cfg2)) ∨
  (result o = (-1)%Z ∧ diff_count_out o = diff_count_p) ∨
  (result o = 1%Z ∧ same_order cfg1 cfg2 = false ∧
   all_found cfg1 cfg2 ∧ all_found cfg2 cfg1 ∧
   diff_count_out o
     = store_diff_count diff_count_p (count_matched_diffs cfg1 cfg2)).
Proof.
  intros Ho. destruct (same_order cfg1 cfg2) eqn:Hsame.
  - rewrite compare_same_length_identical in Ho by done.
    left. by simplify_eq/=.
  - destruct (decide (all_found cfg1 cfg2 ∧ all_found cfg2 cfg1))
      as [[H12 H21]|Hmiss].
    + rewrite compare_same_length_reordered in Ho by done.
      destruct (relocate_blocks fuel cfg1 cfg2 0 0 []) as [[[i1 i2] blocks]|];
        [|done].
      right; right. by simplify_eq/=.
    + destruct (compare_same_length_missing fuel brk cfg1 cfg2 diff_count_p
                  Hsame Hmiss) as [log Hlog].
      right; left. rewrite Hlog in Ho. by simplify_eq/=.
Qed.

Lemma compare_inv fuel heap brk cfg1 cfg2 diff_count_p o :
  compare_ddrc_cfg_arrays fuel heap brk cfg1 cfg2 diff_count_p = Some o →
  result o ≠ (-1)%Z →
  ∃ fuel', length cfg1 = length cfg2 ∧
           compare_same_length fuel' brk cfg1 cfg2 diff_count_p = Some o.
Proof.
  intros Ho Hres. destruct fuel as [|fuel]; [done|].
  destruct (decide (length cfg1 = length cfg2)) as [Hlen|Hlen].
  - rewrite compare_equal_length_unfold in Ho by done. by exists fuel.
  - destruct Hres.
    by apply (compare_length_mismatch_result (S fuel) heap brk cfg1 cfg2
                diff_count_p Hlen).
Qed.




(** ** Comparator: permutations of a list with distinct registers *)

(** What a call on a permutation returns when it returns.  Let the
    registers of [cfg] be pairwise distinct and [perm] hold the same
    registers in some order, with any values.  When the order is the same
    the call returns 0; when the order differs and the relocation pass
    comes to an end the call returns 1.  Either way the stored count is
    the number of registers whose values differ, which is 0 when [perm] is
    a permutation of the records themselves. *)
Lemma compare_permutation (fuel : nat) (heap : nat → bool) (brk : nat)
    (cfg perm : list ddrc_cfg_param) (diff_count_p : option Z) :
  NoDup (reg <$> cfg) → reg <$> cfg ≡ₚ reg <$> perm →
  (reg <$> cfg = reg <$> perm →
   ∃ o, compare_ddrc_cfg_arrays (S fuel) heap brk cfg perm diff_count_p
          = Some o ∧
        result o = 0%Z ∧
        diff_count_out o =
        store_diff_count diff_count_p
          (Z.of_nat (length (differing_keys cfg perm)))) ∧
  (reg <$> cfg ≠ reg <$> perm →
   is_Some (relocate_blocks fuel cfg perm 0 0 []) →
   ∃ o, compare_ddrc_cfg_arrays (S fuel) heap brk cfg perm diff_count_p
          = Some o ∧
        result o = 1%Z ∧
        diff_count_out o =
        store_diff_count diff_count_p
          (Z.of_nat (length (differing_keys cfg perm)))) ∧
  (cfg ≡ₚ perm → differing_keys cfg perm = []).
Proof.
  intros Hnd Hperm.
  assert (length cfg = length perm) as Hlen.
  { rewrite <- (length_fmap reg cfg), <- (length_fmap reg perm).
    by apply Permutation_length. }
  assert (NoDup (reg <$> perm)) as Hnd' by by rewrite <- Hperm.
  destruct (all_found_permutation cfg perm Hperm) as [H12 H21].
  rewrite compare_equal_length_unfold by done.
  split_and!.
  - intros Hkeys.
    rewrite compare_same_length_identical by by apply same_order_keys.
    eexists. split_and!; [done..|]. simpl.
    rewrite count_positional_matched by done.
    by rewrite count_matched_diffs_differing_keys.
  - intros Hkeys [[[i1 i2] blocks] Hpass].
    rewrite compare_same_length_reordered, Hpass; [|  |done..].
    + eexists. split_and!; [done..|]. simpl.
      by rewrite count_matched_diffs_differing_keys.
    + destruct (same_order cfg perm) eqn:Hsame; [|done].
      destruct Hkeys. by apply same_order_keys.
  - by apply differing_keys_permutation.
Qed.

Lemma compare_permutation_witness :
  ∃ o, compare_ddrc_cfg_arrays 4 (λ _, true) 0 sample_long sample_rotated
         (Some 0%Z) = Some o ∧
       result o = 1%Z ∧
       diff_count_out o =
       store_diff_count (Some 0%Z)
         (Z.of_nat (length (differing_keys sample_long sample_rotated))).
Proof.
  refine (proj1 (proj2 (compare_permutation 3 (λ _, true) 0 sample_long
                          sample_rotated (Some 0%Z) _ _)) _ _).
  - apply (bool_decide_unpack _). by vm_compute.
  - apply (bool_decide_unpack _). by vm_compute.
  - by vm_compute.
  - vm_compute. by eexists.
Defined.

(** A list compared with itself gives the identical-order outcome 0. *)
Lemma identity_permutation_not_reordered :
  NoDup (reg <$> sample_left) ∧ sample_left ≡ₚ sample_left ∧
  ∃ o, compare_ddrc_cfg_arrays 4 (λ _, true) 0 sample_left sample_left
         (Some 0%Z) = Some o ∧ result o ≠ 1%Z.
Proof.
  split_and!; [apply (bool_decide_unpack _); by vm_compute | done |].
  eexists. split; [vm_compute; reflexivity | done].
Qed.

(** No reordering of a list of at most 50 records with pairwise distinct
    registers is ever reported: the call does not return. *)
Lemma compare_short_reordering_never_returns fuel heap brk cfg perm
    diff_count_p :
  NoDup (reg <$> cfg) → reg <$> cfg ≡ₚ reg <$> perm →
  reg <$> cfg ≠ reg <$> perm → length cfg ≤ LOOKAHEAD →
  compare_ddrc_cfg_arrays fuel heap brk cfg perm diff_count_p = None.
Proof.
  intros Hnd Hperm Hkeys Hshort. destruct fuel as [|fuel]; [done|].
  assert (length cfg = length perm) as Hlen.
  { rewrite <- (length_fmap reg cfg), <- (length_fmap reg perm).
    by apply Permutation_length. }
  destruct (all_found_permutation cfg perm Hperm) as [H12 H21].
  apply (compare_equal_length_steps fuel heap brk cfg perm); [done..|].
  by apply relocate_blocks_short_reordering.
Qed.

(** C5: evaluation at the failing input.  The registers of [sample_left]
    are pairwise distinct and [sample_cycled] is a permutation of its
    records, other than the identity.  The claim promises the Reordered
    outcome with the count 0; the call never returns, whatever fuel, heap
    and counter it is given.  By [compare_short_reordering_never_returns]
    the same holds for every list of at most 50 records with pairwise
    distinct registers and every permutation that changes its order. *)
Theorem pure_permutation_never_returns :
  NoDup (reg <$> sample_left) ∧
  sample_left ≡ₚ sample_cycled ∧
  sample_left ≠ sample_cycled ∧
  ∀ fuel heap brk diff_count_p,
    compare_ddrc_cfg_arrays fuel heap brk sample_left sample_cycled
      diff_count_p = None.
Proof.
  assert (sample_left ≡ₚ sample_cycled) as Hperm.
  { apply (bool_decide_unpack _). by vm_compute. }
  split_and!; [apply (bool_decide_unpack _); by vm_compute | done | done |].
  intros fuel heap brk diff_count_p.
  apply compare_short_reordering_never_returns.
  - apply (bool_decide_unpack _). by vm_compute.
  - by rewrite Hperm.
  - by vm_compute.
  - vm_compute. lia.
Qed.

(** ** Duplicate scanner: the groups *)

Section duplicate_groups.
Context {param : Type} (reg_of val_of : param → Z).

Local Abbreviation positions := (positions reg_of).
Local Abbreviation indices_of := (indices_of reg_of).
Local Abbreviation values_of := (values_of reg_of val_of).

Lemma filter_ext_elem_of {A} (P Q : A → Prop) `{!∀ x, Decision (P x)}
    `{!∀ x, Decision (Q x)} (l : list A) :
  (∀ x, x ∈ l → P x ↔ Q x) → filter P l = filter Q l.
Proof.
  induction l as [|x l IH]; intros Hext; [done|].
  rewrite !filter_cons. rewrite IH by (intros; apply Hext; by right).
  pose proof (Hext x ltac:(left)). repeat case_decide; tauto || done.
Qed.

Lemma positions_filter k i rest :
  positions k i rest
    = filter (λ j, reg_of <$> rest !! (j - i) = Some k)
        (seq i (length rest)).
Proof.
  revert i. induction rest as [|c rest IH]; intros i; [done|].
  cbn [positions length seq]. rewrite filter_cons, Nat.sub_diag. simpl.
  rewrite IH.
  rewrite (filter_ext_elem_of
             (λ j, reg_of <$> (c :: rest) !! (j - i) = Some k)
             (λ j, reg_of <$> rest !! (j - S i) = Some k)).
  - destruct (decide (reg_of c = k)) as [->|Hne].
    + by rewrite decide_True.
    + by rewrite decide_False by congruence.
  - intros j [Hj _]%elem_of_seq.
    by replace (j - i) with (S (j - S i)) by lia.
Qed.

Lemma positions_indices_of k cfg : positions k 0 cfg = indices_of k cfg.
Proof.
  rewrite positions_filter. unfold indices_of.
  apply list_filter_iff. intros j. by rewrite Nat.sub_0_r.
Qed.

Lemma elem_of_positions k i rest m :
  m ∈ positions k i rest ↔
  i ≤ m ∧ ∃ c, rest !! (m - i) = Some c ∧ reg_of c = k.
Proof.
  rewrite positions_filter, list_elem_of_filter, elem_of_seq. split.
  - intros [Hk [Hm _]]. split; [done|].
    destruct (rest !! (m - i)) as [c|]; simplify_eq/=. by exists c.
  - intros [Hm (c & Hc & <-)]. rewrite Hc. split; [done|].
    apply lookup_lt_Some in Hc. lia.
Qed.

Lemma positions_disjoint k r i rest m :
  r ≠ k → m ∈ positions r i rest → m ∉ positions k i rest.
Proof.
  rewrite !elem_of_positions. intros Hne [_ (c & Hc & <-)] [_ (c' & Hc' & <-)].
  congruence.
Qed.

Lemma occurrences_cons k c rest :
  occurrences reg_of k (c :: rest)
    = (if decide (reg_of c = k) then 1 else 0) + occurrences reg_of k rest.
Proof. unfold occurrences. rewrite filter_cons. by case_decide. Qed.

(** *** The inner loop *)

Lemma collect_occurrences_dup_reg r j rest d processed :
  dup_reg (collect_occurrences reg_of val_of r j rest d processed).1
    = dup_reg d.
Proof.
  revert j d processed. induction rest as [|c rest IH]; intros; [done|].
  simpl. case_decide; by rewrite IH.
Qed.

Lemma collect_occurrences_indices r j rest d processed :
  ∃ more,
    indices (collect_occurrences reg_of val_of r j rest d processed).1
      = indices d ++ more.
Proof.
  revert j d processed. induction rest as [|c rest IH]; intros; simpl.
  - exists []. by rewrite app_nil_r.
  - case_decide; [|done].
    destruct (IH (S j)
                {| dup_reg := dup_reg d; indices := indices d ++ [j];
                   values := values d ++ [val_of c]; count := S (count d) |}
                (<[j:=true]> processed)) as [more ->].
    simpl. exists (j :: more). by rewrite <- app_assoc.
Qed.

Lemma collect_occurrences_count r j rest d processed :
  count (collect_occurrences reg_of val_of r j rest d processed).1
    ≤ count d + occurrences reg_of r rest.
Proof.
  revert j d processed. induction rest as [|c rest IH]; intros; simpl.
  - lia.
  - rewrite occurrences_cons.
    destruct (decide (r = reg_of c ∧ count d < MAX_OCCURRENCES))
      as [[-> _]|Hc].
    + rewrite decide_True by done. etrans; [apply IH|]. simpl. lia.
    + etrans; [apply IH|]. lia.
Qed.

(** A processed flag stays set. *)
Lemma collect_occurrences_keeps r j rest d processed m :
  processed !! m = Some true →
  (collect_occurrences reg_of val_of r j rest d processed).2 !! m
    = Some true.
Proof.
  revert j d processed. induction rest as [|c rest IH]; intros j d p Hm;
    [done|].
  simpl. case_decide; apply IH; [|done].
  destruct (decide (j = m)) as [->|Hne].
  - apply list_lookup_insert_eq. by apply lookup_lt_Some in Hm.
  - by rewrite list_lookup_insert_ne.
Qed.

(** Only flags at positions of [r] change. *)
Lemma collect_occurrences_elsewhere r j rest d processed m :
  m ∉ positions r j rest →
  (collect_occurrences reg_of val_of r j rest d processed).2 !! m
    = processed !! m.
Proof.
  revert j d processed. induction rest as [|c rest IH]; intros j d p Hm;
    [done|].
  simpl in *.
  destruct (decide (r = reg_of c ∧ count d < MAX_OCCURRENCES))
    as [[-> _]|Hc].
  - rewrite decide_True in Hm by done.
    apply not_elem_of_cons in Hm as [Hne Hm].
    rewrite IH by done. by rewrite list_lookup_insert_ne.
  - apply IH. destruct (decide (reg_of c = r)); [|done].
    by apply not_elem_of_cons in Hm as [_ ?].
Qed.

(** Within the capacity, the loop records every occurrence and marks it. *)
Lemma collect_occurrences_all r j rest d processed :
  count d + occurrences reg_of r rest ≤ MAX_OCCURRENCES →
  (∀ m, m ∈ positions r j rest → m < length processed) →
  (collect_occurrences reg_of val_of r j rest d processed).1
    = {| dup_reg := dup_reg d;
         indices := indices d ++ positions r j rest;
         values := values d ++ values_of r rest;
         count := count d + occurrences reg_of r rest |} ∧
  ∀ m, m ∈ positions r j rest →
       (collect_occurrences reg_of val_of r j rest d processed).2 !! m
         = Some true.
Proof.
  revert j d processed. induction rest as [|c rest IH];
    intros j d p Hcap Hrange.
  - simpl. split; [|by intros m ?%elem_of_nil].
    unfold values_of, occurrences. simpl.
    rewrite !app_nil_r, Nat.add_0_r. by destruct d.
  - rewrite occurrences_cons in Hcap |- *. unfold values_of in *.
    rewrite filter_cons. simpl in *.
    destruct (decide (reg_of c = r)) as [Hreg|Hreg].
    + rewrite decide_True by (split; [done | lia]).
      destruct (IH (S j)
                  {| dup_reg := dup_reg d; indices := indices d ++ [j];
                     values := values d ++ [val_of c];
                     count := S (count d) |}
                  (<[j:=true]> p)) as [-> Hmarked].
      { simpl. lia. }
      { intros m Hm. rewrite length_insert. apply Hrange. by right. }
      simpl. split.
      * rewrite <- !app_assoc. simpl. f_equal. lia.
      * intros m [->|Hm]%elem_of_cons; [|by apply Hmarked].
        apply collect_occurrences_keeps, list_lookup_insert_eq, Hrange.
        by left.
    + rewrite decide_False by (intros [? _]; done).
      destruct (IH (S j) d p) as [-> Hmarked]; [lia | done |].
      done.
Qed.

(** *** The outer loop *)

Lemma scan_duplicates_cons i c rest processed dups max_dups :
  scan_duplicates reg_of val_of i (c :: rest) processed dups max_dups =
  if decide (Z.of_nat (length dups) < max_dups)%Z then
    match processed !! i with
    | Some true =>
        scan_duplicates reg_of val_of (S i) rest processed dups max_dups
    | _ =>
        let start :=
          collect_occurrences reg_of val_of (reg_of c) (S i) rest
            {| dup_reg := reg_of c; indices := [i];
               values := [val_of c]; count := 1 |}
            processed in
        if decide (1 < count start.1) then
          scan_duplicates reg_of val_of (S i) rest start.2
            (dups ++ [start.1]) max_dups
        else
          scan_duplicates reg_of val_of (S i) rest start.2 dups max_dups
    end
  else dups.
Proof.
  simpl. case_decide; [|done].
  destruct (processed !! i) as [[]|]; [done| |];
    by destruct (collect_occurrences _ _ _ _ _ _ _).
Qed.

(** Once the occurrences of [k] ahead are all marked, no further group of
    [k] appears. *)
Lemma scan_duplicates_done k i rest processed dups max_dups :
  (∀ m, m ∈ positions k i rest → processed !! m = Some true) →
  filter (λ d, dup_reg d = k)
    (scan_duplicates reg_of val_of i rest processed dups max_dups)
    = filter (λ d, dup_reg d = k) dups.
Proof.
  revert i processed dups. induction rest as [|c rest IH];
    intros i p dups Hmarked; [done|].
  rewrite scan_duplicates_cons. cbn [positions] in Hmarked.
  destruct (decide (Z.of_nat (length dups) < max_dups)%Z); [|done].
  assert (p !! i ≠ Some true →
          reg_of c ≠ k ∧
          ∀ m, m ∈ positions k (S i) rest → p !! m = Some true)
    as Hother.
  { intros Hi. destruct (decide (reg_of c = k)) as [Hreg|Hreg]; [|done].
    destruct Hi. apply Hmarked. by left. }
  assert (∀ m, m ∈ positions k (S i) rest → p !! m = Some true) as Hrest.
  { intros m Hm. apply Hmarked. case_decide; [by right | done]. }
  pose proof (collect_occurrences_dup_reg (reg_of c) (S i) rest
                {| dup_reg := reg_of c; indices := [i];
                   values := [val_of c]; count := 1 |} p) as Hreg.
  pose proof (λ m, collect_occurrences_keeps (reg_of c) (S i) rest
                {| dup_reg := reg_of c; indices := [i];
                   values := [val_of c]; count := 1 |} p m) as Hkeep.
  clear Hmarked.
  destruct (p !! i) as [[]|] eqn:Hi; [by apply IH| |];
    destruct Hother as [Hne _]; [done| |done|]; cbv zeta;
    (case_decide; rewrite IH by auto; [|done]);
    rewrite filter_app, filter_cons_False by (simpl in Hreg; congruence);
    by rewrite app_nil_r.
Qed.
(** The first unmarked occurrence of [k] starts the group of [k], which
    takes every occurrence when they fit and the group limit is not hit. *)
Lemma scan_duplicates_group k i rest processed dups max_dups :
  (∀ m, m ∈ positions k i rest → processed !! m = Some false) →
  1 < occurrences reg_of k rest ≤ MAX_OCCURRENCES →
  (Z.of_nat (length (scan_duplicates reg_of val_of i rest processed dups
                       max_dups)) < max_dups)%Z →
  filter (λ d, dup_reg d = k)
    (scan_duplicates reg_of val_of i rest processed dups max_dups)
    = filter (λ d, dup_reg d = k) dups ++
      [{| dup_reg := k; indices := positions k i rest;
          values := values_of k rest;
          count := occurrences reg_of k rest |}].
Proof.
  revert i processed dups. induction rest as [|c rest IH];
    intros i p dups Hclear Hocc Hlimit.
  { unfold occurrences in Hocc. simpl in Hocc. lia. }
  rewrite scan_duplicates_cons in Hlimit |- *.
  destruct (decide (Z.of_nat (length dups) < max_dups)%Z); [|lia].
  rewrite occurrences_cons in Hocc |- *. unfold values_of in *.
  rewrite filter_cons. cbn [positions] in Hclear |- *.
  destruct (decide (reg_of c = k)) as [Hreg|Hreg].
  - rewrite (Hclear i) by by left. cbv zeta.
    destruct (collect_occurrences_all (reg_of c) (S i) rest
                {| dup_reg := reg_of c; indices := [i];
                   values := [val_of c]; count := 1 |} p)
      as [Hgroup Hmarked].
    { simpl. rewrite Hreg. lia. }
    { intros m Hm. rewrite Hreg in Hm.
      apply (lookup_lt_Some _ _ false), Hclear. by right. }
    rewrite Hgroup. simpl count. rewrite Hreg in Hmarked |- *.
    rewrite decide_True by lia.
    rewrite scan_duplicates_done by done.
    rewrite filter_app, filter_cons_True by done. rewrite filter_nil.
    done.
  - assert (∀ m, m ∈ positions k (S i) rest →
                 (collect_occurrences reg_of val_of (reg_of c) (S i) rest
                    {| dup_reg := reg_of c; indices := [i];
                       values := [val_of c]; count := 1 |} p).2 !! m
                 = Some false) as Hstill.
    { intros m Hm. rewrite collect_occurrences_elsewhere by
        (intros Hm'; by apply (positions_disjoint k (reg_of c)) in Hm').
      by apply Hclear. }
    pose proof (collect_occurrences_dup_reg (reg_of c) (S i) rest
                  {| dup_reg := reg_of c; indices := [i];
                     values := [val_of c]; count := 1 |} p) as Hdup.
    simpl in Hdup. rewrite Nat.add_0_l in Hocc |- *.
    destruct (p !! i) as [[]|]; [by apply IH| |]; cbv zeta in Hlimit |- *;
      (destruct (decide (1 < count _)); rewrite IH by done; [|done]);
      rewrite filter_app, filter_cons_False by congruence;
      by rewrite filter_nil, app_nil_r.
Qed.

(** *** Order of the groups *)

Lemma starts_below_mono i j dups :
  i ≤ j → starts_below i dups → starts_below j dups.
Proof.
  intros Hij Hbelow. eapply Forall_impl; [done|].
  intros d (h & ? & ?). exists h. split; [done | lia].
Qed.

Lemma scan_duplicates_sorted i rest processed dups max_dups :
  StronglySorted group_before dups → starts_below i dups →
  StronglySorted group_before
    (scan_duplicates reg_of val_of i rest processed dups max_dups).
Proof.
  revert i processed dups. induction rest as [|c rest IH];
    intros i p dups Hsorted Hbelow; [done|].
  rewrite scan_duplicates_cons.
  destruct (decide (Z.of_nat (length dups) < max_dups)%Z); [|done].
  pose proof (starts_below_mono i (S i) dups ltac:(lia) Hbelow) as Hbelow'.
  destruct (collect_occurrences_indices (reg_of c) (S i) rest
              {| dup_reg := reg_of c; indices := [i];
                 values := [val_of c]; count := 1 |} p) as [more Hmore].
  simpl in Hmore.
  destruct (p !! i) as [[]|]; [by apply IH| |]; cbv zeta;
    (destruct (decide (1 < count _)); [|by apply IH]);
    (apply IH;
     [ apply StronglySorted_app; split_and!;
       [ intros d e Hd ->%list_elem_of_singleton;
         apply (proj1 (Forall_forall _ _) Hbelow) in Hd as (h & Hh & Hlt);
         exists h, i; by rewrite Hmore
       | done
       | by repeat constructor ]
     | apply Forall_app; split; [done|];
       apply Forall_singleton; exists i; rewrite Hmore; split; [done | lia] ]).
Qed.

(** *** Every group belongs to a repeated register *)

Lemma scan_duplicates_repeated i rest processed dups max_dups d :
  d ∈ scan_duplicates reg_of val_of i rest processed dups max_dups →
  d ∈ dups ∨ 2 ≤ occurrences reg_of (dup_reg d) rest.
Proof.
  revert i processed dups. induction rest as [|c rest IH];
    intros i p dups Hd; [by left|].
  rewrite scan_duplicates_cons in Hd.
  destruct (decide (Z.of_nat (length dups) < max_dups)%Z); [|by left].
  assert (∀ e, 2 ≤ occurrences reg_of e rest →
               2 ≤ occurrences reg_of e (c :: rest)) as Hweak.
  { intros e. rewrite occurrences_cons. lia. }
  pose proof (collect_occurrences_dup_reg (reg_of c) (S i) rest
                {| dup_reg := reg_of c; indices := [i];
                   values := [val_of c]; count := 1 |} p) as Hdup.
  pose proof (collect_occurrences_count (reg_of c) (S i) rest
                {| dup_reg := reg_of c; indices := [i];
                   values := [val_of c]; count := 1 |} p) as Hcount.
  simpl in Hdup, Hcount.
  destruct (p !! i) as [[]|];
    [apply IH in Hd as [?|?]; by auto | |]; cbv zeta in Hd;
    (destruct (decide (1 < count _)) as [Hmany|];
     [|apply IH in Hd as [?|?]; by auto]);
    (apply IH in Hd as [[?| ->%list_elem_of_singleton]%elem_of_app|?];
     [by left | | by auto]);
    right; rewrite Hdup, occurrences_cons, decide_True by done; lia.
Qed.
End duplicate_groups.




(** * Further properties *)

(** ** Key-set differencer: the extracted sublists *)

Lemma extract_found_sublist cfg other : extract_found cfg other `sublist_of` cfg.
Proof.
  induction cfg as [|c cfg IH]; [done|]. simpl.
  destruct (reg_found (reg c) other); by constructor.
Qed.

Lemma elem_of_extract_found cfg other c :
  c ∈ extract_found cfg other ↔ c ∈ cfg ∧ reg c ∈ reg <$> other.
Proof.
  rewrite extract_found_filter, list_elem_of_filter. tauto.
Qed.


(** ** Comparator: the outcome of any call *)

Lemma compare_same_length_cases fuel brk cfg1 cfg2 diff_count_p o :
  compare_same_length fuel brk cfg1 cfg2 diff_count_p = Some o →
  (same_order cfg1 cfg2 = true ∧ result o = 0%Z) ∨
  (same_order cfg1 cfg2 = false ∧
   ¬ (all_found cfg1 cfg2 ∧ all_found cfg2 cfg1) ∧ result o = (-1)%Z) ∨
  (same_order cfg1 cfg2 = false ∧ all_found cfg1 cfg2 ∧ all_found cfg2 cfg1 ∧
   result o = 1%Z).
Proof.
  intros Ho. destruct (same_order cfg1 cfg2) eqn:Hsame.
  - rewrite compare_same_length_identical in Ho by done. left. by simplify_eq/=.
  - destruct (decide (all_found cfg1 cfg2 ∧ all_found cfg2 cfg1))
      as [[H12 H21]|Hmiss].
    + rewrite compare_same_length_reordered in Ho by done.
      destruct (relocate_blocks fuel cfg1 cfg2 0 0 []) as [[[i1 i2] blocks]|];
        [|done].
      right; right. by simplify_eq/=.
    + destruct (compare_same_length_missing fuel brk cfg1 cfg2 diff_count_p
                  Hsame Hmiss) as [log Hlog].
      right; left. rewrite Hlog in Ho. by simplify_eq/=.
Qed.

Lemma extract_found_all_found cfg1 cfg2 :
  all_found (extract_found cfg1 cfg2) (extract_found cfg2 cfg1).
Proof.
  apply Forall_forall. intros c [Hc (d & Hreg & Hd)%list_elem_of_fmap]%elem_of_extract_found.
  rewrite Hreg. apply list_elem_of_fmap_2, elem_of_extract_found.
  split; [done|]. rewrite <- Hreg. by apply list_elem_of_fmap_2.
Qed.

(** X2: the nested comparison of the common records.  When
    [count_common_ddrc] reports equal counts, a call of the comparator on
    the two extracted lists that returns gives 0 or 1, never -1, and makes
    no allocation request. *)
Theorem common_comparison_outcome (fuel : nat) (heap : nat → bool) (brk : nat)
    (cfg1 cfg2 : list ddrc_cfg_param) (diff_count_p : option Z) (o : outcome) :
  (count_common_ddrc cfg1 cfg2).1.1 = 0%Z →
  compare_ddrc_cfg_arrays fuel heap brk
    (extract_common_ddrc cfg1 cfg2).1 (extract_common_ddrc cfg1 cfg2).2
    diff_count_p = Some o →
  (result o = 0%Z ∨ result o = 1%Z) ∧ brk_out o = brk.
Proof.
  unfold count_common_ddrc, extract_common_ddrc. simpl. intros Hcount Ho.
  assert (length (extract_found cfg1 cfg2) = length (extract_found cfg2 cfg1))
    as Hlen.
  { rewrite <- !count_found_extract. by case_decide. }
  destruct fuel as [|fuel]; [done|].
  rewrite compare_equal_length_unfold in Ho by done.
  split.
  - destruct (compare_same_length_cases _ _ _ _ _ _ Ho)
      as [[_ ?]|[(_ & Hmiss & _)|(_ & _ & _ & ?)]]; [by left| |by right].
    destruct Hmiss. split; apply extract_found_all_found.
  - unfold compare_same_length in Ho. repeat case_match; by simplify_eq/=.
Qed.

Lemma common_comparison_outcome_witness :
  ∃ o,
    compare_ddrc_cfg_arrays 2 (λ _, true) 2
      (extract_common_ddrc sample_left sample_subset).1
      (extract_common_ddrc sample_left sample_subset).2 (Some 0%Z) = Some o ∧
    (result o = 0%Z ∨ result o = 1%Z) ∧ brk_out o = 2.
Proof.
  eexists. split; [vm_compute; reflexivity|].
  apply (common_comparison_outcome 2 (λ _, true) 2 sample_left sample_subset
           (Some 0%Z) _);
    vm_compute; reflexivity.
Defined.

Lemma check_left_in_right_cleared rest cfg2 :
  check_left_in_right rest cfg2 false = (false, []).
Proof.
  induction rest as [|c rest IH]; [done|]. simpl.
  destruct (reg_found (reg c) cfg2); [done|]. by rewrite IH.
Qed.

Lemma check_left_in_right_set rest cfg2 :
  check_left_in_right rest cfg2 true =
  if decide (all_found rest cfg2) then (true, [])
  else (false, [E_different_register_sets; I_left_not_in_right]).
Proof.
  induction rest as [|c rest IH]; cbn [check_left_in_right].
  - by rewrite decide_True by constructor.
  - destruct (reg_found (reg c) cfg2) eqn:Hfound.
    + rewrite IH. apply reg_found_elem_of in Hfound.
      destruct (decide (all_found rest cfg2)).
      * by rewrite decide_True by by constructor.
      * rewrite decide_False; [done|]. by intros [_ ?]%Forall_cons.
    + rewrite check_left_in_right_cleared. cbn [app].
      rewrite decide_False; [done|]. intros [Hc _]%Forall_cons.
      apply reg_found_elem_of in Hc. congruence.
Qed.

Lemma check_right_in_left_cleared i rest cfg1 :
  check_right_in_left i rest cfg1 false =
  (false, if decide (i = 0 ∧ first_missing rest cfg1)
          then [I_right_not_in_left] else []).
Proof.
  revert i. induction rest as [|c rest IH]; intros i;
    cbn [check_right_in_left].
  - by rewrite decide_False by (by intros [_ []]).
  - unfold first_missing. cbn [head from_option].
    destruct (reg_found (reg c) cfg1) eqn:Hfound.
    + rewrite IH. apply reg_found_elem_of in Hfound.
      rewrite decide_False by lia. by rewrite decide_False by (by intros [_ ?]).
    + rewrite IH. rewrite (decide_False (P := S i = 0 ∧ _)) by lia.
      assert (reg c ∉ reg <$> cfg1) as Hc.
      { rewrite <- reg_found_elem_of. congruence. }
      destruct (decide (i = 0)) as [->|Hi].
      * by rewrite decide_True.
      * rewrite bool_decide_false by done.
        by rewrite decide_False by (by intros [? _]).
Qed.

Lemma check_right_in_left_set i rest cfg1 :
  check_right_in_left i rest cfg1 true =
  if decide (all_found rest cfg1) then (true, [])
  else (false,
        E_different_register_sets ::
        if decide (i = 0 ∧ first_missing rest cfg1)
        then [I_right_not_in_left] else []).
Proof.
  revert i. induction rest as [|c rest IH]; intros i;
    cbn [check_right_in_left].
  - by rewrite decide_True by constructor.
  - unfold first_missing. cbn [head from_option].
    destruct (reg_found (reg c) cfg1) eqn:Hfound.
    + rewrite IH. apply reg_found_elem_of in Hfound.
      destruct (decide (all_found rest cfg1)).
      * by rewrite decide_True by by constructor.
      * rewrite (decide_False (P := all_found (c :: rest) cfg1))
          by (by intros [_ ?]%Forall_cons).
        rewrite decide_False by lia.
        by rewrite decide_False by (by intros [_ ?]).
    + assert (reg c ∉ reg <$> cfg1) as Hc.
      { rewrite <- reg_found_elem_of. congruence. }
      rewrite check_right_in_left_cleared.
      rewrite (decide_False (P := S i = 0 ∧ _)) by lia.
      rewrite (decide_False (P := all_found (c :: rest) cfg1))
        by (by intros [? _]%Forall_cons).
      simpl. destruct (decide (i = 0)) as [->|Hi].
      * by rewrite decide_True.
      * rewrite bool_decide_false by done.
        by rewrite decide_False by (by intros [? _]).
Qed.

(** X3: lists of equal length with different register sets.  For any
    positive fuel the call returns -1 and leaves the caller's difference
    count and the heap untouched.  It reports the error once, then the
    heading of the left-only registers when some left register is missing
    on the right, and the heading of the right-only registers only when
    the right record at index 0 is missing on the left. *)
Theorem same_length_mismatch_report (fuel : nat) (heap : nat → bool)
    (brk : nat) (cfg1 cfg2 : list ddrc_cfg_param) (diff_count_p : option Z) :
  length cfg1 = length cfg2 →
  ¬ (all_found cfg1 cfg2 ∧ all_found cfg2 cfg1) →
  compare_ddrc_cfg_arrays (S fuel) heap brk cfg1 cfg2 diff_count_p =
  Some {| result := -1; diff_count_out := diff_count_p; brk_out := brk;
          diagnostics :=
            E_different_register_sets ::
            (if decide (all_found cfg1 cfg2) then []
             else [I_left_not_in_right]) ++
            (if decide (first_missing cfg2 cfg1) then [I_right_not_in_left]
             else []);
          relocated := [] |}.
Proof.
  intros Hlen Hmiss. rewrite compare_equal_length_unfold by done.
  assert (same_order cfg1 cfg2 = false) as Hsame.
  { destruct (same_order cfg1 cfg2) eqn:Hsame; [|done]. destruct Hmiss.
    apply all_found_same_keys. by apply same_order_keys. }
  unfold compare_same_length. rewrite Hsame, check_left_in_right_set.
  destruct (decide (all_found cfg1 cfg2)) as [H12|H12].
  - rewrite check_right_in_left_set.
    rewrite decide_False by tauto. simpl.
    by destruct (decide (first_missing cfg2 cfg1));
      [rewrite decide_True by done | rewrite decide_False by tauto].
  - rewrite check_right_in_left_cleared. simpl.
    by destruct (decide (first_missing cfg2 cfg1));
      [rewrite decide_True by done | rewrite decide_False by tauto].
Qed.

Lemma same_length_mismatch_report_witness :
  compare_ddrc_cfg_arrays 1 (λ _, true) 0 sample_once sample_other (Some 0%Z) =
  Some {| result := -1; diff_count_out := Some 0%Z; brk_out := 0;
          diagnostics :=
            [E_different_register_sets; I_left_not_in_right;
             I_right_not_in_left];
          relocated := [] |}.
Proof.
  apply (same_length_mismatch_report 0 (λ _, true) 0 sample_once sample_other
           (Some 0%Z)).
  - reflexivity.
  - apply (bool_decide_unpack _). by vm_compute.
Defined.

Lemma same_order_sym cfg1 cfg2 : same_order cfg1 cfg2 = same_order cfg2 cfg1.
Proof.
  revert cfg2. induction cfg1 as [|c1 cfg1 IH]; intros [|c2 cfg2]; [done..|].
  simpl. rewrite IH.
  destruct (decide (reg c1 = reg c2)) as [Heq|Hne].
  - by rewrite !decide_False by (by intros []).
  - by rewrite !decide_True by done.
Qed.

Lemma count_positional_diffs_sym cfg1 cfg2 :
  count_positional_diffs cfg1 cfg2 = count_positional_diffs cfg2 cfg1.
Proof.
  revert cfg2. induction cfg1 as [|c1 cfg1 IH]; intros [|c2 cfg2]; [done..|].
  simpl. rewrite IH.
  destruct (decide (val c1 = val c2)) as [Heq|Hne].
  - by rewrite !decide_False by (by intros []).
  - by rewrite !decide_True by done.
Qed.

Lemma compare_same_length_brk fuel brk cfg1 cfg2 diff_count_p o :
  compare_same_length fuel brk cfg1 cfg2 diff_count_p = Some o →
  brk_out o = brk.
Proof.
  unfold compare_same_length. intros Ho. repeat case_match; by simplify_eq/=.
Qed.

Ltac solve_message_absent :=
  let Hin := fresh "Hin" in
  intros Hin;
  repeat match goal with
    | H : _ ∈ _ ++ _ |- _ => apply elem_of_app in H as [H|H]
    | H : _ ∈ _ :: _ |- _ => apply elem_of_cons in H as [H|H]
    | H : _ ∈ [] |- _ => by apply elem_of_nil in H
    end;
  done || tauto.

Lemma compare_same_length_expected fuel brk cfg1 cfg2 diff_count_p o r :
  compare_same_length fuel brk cfg1 cfg2 diff_count_p = Some o →
  E_unexpected_result r ∉ diagnostics o.
Proof.
  unfold compare_same_length.
  rewrite check_left_in_right_set.
  destruct (same_order cfg1 cfg2).
  { intros [= <-]. simpl. case_decide; solve_message_absent. }
  destruct (decide (all_found cfg1 cfg2)).
  - rewrite check_right_in_left_set.
    destruct (decide (all_found cfg2 cfg1)); simpl.
    + destruct (relocate_blocks fuel cfg1 cfg2 0 0 []) as [[[??]?]|]; [|done].
      intros [= <-]. simpl. case_decide; solve_message_absent.
    + intros [= <-]. simpl. case_decide; solve_message_absent.
  - rewrite check_right_in_left_cleared. simpl.
    intros [= <-]. simpl. case_decide; solve_message_absent.
Qed.

Lemma same_keys_all_found cfg1 cfg2 :
  reg <$> cfg1 = reg <$> cfg2 → all_found cfg1 cfg2 ∧ all_found cfg2 cfg1.
Proof.
  intros Hkeys. split; apply Forall_forall; intros c Hc.
  - rewrite <- Hkeys. by apply list_elem_of_fmap_2.
  - rewrite Hkeys. by apply list_elem_of_fmap_2.
Qed.

(** The three outcomes of a call that returns. *)
Lemma compare_result_cases fuel heap brk cfg1 cfg2 diff_count_p o :
  compare_ddrc_cfg_arrays fuel heap brk cfg1 cfg2 diff_count_p = Some o →
  (result o = 0%Z ∧ reg <$> cfg1 = reg <$> cfg2) ∨
  (result o = 1%Z ∧ length cfg1 = length cfg2 ∧
   reg <$> cfg1 ≠ reg <$> cfg2 ∧ all_found cfg1 cfg2 ∧ all_found cfg2 cfg1) ∨
  (result o = (-1)%Z ∧
   (length cfg1 ≠ length cfg2 ∨
    ¬ (all_found cfg1 cfg2 ∧ all_found cfg2 cfg1))).
Proof.
  intros Ho. destruct fuel as [|fuel]; [done|].
  destruct (decide (length cfg1 = length cfg2)) as [Hlen|Hlen].
  - rewrite compare_equal_length_unfold in Ho by done.
    pose proof (same_order_keys cfg1 cfg2 Hlen) as Hkeys.
    destruct (compare_same_length_cases _ _ _ _ _ _ Ho)
      as [[Hsame ?]|[(Hsame & ? & ?)|(Hsame & ? & ? & ?)]].
    + left. split; [done|]. by apply Hkeys.
    + right; right. auto.
    + right; left. split_and!; try done.
      intros ?%Hkeys. congruence.
  - right; right. split; [|by left].
    by apply (compare_length_mismatch_result (S fuel) heap brk cfg1 cfg2
                diff_count_p Hlen).
Qed.

(** X4: what the return value means, for any call that returns.  It is 0
    exactly when both lists hold the same registers in the same order; 1
    exactly when the lengths are equal, the order differs and every
    register of either list occurs in the other; -1 exactly when the
    lengths differ or some register of one list is missing in the
    other. *)
Theorem compare_result_meaning (fuel : nat) (heap : nat → bool) (brk : nat)
    (cfg1 cfg2 : list ddrc_cfg_param) (diff_count_p : option Z) (o : outcome) :
  compare_ddrc_cfg_arrays fuel heap brk cfg1 cfg2 diff_count_p = Some o →
  (result o = 0%Z ↔ reg <$> cfg1 = reg <$> cfg2) ∧
  (result o = 1%Z ↔
   length cfg1 = length cfg2 ∧ reg <$> cfg1 ≠ reg <$> cfg2 ∧
   all_found cfg1 cfg2 ∧ all_found cfg2 cfg1) ∧
  (result o = (-1)%Z ↔
   length cfg1 ≠ length cfg2 ∨
   ¬ (all_found cfg1 cfg2 ∧ all_found cfg2 cfg1)).
Proof.
  intros Ho.
  assert (reg <$> cfg1 = reg <$> cfg2 → length cfg1 = length cfg2) as Hlen.
  { intros Hkeys. by rewrite <- (length_fmap reg cfg1), Hkeys, length_fmap. }
  pose proof (same_keys_all_found cfg1 cfg2) as Hfound.
  destruct (compare_result_cases _ _ _ _ _ _ _ Ho)
    as [[-> Hkeys]|[(-> & ? & ? & ? & ?)|[-> Hmiss]]].
  - split_and!; split; try done.
    + by intros (_ & ? & _).
    + intros [?|?]; [by destruct (Hlen Hkeys) | tauto].
  - split_and!; split; try done. intros [?|?]; tauto.
  - split_and!; split; try done.
    + intros Hkeys. destruct Hmiss; [by destruct (Hlen Hkeys) | tauto].
    + intros (? & _ & ? & ?). destruct Hmiss; tauto.
Qed.

Lemma compare_result_meaning_witness :
  ∃ o,
    compare_ddrc_cfg_arrays 1 (λ _, true) 0 sample_twice sample_twice_changed
      (Some 0%Z) = Some o ∧
    (result o = 0%Z ↔ reg <$> sample_twice = reg <$> sample_twice_changed).
Proof.
  eexists. split; [vm_compute; reflexivity|].
  refine (proj1 (compare_result_meaning 1 (λ _, true) 0 sample_twice
                   sample_twice_changed (Some 0%Z) _ _)).
  vm_compute; reflexivity.
Defined.

Lemma compare_diagnostics_expected fuel heap brk cfg1 cfg2 diff_count_p o r :
  compare_ddrc_cfg_arrays fuel heap brk cfg1 cfg2 diff_count_p = Some o →
  E_unexpected_result r ∉ diagnostics o.
Proof.
  intros Ho. destruct fuel as [|fuel]; [done|].
  destruct (decide (length cfg1 = length cfg2)) as [Hlen|Hlen].
  - rewrite compare_equal_length_unfold in Ho by done.
    by eapply compare_same_length_expected.
  - rewrite compare_length_mismatch_unfold in Ho by done.
    cbv zeta in Ho. unfold find_and_display_unique_ddrc in Ho.
    destruct (unique_counts_ddrc cfg1 cfg2) as [left_count right_count].
    destruct (decide (count_found cfg1 cfg2 = count_found cfg2 cfg1))
      as [Hcount|]; [|simplify_eq/=; case_decide; solve_message_absent].
    destruct (decide (0 < count_found cfg1 cfg2));
      [|simplify_eq/=; case_decide; solve_message_absent].
    destruct (heap brk && heap (S brk));
      [|simplify_eq/=; case_decide; solve_message_absent].
    destruct (compare_ddrc_cfg_arrays fuel heap (S (S brk)) _ _ _)
      as [common|] eqn:Hcommon; [|done].
    assert (length (extract_found cfg1 cfg2)
              = length (extract_found cfg2 cfg1)) as Hlen'.
    { by rewrite <- !count_found_extract. }
    destruct fuel as [|fuel]; [done|].
    rewrite compare_equal_length_unfold in Hcommon by done.
    pose proof (compare_same_length_expected _ _ _ _ _ _ r Hcommon) as Hdiag.
    assert (E_unexpected_result r ∉
              print_comparison_summary (result common)
                (default 0%Z (diff_count_out common))) as Hsummary.
    { unfold print_comparison_summary.
      destruct (compare_same_length_cases _ _ _ _ _ _ Hcommon)
        as [[_ ->]|[(_ & _ & ->)|(_ & _ & _ & ->)]]; simpl;
        repeat case_decide; solve_message_absent. }
    simplify_eq/=. case_decide; solve_message_absent.
Qed.

(** X5: [print_comparison_summary] never prints the error "Unexpected
    comparison result" for a result of [compare_ddrc_cfg_arrays]: a call
    of this comparator that returns does not have the error among its
    diagnostics, which include the summary of its nested comparison, and
    the summary that a caller prints for the returned result does not hold
    it either, whatever difference count it is given. *)
Theorem unexpected_result_never_reported (fuel : nat) (heap : nat → bool)
    (brk : nat) (cfg1 cfg2 : list ddrc_cfg_param) (diff_count_p : option Z)
    (o : outcome) (r diff_count : Z) :
  compare_ddrc_cfg_arrays fuel heap brk cfg1 cfg2 diff_count_p = Some o →
  E_unexpected_result r ∉
    diagnostics o ++ print_comparison_summary (result o) diff_count.
Proof.
  intros Ho. rewrite elem_of_app.
  pose proof (compare_diagnostics_expected _ _ _ _ _ _ _ r Ho) as Hdiag.
  intros [?|Hsummary]; [done|]. revert Hsummary.
  unfold print_comparison_summary.
  destruct (compare_result_cases _ _ _ _ _ _ _ Ho)
    as [[-> _]|[(-> & _)|[-> _]]]; simpl;
    repeat case_decide; solve_message_absent.
Qed.

Lemma unexpected_result_never_reported_witness :
  ∃ o,
    compare_ddrc_cfg_arrays 2 (λ _, true) 0 sample_left sample_subset
      (Some 0%Z) = Some o ∧
    E_unexpected_result 2 ∉
      diagnostics o ++ print_comparison_summary (result o) 0.
Proof.
  eexists. split; [vm_compute; reflexivity|].
  apply (unexpected_result_never_reported 2 (λ _, true) 0 sample_left
           sample_subset (Some 0%Z)).
  vm_compute; reflexivity.
Defined.

(** X6: a call that returns has made no allocation request or exactly
    two; it has made two exactly when the lengths differ and the two
    common counts agree and are positive. *)
Theorem compare_allocations (fuel : nat) (heap : nat → bool) (brk : nat)
    (cfg1 cfg2 : list ddrc_cfg_param) (diff_count_p : option Z) (o : outcome) :
  compare_ddrc_cfg_arrays fuel heap brk cfg1 cfg2 diff_count_p = Some o →
  (brk_out o = brk ∨ brk_out o = S (S brk)) ∧
  (brk_out o = S (S brk) ↔
   length cfg1 ≠ length cfg2 ∧
   (count_common_ddrc cfg1 cfg2).1.1 = 0%Z ∧
   0 < (count_common_ddrc cfg1 cfg2).1.2).
Proof.
  intros Ho. destruct fuel as [|fuel]; [done|].
  unfold count_common_ddrc. simpl.
  destruct (decide (length cfg1 = length cfg2)) as [Hlen|Hlen].
  - rewrite compare_equal_length_unfold in Ho by done.
    apply compare_same_length_brk in Ho. split; [by left|].
    split; [lia | by intros (? & _)].
  - rewrite compare_length_mismatch_unfold in Ho by done. cbv zeta in Ho.
    destruct (decide (count_found cfg1 cfg2 = count_found cfg2 cfg1))
      as [Hcount|].
    2: { simplify_eq/=. split; [by left|]. split; [lia | by intros (_ & ? & _)]. }
    destruct (decide (0 < count_found cfg1 cfg2)).
    2: { simplify_eq/=. split; [by left|]. split; [lia | by intros (_ & _ & ?)]. }
    destruct (heap brk && heap (S brk)).
    2: { simplify_eq/=. by split; [right|]. }
    destruct (compare_ddrc_cfg_arrays fuel heap (S (S brk)) _ _ _)
      as [common|] eqn:Hcommon; [|done].
    assert (length (extract_found cfg1 cfg2)
              = length (extract_found cfg2 cfg1)) as Hlen'.
    { by rewrite <- !count_found_extract. }
    destruct fuel as [|fuel]; [done|].
    rewrite compare_equal_length_unfold in Hcommon by done.
    apply compare_same_length_brk in Hcommon.
    simplify_eq/=. rewrite Hcommon. by split; [right|].
Qed.

Lemma compare_allocations_witness :
  ∃ o,
    compare_ddrc_cfg_arrays 2 (λ _, true) 0 sample_left sample_subset
      (Some 0%Z) = Some o ∧
    (brk_out o = 0 ∨ brk_out o = 2).
Proof.
  eexists. split; [vm_compute; reflexivity|].
  refine (proj1 (compare_allocations 2 (λ _, true) 0 sample_left
                   sample_subset (Some 0%Z) _ _)).
  vm_compute; reflexivity.
Defined.

(** X7: the comparison is symmetric in its result.  When the call on
    (left, right) and the call on (right, left) both return, whatever fuel
    and heap they run with, they return the same value, and in the
    outcome 0 they store the same difference count. *)
Theorem compare_result_symmetric (fuel fuel' : nat) (heap heap' : nat → bool)
    (brk brk' : nat) (cfg1 cfg2 : list ddrc_cfg_param)
    (diff_count diff_count' : Z) (o o' : outcome) :
  compare_ddrc_cfg_arrays fuel heap brk cfg1 cfg2 (Some diff_count) = Some o →
  compare_ddrc_cfg_arrays fuel' heap' brk' cfg2 cfg1 (Some diff_count')
    = Some o' →
  result o = result o' ∧
  (result o = 0%Z → diff_count_out o = diff_count_out o').
Proof.
  intros Ho Ho'.
  destruct (decide (length cfg1 = length cfg2)) as [Hlen|Hlen].
  - destruct fuel as [|fuel]; [done|]. destruct fuel' as [|fuel']; [done|].
    rewrite compare_equal_length_unfold in Ho, Ho' by done.
    pose proof (compare_same_length_cases _ _ _ _ _ _ Ho) as Hcase.
    pose proof (compare_same_length_cases _ _ _ _ _ _ Ho') as Hcase'.
    rewrite (same_order_sym cfg2 cfg1) in Hcase'.
    destruct Hcase as [[Hsame Hr]|[(Hsame & Hmiss & Hr)|(Hsame & ? & ? & Hr)]],
      Hcase' as [[Hsame' Hr']|[(Hsame' & Hmiss' & Hr')|(Hsame' & ? & ? & Hr')]];
      try congruence; try tauto; try (split; [congruence | lia]).
    split; [congruence|]. intros _.
    rewrite compare_same_length_identical in Ho by done.
    rewrite compare_same_length_identical in Ho'
      by by rewrite same_order_sym.
    simplify_eq/=. by rewrite count_positional_diffs_sym.
  - pose proof (proj1 (compare_length_mismatch_result fuel heap brk cfg1 cfg2
                         (Some diff_count) Hlen) o Ho) as Hr.
    pose proof (proj1 (compare_length_mismatch_result fuel' heap' brk' cfg2
                         cfg1 (Some diff_count') ltac:(congruence)) o' Ho')
      as Hr'.
    split; [congruence | lia].
Qed.

Lemma compare_result_symmetric_witness :
  ∃ o o',
    compare_ddrc_cfg_arrays 1 (λ _, true) 0 sample_twice sample_twice_changed
      (Some 0%Z) = Some o ∧
    compare_ddrc_cfg_arrays 1 (λ _, false) 0 sample_twice_changed sample_twice
      (Some 5%Z) = Some o' ∧
    result o = result o'.
Proof.
  eexists _, _. split; [vm_compute; reflexivity|].
  split; [vm_compute; reflexivity|].
  refine (proj1 (compare_result_symmetric 1 1 (λ _, true) (λ _, false) 0 0
                   sample_twice sample_twice_changed 0 5 _ _ _ _));
    vm_compute; reflexivity.
Defined.

(** ** Block relocator: termination and the blocks shown *)

Lemma matched_run_positive c1 c2 rest1 rest2 :
  reg c1 = reg c2 → 0 < matched_run (c1 :: rest1) (c2 :: rest2).
Proof. intros Hreg. simpl. rewrite decide_True by done. lia. Qed.

Lemma relocate_blocks_step_bounds cfg1 cfg2 i1 i2 c1 c2 :
  cfg1 !! i1 = Some c1 → cfg2 !! i2 = Some c2 →
  (reg c1 = reg c2 →
   0 < matched_run (drop i1 cfg1) (drop i2 cfg2) ∧
   i1 + matched_run (drop i1 cfg1) (drop i2 cfg2) ≤ length cfg1 ∧
   i2 + matched_run (drop i1 cfg1) (drop i2 cfg2) ≤ length cfg2) ∧
  i1 ≤ extend_left cfg1 cfg2 i1 i2 ≤ length cfg1 ∧
  i2 ≤ extend_right cfg1 cfg2 (extend_left cfg1 cfg2 i1 i2) i2 ≤ length cfg2.
Proof.
  intros H1 H2.
  pose proof (lookup_lt_Some _ _ _ H1). pose proof (lookup_lt_Some _ _ _ H2).
  split_and!.
  - intros Hreg.
    destruct (matched_run_spec (drop i1 cfg1) (drop i2 cfg2))
      as (_ & Hle1 & Hle2 & _).
    rewrite !length_drop in Hle1, Hle2.
    split_and!; [|lia..].
    rewrite (drop_S _ _ _ H1), (drop_S _ _ _ H2).
    by apply matched_run_positive.
  - apply (scan_block_drop cfg1 cfg2 i1 i2). lia.
  - apply (scan_block_drop cfg1 cfg2 i1 i2). lia.
  - apply (scan_block_drop cfg2 cfg1 i2). lia.
  - apply (scan_block_drop cfg2 cfg1 i2). lia.
Qed.

Lemma relocate_blocks_enough fuel cfg1 cfg2 i1 i2 blocks r :
  relocate_blocks fuel cfg1 cfg2 i1 i2 blocks = Some r →
  ∀ fuel', (length cfg1 - i1) + (length cfg2 - i2) < fuel' →
           relocate_blocks fuel' cfg1 cfg2 i1 i2 blocks = Some r.
Proof.
  revert i1 i2 blocks. induction fuel as [|fuel IH]; intros i1 i2 blocks Hr;
    [done|].
  intros [|fuel'] Hfuel; [lia|].
  cbn [relocate_blocks] in Hr |- *.
  destruct (cfg1 !! i1) as [c1|] eqn:H1; [|done].
  destruct (cfg2 !! i2) as [c2|] eqn:H2; [|done].
  destruct (relocate_blocks_step_bounds cfg1 cfg2 i1 i2 c1 c2 H1 H2)
    as (Hrun & Hleft & Hright).
  pose proof (lookup_lt_Some _ _ _ H1). pose proof (lookup_lt_Some _ _ _ H2).
  destruct (decide (reg c1 = reg c2)) as [Hreg|Hreg].
  - destruct (Hrun Hreg) as (? & ? & ?). apply IH; [done | lia].
  - apply IH; [done|].
    destruct (decide (extend_left cfg1 cfg2 i1 i2 = i1)) as [Hl|Hl];
      [|lia].
    rewrite Hl in *.
    destruct (decide (extend_right cfg1 cfg2 i1 i2 = i2)) as [Hr'|Hr'];
      [|lia].
    rewrite Hr' in Hr.
    by rewrite (relocate_blocks_stuck cfg1 cfg2 i1 i2 c1 c2) in Hr.
Qed.

Lemma compare_same_length_enough fuel brk cfg1 cfg2 diff_count_p o :
  compare_same_length fuel brk cfg1 cfg2 diff_count_p = Some o →
  ∀ fuel', length cfg1 + length cfg2 < fuel' →
           compare_same_length fuel' brk cfg1 cfg2 diff_count_p = Some o.
Proof.
  unfold compare_same_length. intros Ho fuel' Hfuel.
  destruct (same_order cfg1 cfg2); [done|].
  destruct (check_left_in_right cfg1 cfg2 true) as [flag1 log1].
  destruct (check_right_in_left 0 cfg2 cfg1 flag1) as [[] log2]; [|done].
  cbn [negb] in *.
  destruct (relocate_blocks fuel cfg1 cfg2 0 0 []) as [r|] eqn:Hr; [|done].
  by rewrite (relocate_blocks_enough _ _ _ _ _ _ _ Hr) by lia.
Qed.


Lemma relocate_blocks_invariant fuel cfg1 cfg2 i1 i2 blocks j1 j2 out :
  relocate_blocks fuel cfg1 cfg2 i1 i2 blocks = Some (j1, j2, out) →
  i1 ≤ length cfg1 → i2 ≤ length cfg2 →
  Forall (λ b, block_within i1 i2 b) blocks →
  StronglySorted block_precedes blocks →
  (j1 = length cfg1 ∨ j2 = length cfg2) ∧
  j1 ≤ length cfg1 ∧ j2 ≤ length cfg2 ∧
  Forall (λ b, block_within j1 j2 b) out ∧
  StronglySorted block_precedes out.
Proof.
  revert i1 i2 blocks. induction fuel as [|fuel IH];
    intros i1 i2 blocks Hr Hi1 Hi2 Hin Hsorted; [done|].
  cbn [relocate_blocks] in Hr.
  destruct (cfg1 !! i1) as [c1|] eqn:H1.
  2: { apply lookup_ge_None in H1. simplify_eq. split_and!; [left|..]; by try lia. }
  destruct (cfg2 !! i2) as [c2|] eqn:H2.
  2: { apply lookup_ge_None in H2. simplify_eq. split_and!; [right|..]; by try lia. }
  destruct (relocate_blocks_step_bounds cfg1 cfg2 i1 i2 c1 c2 H1 H2)
    as (Hrun & Hleft & Hright).
  assert (∀ k1 k2, i1 ≤ k1 → i2 ≤ k2 →
            Forall (λ b, block_within k1 k2 b) blocks) as Hgrow.
  { intros k1 k2 ??. eapply Forall_impl; [done|].
    unfold block_within. intros b. simpl. lia. }
  destruct (decide (reg c1 = reg c2)) as [Hreg|Hreg].
  - destruct (Hrun Hreg) as (? & ? & ?).
    apply (IH _ _ _ Hr); [lia.. | apply Hgrow; lia | done].
  - apply (IH _ _ _ Hr); [lia..| |].
    + apply Forall_app. split; [apply Hgrow; lia|].
      unfold shown_block. case_decide; [|done].
      apply Forall_singleton. unfold block_within. simpl. lia.
    + apply StronglySorted_app. split_and!; [|done|].
      * intros b b' Hb Hb'. unfold shown_block in Hb'.
        case_decide; [|by apply elem_of_nil in Hb'].
        apply list_elem_of_singleton in Hb' as ->.
        apply (proj1 (Forall_forall _ _) Hin) in Hb.
        unfold block_within, block_precedes in *. simpl. lia.
      * unfold shown_block. case_decide; by repeat constructor.
Qed.

(** X9: the blocks shown by the relocation pass.  On lists of equal
    length, the blocks of a call that returns lie inside the two lists,
    none of them is empty on both sides, and they are listed in ascending
    order without overlap, on the left and on the right; outcomes other
    than 1 show no block. *)
Theorem relocated_blocks_well_formed (fuel : nat) (heap : nat → bool)
    (brk : nat) (cfg1 cfg2 : list ddrc_cfg_param) (diff_count_p : option Z)
    (o : outcome) :
  length cfg1 = length cfg2 →
  compare_ddrc_cfg_arrays fuel heap brk cfg1 cfg2 diff_count_p = Some o →
  Forall (block_within (length cfg1) (length cfg2)) (relocated o) ∧
  StronglySorted block_precedes (relocated o) ∧
  (result o ≠ 1%Z → relocated o = []).
Proof.
  intros Hlen Ho. destruct fuel as [|fuel]; [done|].
  rewrite compare_equal_length_unfold in Ho by done.
  unfold compare_same_length in Ho.
  destruct (same_order cfg1 cfg2).
  { simplify_eq/=. split_and!; [constructor | constructor | done]. }
  destruct (check_left_in_right cfg1 cfg2 true) as [flag1 log1].
  destruct (check_right_in_left 0 cfg2 cfg1 flag1) as [[] log2];
    cbn [negb] in Ho.
  2: { simplify_eq/=. split_and!; [constructor | constructor | done]. }
  destruct (relocate_blocks fuel cfg1 cfg2 0 0 []) as [[[j1 j2] out]|] eqn:Hr;
    [|done].
  destruct (relocate_blocks_invariant _ _ _ _ _ _ _ _ _ Hr)
    as (Hend & Hj1 & Hj2 & Hin & Hsorted);
    [lia | lia | constructor | constructor |].
  simplify_eq/=. split_and!; [| |done].
  - apply Forall_app. split.
    + eapply Forall_impl; [done|]. unfold block_within. intros b. simpl. lia.
    + unfold trailing_blocks. apply Forall_app.
      split; case_decide; try done; apply Forall_singleton;
        unfold block_within; simpl; lia.
  - apply StronglySorted_app. split_and!; [|done|].
    + intros b b' Hb Hb'. apply (proj1 (Forall_forall _ _) Hin) in Hb.
      unfold trailing_blocks in Hb'.
      apply elem_of_app in Hb' as [Hb'|Hb']; case_decide;
        try (by apply elem_of_nil in Hb');
        apply list_elem_of_singleton in Hb' as ->;
        unfold block_within, block_precedes in *; simpl; lia.
    + unfold trailing_blocks.
      repeat case_decide; try (by repeat constructor); lia.
Qed.

Lemma relocated_blocks_well_formed_witness :
  ∃ o,
    compare_ddrc_cfg_arrays 4 (λ _, true) 0 sample_long sample_rotated
      (Some 0%Z) = Some o ∧
    relocated o ≠ [] ∧
    StronglySorted block_precedes (relocated o).
Proof.
  eexists. split; [vm_compute; reflexivity|].
  split; [by vm_compute|].
  refine (proj1 (proj2 (relocated_blocks_well_formed 4 (λ _, true) 0
                          sample_long sample_rotated (Some 0%Z) _ _ _)));
    vm_compute; reflexivity.
Defined.

(** ** Duplicate scanner: capacity and shape of the groups *)

Section duplicate_groups_shape.
Context {param : Type} (reg_of val_of : param → Z).

Lemma drop_cons_inv (cfg : list param) j c rest :
  drop j cfg = c :: rest → cfg !! j = Some c ∧ drop (S j) cfg = rest.
Proof.
  intros Hdrop. split.
  - rewrite <- (Nat.add_0_r j), <- lookup_drop, Hdrop. done.
  - replace (S j) with (j + 1) by lia. by rewrite <- drop_drop, Hdrop.
Qed.

Lemma collect_occurrences_shape cfg j rest d processed :
  drop j cfg = rest →
  group_shape reg_of val_of 1 cfg d → Forall (λ i, i < j) (indices d) →
  group_shape reg_of val_of 1 cfg
    (collect_occurrences reg_of val_of (dup_reg d) j rest d processed).1.
Proof.
  revert j d processed. induction rest as [|c rest IH];
    intros j d p Hdrop Hshape Hbelow; [done|].
  apply drop_cons_inv in Hdrop as [Hc Hdrop].
  cbn [collect_occurrences].
  destruct (decide (dup_reg d = reg_of c ∧ count d < MAX_OCCURRENCES))
    as [[Hreg Hroom]|_]; [|by apply IH; [done..|
       eapply Forall_impl; [done|]; simpl; lia]].
  destruct Hshape as (Hindices & Hvalues & Hcount & Hsorted & Hentries).
  apply (IH (S j)
           {| dup_reg := dup_reg d; indices := indices d ++ [j];
              values := values d ++ [val_of c]; count := S (count d) |});
    [done| |].
  - unfold group_shape. simpl. rewrite !length_app. simpl.
    split_and!; [lia.. | |].
    + apply StronglySorted_app. split_and!; [|done|by repeat constructor].
      intros i i' Hi ->%list_elem_of_singleton.
      by apply (proj1 (Forall_forall _ _) Hbelow).
    + intros n i Hn. apply lookup_app_Some in Hn as [Hn|[Hlen Hn]].
      * destruct (Hentries n i Hn) as (c' & ? & ? & Hv). exists c'.
        split_and!; [done..|]. by apply lookup_app_l_Some.
      * apply list_lookup_singleton_Some in Hn as [Hn <-]. exists c.
        split_and!; [done..|]. rewrite lookup_app_r by lia.
        replace (n - length (values d)) with 0 by lia. done.
  - simpl. apply Forall_app. split.
    + eapply Forall_impl; [done|]. simpl. lia.
    + apply Forall_singleton. lia.
Qed.

Lemma scan_duplicates_shape cfg i rest processed dups max_dups :
  drop i cfg = rest →
  Forall (group_shape reg_of val_of 2 cfg) dups →
  Forall (group_shape reg_of val_of 2 cfg)
    (scan_duplicates reg_of val_of i rest processed dups max_dups).
Proof.
  revert i processed dups. induction rest as [|c rest IH];
    intros i p dups Hdrop Hdups; [done|].
  apply drop_cons_inv in Hdrop as [Hc Hdrop].
  rewrite scan_duplicates_cons.
  destruct (decide (Z.of_nat (length dups) < max_dups)%Z); [|done].
  assert (group_shape reg_of val_of 1 cfg
            (collect_occurrences reg_of val_of (reg_of c) (S i) rest
               {| dup_reg := reg_of c; indices := [i];
                  values := [val_of c]; count := 1 |} p).1) as Hgroup.
  { apply (collect_occurrences_shape cfg (S i) rest
             {| dup_reg := reg_of c; indices := [i];
                values := [val_of c]; count := 1 |} p Hdrop).
    - unfold group_shape, MAX_OCCURRENCES. simpl.
      split_and!; [done | done | lia | lia | by repeat constructor |].
      intros [|n] j [= <-]. by exists c.
    - apply Forall_singleton. lia. }
  assert (∀ d, group_shape reg_of val_of 1 cfg d → 1 < count d →
               group_shape reg_of val_of 2 cfg d) as Hraise.
  { intros d (? & ? & ? & ? & ?) ?. split_and!; [done | done | lia.. | done | done]. }
  destruct (p !! i) as [[]|]; [by apply IH| |]; cbv zeta;
    (destruct (decide (1 < count _)) as [Hmany|]; [|by apply IH]);
    (apply IH; [done|]; apply Forall_app; split; [done|];
     apply Forall_singleton; by apply Hraise).
Qed.

Lemma scan_duplicates_capacity i rest processed dups max_dups :
  (Z.of_nat (length dups) ≤ Z.max 0 max_dups)%Z →
  (Z.of_nat (length (scan_duplicates reg_of val_of i rest processed dups
                       max_dups)) ≤ Z.max 0 max_dups)%Z.
Proof.
  revert i processed dups. induction rest as [|c rest IH];
    intros i p dups Hdups; [done|].
  rewrite scan_duplicates_cons.
  destruct (decide (Z.of_nat (length dups) < max_dups)%Z); [|done].
  destruct (p !! i) as [[]|]; [by apply IH| |]; cbv zeta;
    (destruct (decide (1 < count _)); [|by apply IH]);
    apply IH; rewrite length_app; simpl; lia.
Qed.
End duplicate_groups_shape.

(** X10: both duplicate scanners return at most [max_dups] groups (none
    when [max_dups] is not positive), so they never write past the
    caller's array. *)
Theorem find_duplicates_capacity (calloc_ok : bool)
    (cfg : list ddrc_cfg_param) (phy : list ddrphy_cfg_param) (max_dups : Z) :
  (Z.of_nat (length (find_duplicates_ddrc calloc_ok cfg max_dups))
     ≤ Z.max 0 max_dups)%Z ∧
  (Z.of_nat (length (find_duplicates_ddrphy calloc_ok phy max_dups))
     ≤ Z.max 0 max_dups)%Z.
Proof.
  unfold find_duplicates_ddrc, find_duplicates_ddrphy, find_duplicates.
  destruct calloc_ok; [|simpl; lia].
  split; apply scan_duplicates_capacity; simpl; lia.
Qed.

(** X11: every group returned by a duplicate scanner is well formed: its
    [count] is at least 2 and at most 64 and is the number of its indices
    and of its values; the indices are strictly ascending, lie inside the
    list, and each carries the group's register together with the value
    listed beside it. *)
Theorem find_duplicates_group_shape (calloc_ok : bool)
    (cfg : list ddrc_cfg_param) (phy : list ddrphy_cfg_param) (max_dups : Z) :
  Forall (group_shape reg val 2 cfg)
    (find_duplicates_ddrc calloc_ok cfg max_dups) ∧
  Forall (group_shape phy_reg phy_val 2 phy)
    (find_duplicates_ddrphy calloc_ok phy max_dups).
Proof.
  unfold find_duplicates_ddrc, find_duplicates_ddrphy, find_duplicates.
  destruct calloc_ok; [|by split].
  split; by apply scan_duplicates_shape.
Qed.

Lemma compare_same_length_diff_count fuel brk cfg1 cfg2 o :
  length cfg1 = length cfg2 →
  compare_same_length fuel brk cfg1 cfg2 (Some 0%Z) = Some o →
  ∃ d, diff_count_out o = Some d ∧ (0 ≤ d ≤ Z.of_nat (length cfg1))%Z.
Proof.
  intros Hlen
    [(_ & _ & ->)|[(_ & ->)|(_ & _ & _ & _ & ->)]]%compare_same_length_inv;
    simpl; eexists; (split; [done|]).
  - rewrite count_positional_diffs_zip.
    pose proof (length_filter (λ p, val p.1 ≠ val p.2) (zip cfg1 cfg2)) as Hle.
    rewrite length_zip in Hle. unfold positional_diffs. lia.
  - lia.
  - rewrite count_matched_diffs_filter.
    pose proof (length_filter (λ c, differs_from_first_match c cfg2) cfg1).
    unfold matched_diffs. lia.
Qed.

(** X12: the difference count.  A caller that passes a counter set to 0,
    as every caller in the program does, finds in it, after any call that
    returns, a number between 0 and the length of the shorter list. *)
Theorem diff_count_bounds (fuel : nat) (heap : nat → bool) (brk : nat)
    (cfg1 cfg2 : list ddrc_cfg_param) (o : outcome) :
  compare_ddrc_cfg_arrays fuel heap brk cfg1 cfg2 (Some 0%Z) = Some o →
  ∃ d, diff_count_out o = Some d ∧
       (0 ≤ d ≤ Z.of_nat (length cfg1 `min` length cfg2))%Z.
Proof.
  intros Ho. destruct fuel as [|fuel]; [done|].
  destruct (decide (length cfg1 = length cfg2)) as [Hlen|Hlen].
  - rewrite compare_equal_length_unfold in Ho by done.
    destruct (compare_same_length_diff_count _ _ _ _ _ Hlen Ho)
      as (d & ? & ?).
    exists d. split; [done | lia].
  - rewrite compare_length_mismatch_unfold in Ho by done. cbv zeta in Ho.
    destruct (decide (count_found cfg1 cfg2 = count_found cfg2 cfg1))
      as [Hcount|]; [|simplify_eq/=; eexists; split; [done | lia]].
    destruct (decide (0 < count_found cfg1 cfg2));
      [|simplify_eq/=; eexists; split; [done | lia]].
    destruct (heap brk && heap (S brk));
      [|simplify_eq/=; eexists; split; [done | lia]].
    destruct (compare_ddrc_cfg_arrays fuel heap (S (S brk)) _ _ _)
      as [common|] eqn:Hcommon; [|done].
    assert (length (extract_found cfg1 cfg2)
              = length (extract_found cfg2 cfg1)) as Hlen'.
    { by rewrite <- !count_found_extract. }
    destruct fuel as [|fuel]; [done|].
    rewrite compare_equal_length_unfold in Hcommon by done.
    destruct (compare_same_length_diff_count _ _ _ _ _ Hlen' Hcommon)
      as (d & Hd & Hrange).
    pose proof (sublist_length _ _ (extract_found_sublist cfg1 cfg2)).
    pose proof (sublist_length _ _ (extract_found_sublist cfg2 cfg1)).
    simplify_eq/=. exists d. split; [done | lia].
Qed.

Lemma diff_count_bounds_witness :
  ∃ o,
    compare_ddrc_cfg_arrays 1 (λ _, true) 0 sample_twice sample_twice_changed
      (Some 0%Z) = Some o ∧
    ∃ d, diff_count_out o = Some d ∧ (0 ≤ d ≤ 2)%Z.
Proof.
  eexists. split; [vm_compute; reflexivity|].
  apply (diff_count_bounds 1 (λ _, true) 0 sample_twice sample_twice_changed).
  vm_compute; reflexivity.
Defined.

(** ** The nested comparison can stall as well *)

Lemma occurrences_NoDup (cfg : list ddrc_cfg_param) k :
  NoDup (reg <$> cfg) → k ∈ reg <$> cfg → occurrences reg k cfg = 1.
Proof.
  intros Hnd Hk. rewrite occurrences_count_occ.
  apply NoDup_ListNoDup in Hnd.
  pose proof (proj1 (NoDup_count_occ Z.eq_dec _) Hnd k) as Hle.
  apply list_elem_of_In in Hk.
  apply (count_occ_In Z.eq_dec) in Hk. lia.
Qed.

Lemma extract_found_NoDup cfg other :
  NoDup (reg <$> cfg) → NoDup (reg <$> extract_found cfg other).
Proof.
  intros Hnd. eapply sublist_NoDup; [done|].
  apply fmap_sublist, extract_found_sublist.
Qed.

(** X23: the nested comparison can stall as well.  Let the lists have
    different lengths and pairwise distinct registers on each side, and
    let both allocations succeed.  If the common registers come in a
    different order on the two sides and there are at most 50 of them,
    the call never returns, whatever the fuel. *)
Theorem nested_short_reordering_never_returns (fuel : nat)
    (heap : nat → bool) (brk : nat) (cfg1 cfg2 : list ddrc_cfg_param)
    (diff_count_p : option Z) :
  length cfg1 ≠ length cfg2 →
  NoDup (reg <$> cfg1) → NoDup (reg <$> cfg2) →
  heap brk = true → heap (S brk) = true →
  reg <$> (extract_common_ddrc cfg1 cfg2).1
    ≠ reg <$> (extract_common_ddrc cfg1 cfg2).2 →
  length (extract_common_ddrc cfg1 cfg2).1 ≤ LOOKAHEAD →
  compare_ddrc_cfg_arrays fuel heap brk cfg1 cfg2 diff_count_p = None.
Proof.
  unfold extract_common_ddrc. cbn [fst snd].
  intros Hlen Hnd1 Hnd2 Hheap1 Hheap2 Horder Hshort.
  destruct fuel as [|fuel]; [done|].
  assert (reg <$> extract_found cfg1 cfg2 ≡ₚ reg <$> extract_found cfg2 cfg1)
    as Hperm.
  { apply common_keys_permutation. intros k H1 H2.
    by rewrite !occurrences_NoDup. }
  assert (length (extract_found cfg1 cfg2) = length (extract_found cfg2 cfg1))
    as Hcommon.
  { rewrite <- (length_fmap reg (extract_found cfg1 cfg2)).
    rewrite <- (length_fmap reg (extract_found cfg2 cfg1)).
    by apply Permutation_length. }
  rewrite compare_length_mismatch_unfold by done. cbv zeta.
  rewrite !count_found_extract.
  rewrite decide_True by done.
  rewrite decide_True.
  2: { destruct (extract_found cfg1 cfg2), (extract_found cfg2 cfg1);
         simplify_eq/=; lia. }
  rewrite Hheap1, Hheap2. cbn [andb].
  rewrite compare_short_reordering_never_returns; try done.
  by apply extract_found_NoDup.
Qed.

Lemma nested_short_reordering_never_returns_witness :
  compare_ddrc_cfg_arrays 100 (λ _, true) 0 sample_left sample_short
    (Some 0%Z) = None.
Proof.
  apply (nested_short_reordering_never_returns 100 (λ _, true) 0 sample_left
           sample_short (Some 0%Z)).
  - by vm_compute.
  - apply (bool_decide_unpack _). by vm_compute.
  - apply (bool_decide_unpack _). by vm_compute.
  - reflexivity.
  - reflexivity.
  - by vm_compute.
  - vm_compute. lia.
Defined.

(** ** The rows shown by [find_and_display_unique_ddrc] *)

Lemma unique_entries_from_cons i c cfg other :
  unique_entries_from i (c :: cfg) other =
  if reg_found (reg c) other then unique_entries_from (S i) cfg other
  else (i, c) :: unique_entries_from (S i) cfg other.
Proof.
  unfold unique_entries_from. cbn [length seq zip zip_with].
  rewrite filter_cons. cbn [snd].
  destruct (reg_found (reg c) other) eqn:E.
  - apply reg_found_elem_of in E. by rewrite decide_False by tauto.
  - rewrite decide_True; [done|]. rewrite <- reg_found_elem_of. congruence.
Qed.

Lemma unique_entry_lookup rest other line found_count i :
  found_count ≤ line →
  unique_entry line found_count i rest other =
  unique_entries_from i rest other !! (line - found_count).
Proof.
  revert found_count i.
  induction rest as [|c rest IH]; intros found_count i Hle; [done|].
  rewrite unique_entries_from_cons. cbn [unique_entry].
  destruct (reg_found (reg c) other); [by apply IH|].
  destruct (decide (found_count = line)) as [->|Hne].
  - by rewrite Nat.sub_diag.
  - rewrite IH by lia.
    by replace (line - found_count) with (S (line - S found_count)) by lia.
Qed.

Lemma unique_entries_length i cfg other :
  length (unique_entries_from i cfg other) = count_not_found cfg other.
Proof.
  revert i. induction cfg as [|c cfg IH]; intros i; [done|].
  rewrite unique_entries_from_cons. cbn [count_not_found].
  destruct (reg_found (reg c) other); simpl; by rewrite IH.
Qed.

(** X13: the table of unique registers printed for lists of different
    lengths.  Only the longer list gets its unique registers listed, with
    their indices, in order; the column of the shorter list stays empty
    whichever side it is, and when the shorter list has more unique
    registers than the longer one, the table ends in rows that are empty
    on both sides. *)
Theorem unique_rows_longer_side cfg1 cfg2 :
  length cfg2 < length cfg1 →
  let missing :=
    length (unique_entries cfg2 cfg1) - length (unique_entries cfg1 cfg2) in
  unique_rows_ddrc cfg1 cfg2 =
    ((λ e, (Some e, None)) <$> unique_entries cfg1 cfg2)
    ++ replicate missing (None, None) ∧
  unique_rows_ddrc cfg2 cfg1 =
    ((λ e, (None, Some e)) <$> unique_entries cfg1 cfg2)
    ++ replicate missing (None, None).
Proof.
  intros Hlen missing. subst missing.
  unfold unique_entries.
  rewrite !unique_entries_length.
  unfold unique_rows_ddrc, unique_counts_ddrc.
  destruct (decide (length cfg2 < length cfg1)) as [_|?]; [|lia].
  destruct (decide (length cfg1 < length cfg2)) as [?|_]; [lia|].
  pose proof (unique_entries_length 0 cfg1 cfg2) as Hl.
  set (nl := count_not_found cfg1 cfg2) in *.
  set (nr := count_not_found cfg2 cfg1) in *.
  assert (Hrows : ∀ (f : option (nat * ddrc_cfg_param) →
      option (nat * ddrc_cfg_param) * option (nat * ddrc_cfg_param)) n,
    f None = (None, None) →
    (λ line, f (unique_entry line 0 0 cfg1 cfg2)) <$> seq 0 (nl `max` n) =
    ((λ e, f (Some e)) <$> unique_entries_from 0 cfg1 cfg2)
    ++ replicate (n - nl) (None, None)).
  { intros f n Hf. apply list_eq. intros line.
    rewrite list_lookup_fmap.
    destruct (decide (line < nl)) as [Hlt|Hge].
    - rewrite lookup_seq_lt by lia. cbn [fmap option_fmap option_map Nat.add].
      rewrite lookup_app_l by (rewrite length_fmap; lia).
      rewrite list_lookup_fmap, unique_entry_lookup, Nat.sub_0_r by lia.
      destruct (lookup_lt_is_Some_2 (unique_entries_from 0 cfg1 cfg2) line)
        as [e He]; [lia|].
      by rewrite He.
    - rewrite lookup_app_r by (rewrite length_fmap; lia).
      rewrite length_fmap, Hl.
      destruct (decide (line < nl `max` n)) as [Hlt|Hge'].
      + rewrite lookup_seq_lt by lia. cbn [fmap option_fmap option_map Nat.add].
        rewrite unique_entry_lookup, Nat.sub_0_r by lia.
        rewrite (lookup_ge_None_2 (unique_entries_from 0 cfg1 cfg2)) by lia.
        rewrite Hf. symmetry. apply lookup_replicate_2. lia.
      + rewrite lookup_seq_ge by lia. symmetry.
        apply lookup_ge_None_2. rewrite length_replicate. lia. }
  split.
  - destruct (decide (nl = 0 ∧ nr = 0)) as [[H1 H2]|Hne].
    + destruct (unique_entries_from 0 cfg1 cfg2); [|simpl in Hl; lia].
      by rewrite H1, H2.
    + replace (if decide (nr < nl) then nl else nr) with (nl `max` nr)
        by (destruct (decide (nr < nl)); lia).
      by rewrite <- (Hrows (λ o, (o, None)) nr).
  - destruct (decide (nr = 0 ∧ nl = 0)) as [[H1 H2]|Hne].
    + destruct (unique_entries_from 0 cfg1 cfg2); [|simpl in Hl; lia].
      by rewrite H1, H2.
    + replace (if decide (nl < nr) then nr else nl) with (nl `max` nr)
        by (destruct (decide (nl < nr)); lia).
      by rewrite <- (Hrows (λ o, (None, o)) nr).
Qed.

Lemma unique_rows_longer_side_witness :
  unique_rows_ddrc sample_left sample_short
    = [(Some (2, {| reg := 0x30; val := 3 |}), None)] ∧
  unique_rows_ddrc sample_short sample_left
    = [(None, Some (2, {| reg := 0x30; val := 3 |}))].
Proof.
  apply (unique_rows_longer_side sample_left sample_short). simpl. lia.
Defined.

(** ** Duplicates involved in value differences *)

Section duplicate_interference_lemmas.
Context {param : Type} (reg_of val_of : param → Z).

Local Abbreviation step := (check_duplicate reg_of val_of).

Lemma already_reported_elem_of r regs :
  already_reported r regs = true ↔ r ∈ regs.
Proof.
  induction regs as [|x regs IH]; simpl.
  - split; [done | by intros ?%elem_of_nil].
  - rewrite elem_of_cons, <- IH. case_decide; [by split; auto|].
    split; [by right | by intros [?|?]; [congruence|]].
Qed.

Lemma value_difference_differs_at r cfg1 cfg2 :
  value_difference reg_of val_of r cfg1 cfg2 = true ↔
  differs_at reg_of val_of cfg1 cfg2 r.
Proof.
  revert cfg2. induction cfg1 as [|c1 cfg1 IH]; intros [|c2 cfg2]; simpl.
  1-3: split; [done | by intros (i & ? & ? & ? & ? & _); destruct i].
  case_decide as Hd.
  - split; [intros _ | done]. exists 0, c1, c2. by destruct Hd.
  - rewrite IH. split.
    + intros (i & x & y & ? & ? & ?). by exists (S i), x, y.
    + intros ([|i] & x & y & ? & ? & ? & ?); simplify_eq/=; [tauto|].
      by exists i, x, y.
Qed.

Lemma check_duplicate_inv cfg1 cfg2 st seen ds d :
  interference_inv reg_of val_of cfg1 cfg2 st seen ds →
  ∃ ds', interference_inv reg_of val_of cfg1 cfg2 (step cfg1 cfg2 st d) (seen ++ [d]) ds'.
Proof.
  intros (Hlines & Hfound & Hregs & Hnodup & Hsub & Hdiff & Hall).
  unfold check_duplicate.
  destruct (already_reported (dup_reg d) (reported_regs st)) eqn:Hrep.
  { exists ds. split_and!; try done.
    - by apply sublist_inserts_r.
    - intros d' [Hd'| ->%list_elem_of_singleton]%elem_of_app Hd; [auto|].
      apply already_reported_elem_of in Hrep. rewrite Hregs in Hrep.
      by apply elem_of_take in Hrep as (? & ?%list_elem_of_lookup_2 & _). }
  destruct (value_difference reg_of val_of (dup_reg d) cfg1 cfg2) eqn:Hval.
  2: { exists ds. split_and!; try done.
    - by apply sublist_inserts_r.
    - intros d' [Hd'| ->%list_elem_of_singleton]%elem_of_app Hd; [auto|].
      apply value_difference_differs_at in Hd. congruence. }
  apply value_difference_differs_at in Hval.
  assert (Hnew : dup_reg d ∉ take MAX_REPORTED (dup_reg <$> ds)).
  { rewrite <- Hregs, <- already_reported_elem_of. congruence. }
  exists (ds ++ [d]). unfold interference_inv.
  cbn [interference_found reported_regs interference_lines].
  split_and!.
  - rewrite Hlines, fmap_app. cbn [fmap list_fmap].
    destruct (interference_found st) eqn:Hf.
    + by rewrite <- !(assoc_L (++)).
    + destruct ds as [|d0 ds]; [done|].
      destruct Hfound as [_ Hfound]. by specialize (Hfound ltac:(done)).
  - split; [by intros _ [_ ?]%app_eq_nil | done].
  - rewrite Hregs, fmap_app, length_take, length_fmap. cbn [fmap list_fmap].
    unfold MAX_REPORTED in *.
    case_decide as Hlt.
    + by rewrite !take_ge by (rewrite ?length_app, length_fmap; simpl; lia).
    + by rewrite take_app_le by (rewrite length_fmap; lia).
  - rewrite fmap_app. cbn [fmap list_fmap]. unfold MAX_REPORTED in *.
    destruct (decide (length ds ≤ 100)) as [Hle|Hgt].
    + rewrite take_ge by (rewrite length_app, length_fmap; simpl; lia).
      rewrite take_ge in Hnodup, Hnew by (rewrite length_fmap; lia).
      apply NoDup_app. split_and!; [done| |apply NoDup_singleton].
      by intros x Hx ->%list_elem_of_singleton.
    + by rewrite take_app_le by (rewrite length_fmap; lia).
  - by apply sublist_app.
  - apply Forall_app. split; [done|]. by apply Forall_singleton.
  - intros d' Hd' Hd. rewrite fmap_app, elem_of_app.
    apply elem_of_app in Hd' as [Hd'| ->%list_elem_of_singleton]; [auto|].
    right. by apply list_elem_of_singleton.
Qed.

Lemma check_duplicates_inv cfg1 cfg2 dups st seen ds :
  interference_inv reg_of val_of cfg1 cfg2 st seen ds →
  ∃ ds', interference_inv reg_of val_of cfg1 cfg2
           (foldl (step cfg1 cfg2) st dups) (seen ++ dups) ds'.
Proof.
  revert st seen ds. induction dups as [|d dups IH]; intros st seen ds Hinv.
  - exists ds. by rewrite app_nil_r.
  - destruct (check_duplicate_inv _ _ _ _ _ d Hinv) as [ds1 Hinv1].
    destruct (IH _ _ _ Hinv1) as [ds2 Hinv2].
    exists ds2. by rewrite <- (assoc_L (++)) in Hinv2.
Qed.

Lemma check_duplicate_interference_inv cfg1 cfg2 left_dups right_dups :
  ∃ ds st,
    check_duplicate_interference reg_of val_of cfg1 cfg2 left_dups right_dups
      = interference_lines st ∧
    interference_inv reg_of val_of cfg1 cfg2 st (left_dups ++ right_dups) ds.
Proof.
  unfold check_duplicate_interference.
  set (st0 := {| interference_found := false; reported_regs := [];
                 interference_lines := [] |}).
  assert (Hinv0 : interference_inv reg_of val_of cfg1 cfg2 st0 [] []).
  { split_and!; try done; [apply NoDup_nil_2|by intros ? ?%elem_of_nil]. }
  destruct (check_duplicates_inv cfg1 cfg2 left_dups _ _ _ Hinv0)
    as [ds1 Hinv1].
  destruct (check_duplicates_inv cfg1 cfg2 right_dups _ _ _ Hinv1)
    as [ds2 Hinv2].
  eexists ds2, _. split; [done|]. by rewrite app_nil_l in Hinv2.
Qed.

Lemma reported_registers_entries cfg1 cfg2 ds :
  reported_registers (entry_of val_of cfg1 cfg2 <$> ds) = dup_reg <$> ds.
Proof. induction ds as [|d ds IH]; [done|]. simpl. f_equal. exact IH. Qed.

(** X14: what [check_duplicate_interference] prints.  The report is empty
    or consists of the warning followed by one entry per reported group;
    the reported groups are taken, in order, from the left groups followed
    by the right groups.  A register is reported exactly when it is the
    register of some group, left or right, and some index carries it on
    the left with a value that differs from the right value at that
    index. *)
Theorem interference_report cfg1 cfg2 left_dups right_dups :
  ∃ ds,
    sublist ds (left_dups ++ right_dups) ∧
    check_duplicate_interference reg_of val_of cfg1 cfg2 left_dups right_dups
      = (if decide (ds = []) then []
         else W_duplicates_in_differences
              :: (entry_of val_of cfg1 cfg2 <$> ds)) ∧
    ∀ r, r ∈ dup_reg <$> ds ↔
         r ∈ dup_reg <$> (left_dups ++ right_dups) ∧
         differs_at reg_of val_of cfg1 cfg2 r.
Proof.
  destruct (check_duplicate_interference_inv cfg1 cfg2 left_dups right_dups)
    as (ds & st & -> & Hlines & Hfound & _ & _ & Hsub & Hdiff & Hall).
  exists ds. split_and!; [done| |].
  - rewrite Hlines. destruct (decide (ds = [])) as [->|Hne].
    + destruct (interference_found st); [|done].
      destruct Hfound as [Hfound _]. by destruct (Hfound eq_refl).
    + apply Hfound in Hne. by rewrite Hne.
  - intros r. split.
    + intros (d & -> & Hd)%list_elem_of_fmap. split.
      * apply list_elem_of_fmap. exists d. split; [done|].
        by eapply elem_of_sublist.
      * by eapply Forall_forall in Hdiff.
    + intros [(d & -> & Hd)%list_elem_of_fmap Hr]. by apply Hall.
Qed.

(** X15: a register is reported once: the registers of the first 101
    entries of a report are pairwise distinct.  (The array that remembers
    the reported registers holds 100 of them; later entries are checked
    against these only.) *)
Theorem interference_reported_once cfg1 cfg2 left_dups right_dups :
  NoDup (take (S MAX_REPORTED)
    (reported_registers
       (check_duplicate_interference reg_of val_of cfg1 cfg2
          left_dups right_dups))).
Proof.
  destruct (check_duplicate_interference_inv cfg1 cfg2 left_dups right_dups)
    as (ds & st & -> & Hlines & _ & _ & Hnodup & _).
  rewrite Hlines.
  by destruct (interference_found st); simpl;
    rewrite reported_registers_entries.
Qed.

End duplicate_interference_lemmas.

(** ** The checks of [main] on the DDRC tables *)

Lemma count_positional_diffs_nonneg cfg1 cfg2 :
  (0 ≤ count_positional_diffs cfg1 cfg2)%Z.
Proof.
  revert cfg2. induction cfg1 as [|c1 cfg1 IH]; intros [|c2 cfg2];
    simpl; try lia.
  specialize (IH cfg2). case_decide; lia.
Qed.

Lemma differs_at_positional cfg1 cfg2 r :
  differs_at reg val cfg1 cfg2 r → (0 < count_positional_diffs cfg1 cfg2)%Z.
Proof.
  intros (i & c1 & c2 & H1 & H2 & _ & Hval).
  revert cfg2 i H1 H2. induction cfg1 as [|x cfg1 IH];
    intros [|y cfg2] [|i] H1 H2; simplify_eq/=.
  - rewrite decide_True by done.
    pose proof (count_positional_diffs_nonneg cfg1 cfg2). lia.
  - specialize (IH _ _ H1 H2). case_decide; lia.
Qed.

Lemma occurrences_same_keys (cfg1 cfg2 : list ddrc_cfg_param) r :
  reg <$> cfg1 = reg <$> cfg2 →
  occurrences reg r cfg1 = occurrences reg r cfg2.
Proof. intros Hkeys. by rewrite !occurrences_count_occ, Hkeys. Qed.

Lemma occurrences_elem_of (cfg : list ddrc_cfg_param) r :
  0 < occurrences reg r cfg → ∃ c, c ∈ cfg ∧ reg c = r.
Proof.
  unfold occurrences. intros Hocc.
  destruct (filter (λ c, reg c = r) cfg) as [|c l] eqn:Hf; [simpl in Hocc; lia|].
  assert (c ∈ filter (λ c, reg c = r) cfg) as Hc by (rewrite Hf; left).
  apply list_elem_of_filter in Hc as [? ?]. by exists c.
Qed.

(** The groups of a scan that was not cut short are those of the repeated
    registers. *)
Lemma find_duplicates_ddrc_registers cfg r :
  Forall (λ c, occurrences reg (reg c) cfg ≤ MAX_OCCURRENCES) cfg →
  length (find_duplicates_ddrc true cfg 100) < 100 →
  r ∈ dup_reg <$> find_duplicates_ddrc true cfg 100 ↔
  2 ≤ occurrences reg r cfg.
Proof.
  intros Hmax Hlimit. unfold find_duplicates_ddrc, find_duplicates in *.
  split.
  - intros (d & -> & [Hd|Hd]%scan_duplicates_repeated)%list_elem_of_fmap;
      [by apply elem_of_nil in Hd | done].
  - intros Hocc.
    destruct (occurrences_elem_of cfg r ltac:(lia)) as (c & Hc & <-).
    eapply Forall_forall in Hmax; [|done].
    pose proof (scan_duplicates_group reg val (reg c) 0 cfg
                  (replicate (length cfg) false) [] 100) as Hgroup.
    rewrite filter_nil, app_nil_l in Hgroup.
    set (g := {| dup_reg := reg c |}) in Hgroup.
    assert (g ∈ filter (λ d, dup_reg d = reg c)
                  (scan_duplicates reg val 0 cfg
                     (replicate (length cfg) false) [] 100)) as Hg.
    { rewrite Hgroup; [left| |lia|lia].
      intros m (_ & c' & Hc' & _)%elem_of_positions.
      apply lookup_replicate_2. apply lookup_lt_Some in Hc'. lia. }
    apply list_elem_of_filter in Hg as [_ Hg].
    apply list_elem_of_fmap. by exists g.
Qed.

Lemma find_duplicates_ddrc_repeated calloc_ok cfg d :
  d ∈ find_duplicates_ddrc calloc_ok cfg 100 →
  2 ≤ occurrences reg (dup_reg d) cfg.
Proof.
  unfold find_duplicates_ddrc, find_duplicates.
  destruct calloc_ok; [|by intros ?%elem_of_nil].
  by intros [Hd%elem_of_nil|Hd]%scan_duplicates_repeated.
Qed.

Lemma reported_registers_spec {param} (reg_of val_of : param → Z)
    cfg1 cfg2 left_dups right_dups r :
  r ∈ reported_registers
        (check_duplicate_interference reg_of val_of cfg1 cfg2
           left_dups right_dups) ↔
  r ∈ dup_reg <$> (left_dups ++ right_dups) ∧
  differs_at reg_of val_of cfg1 cfg2 r.
Proof.
  destruct (check_duplicate_interference_inv reg_of val_of cfg1 cfg2
              left_dups right_dups)
    as (ds & st & -> & Hlines & _ & _ & _ & Hsub & Hdiff & Hall).
  assert (reported_registers (interference_lines st) = dup_reg <$> ds) as ->.
  { rewrite Hlines. by destruct (interference_found st); simpl;
      rewrite reported_registers_entries. }
  split.
  - intros (d & -> & Hd)%list_elem_of_fmap. split.
    + apply list_elem_of_fmap. exists d. split; [done|].
      by eapply elem_of_sublist.
    + by eapply Forall_forall in Hdiff.
  - intros [(d & -> & Hd)%list_elem_of_fmap Hr]. by apply Hall.
Qed.

Lemma interference_registers_app l1 l2 :
  interference_registers (l1 ++ l2)
    = interference_registers l1 ++ interference_registers l2.
Proof.
  unfold interference_registers, reported_registers.
  by rewrite !omap_app.
Qed.

Lemma interference_registers_interference ls :
  interference_registers (Interference <$> ls) = reported_registers ls.
Proof.
  unfold interference_registers. f_equal.
  induction ls as [|l ls IH]; [done|]. simpl. f_equal. exact IH.
Qed.

Lemma interference_registers_other (lines : list report_line) :
  Forall (λ l, ∀ e, l ≠ Interference e) lines →
  interference_registers lines = [].
Proof.
  unfold interference_registers. induction 1 as [|l lines Hl _ IH]; [done|].
  simpl. destruct l; try done. by destruct (Hl l).
Qed.

(** X16: [check_ddrc_cfg] on two tables that list the same registers in
    the same order.  If the first allocation of the duplicate scans
    succeeds, no register occurs more than 64 times and the left scan ends
    below its limit of 100 groups, the check returns 0 for any positive
    fuel, after two allocation requests, and the registers of its
    interference report are exactly the registers that occur at least
    twice and hold different values on the two sides at some index. *)
Theorem check_ddrc_cfg_same_registers (fuel : nat) (heap : nat → bool)
    (brk : nat) (opt_list_duplicates : bool)
    (left_cfg right_cfg : list ddrc_cfg_param) :
  reg <$> left_cfg = reg <$> right_cfg →
  heap brk = true →
  Forall (λ c, occurrences reg (reg c) left_cfg ≤ MAX_OCCURRENCES) left_cfg →
  length (find_duplicates_ddrc true left_cfg 100) < 100 →
  ∃ lines,
    check_ddrc_cfg (S fuel) heap brk opt_list_duplicates left_cfg right_cfg
      = Some (0%Z, S (S brk), lines) ∧
    ∀ r, r ∈ interference_registers lines ↔
         2 ≤ occurrences reg r left_cfg ∧
         differs_at reg val left_cfg right_cfg r.
Proof.
  intros Hkeys Hheap Hmax Hlimit.
  assert (length left_cfg = length right_cfg) as Hlen.
  { by rewrite <- (length_fmap reg left_cfg), Hkeys, length_fmap. }
  unfold check_ddrc_cfg.
  rewrite compare_equal_length_unfold by done.
  rewrite compare_same_length_identical by by apply same_order_keys.
  cbn [result diff_count_out brk_out store_diff_count default from_option id].
  rewrite Hheap.
  set (left_dups := find_duplicates_ddrc true left_cfg 100).
  set (right_dups := find_duplicates_ddrc (heap (S brk)) right_cfg 100).
  set (diff_count := count_positional_diffs left_cfg right_cfg).
  eexists. split; [done|]. intros r.
  rewrite !interference_registers_app.
  rewrite (interference_registers_other [_]), app_nil_l
    by (apply Forall_singleton; done).
  rewrite (interference_registers_other (Summary <$> _)), app_nil_l
    by (apply Forall_fmap, Forall_true; done).
  assert (r ∈ dup_reg <$> (left_dups ++ right_dups) ↔
          2 ≤ occurrences reg r left_cfg) as Hgroups.
  { rewrite fmap_app, elem_of_app.
    pose proof (find_duplicates_ddrc_registers left_cfg r Hmax Hlimit)
      as Hleft. fold left_dups in Hleft. rewrite Hleft.
    split; [|by left]. intros [?|(d & -> & Hd)%list_elem_of_fmap]; [done|].
    apply find_duplicates_ddrc_repeated in Hd.
    by rewrite (occurrences_same_keys left_cfg right_cfg). }
  assert (interference_registers
            (if opt_list_duplicates
             then Duplicate_row <$>
                    print_duplicates_ddrc_sidebyside left_dups right_dups
             else [I_duplicates_found
                     (Z.of_nat (length left_dups)
                      + Z.of_nat (length right_dups))]) = []) as Hrest.
  { apply interference_registers_other. destruct opt_list_duplicates.
    - apply Forall_fmap, Forall_true. done.
    - by apply Forall_singleton. }
  destruct (decide (0 < length left_dups ∨ 0 < length right_dups))
    as [Hsome|Hnone].
  2: { rewrite elem_of_nil. split; [done|]. intros [Hocc _].
       apply Hgroups in Hocc.
       destruct left_dups, right_dups; simpl in *;
         [by apply elem_of_nil in Hocc | lia..]. }
  rewrite interference_registers_app, Hrest, app_nil_r.
  destruct (decide (0 ≤ 0 ∧ 0 < diff_count)%Z) as [[_ Hdiff]|Hsame].
  - rewrite decide_True by done.
    rewrite interference_registers_interference, reported_registers_spec.
    by rewrite Hgroups.
  - rewrite elem_of_nil. split; [done|].
    intros [_ Hr%differs_at_positional]. unfold diff_count in Hsame. lia.
Qed.

Lemma check_ddrc_cfg_same_registers_witness :
  ∃ lines,
    check_ddrc_cfg 1 (λ _, true) 0 false sample_twice sample_twice_changed
      = Some (0%Z, 2, lines) ∧
    ∀ r, r ∈ interference_registers lines ↔
         2 ≤ occurrences reg r sample_twice ∧
         differs_at reg val sample_twice sample_twice_changed r.
Proof.
  apply (check_ddrc_cfg_same_registers 0 (λ _, true) 0 false sample_twice
           sample_twice_changed).
  - reflexivity.
  - reflexivity.
  - repeat constructor; vm_compute; lia.
  - vm_compute. lia.
Defined.

Lemma compare_result_structure fuel heap brk cfg1 cfg2 diff_count_p o :
  compare_ddrc_cfg_arrays fuel heap brk cfg1 cfg2 diff_count_p = Some o →
  (result o < 0)%Z ↔ ¬ same_structure cfg1 cfg2.
Proof.
  intros Ho. unfold same_structure.
  assert (reg <$> cfg1 = reg <$> cfg2 → length cfg1 = length cfg2) as Hlen.
  { intros Hkeys. by rewrite <- (length_fmap reg cfg1), Hkeys, length_fmap. }
  pose proof (same_keys_all_found cfg1 cfg2) as Hfound.
  destruct (compare_result_cases _ _ _ _ _ _ _ Ho)
    as [[-> Hkeys]|[(-> & ? & ? & ? & ?)|[-> Hmiss]]].
  - split; [lia|]. intros []. split; [auto|]. by apply Hfound.
  - split; [lia|]. by intros [].
  - split; [|lia]. intros _ (? & ? & ?). destruct Hmiss; tauto.
Qed.

Lemma check_fsp_entries_result fuel heap left_fsp :
  ∀ right_fsp brk i ret log ret' brk' lines,
  check_fsp_entries fuel heap brk i left_fsp right_fsp ret log
    = Some (ret', brk', lines) →
  length left_fsp = length right_fsp →
  ret = 0%Z ∨ ret = (-1)%Z →
  (ret' = 0%Z ∨ ret' = (-1)%Z) ∧
  (ret' = 0%Z ↔
   ret = 0%Z ∧
   ∀ j l r, left_fsp !! j = Some l → right_fsp !! j = Some r →
            same_structure (ddrc_cfg l) (ddrc_cfg r)).
Proof.
  induction left_fsp as [|l left_fsp IH];
    intros [|r right_fsp] brk i ret log ret' brk' lines Hcheck Hlen Hret;
    simplify_eq/=.
  { split; [done|]. split; [|by intros [? _]]. intros ->. split; [done|].
    intros j l r Hl. by destruct j. }
  destruct (compare_ddrc_cfg_arrays fuel heap brk (ddrc_cfg l) (ddrc_cfg r)
              (Some 0%Z)) as [o|] eqn:Ho; [|done].
  pose proof (compare_result_structure _ _ _ _ _ _ _ Ho) as Hstruct.
  apply IH in Hcheck as [Hrange Hzero]; [|done|by case_decide; auto].
  split; [done|]. rewrite Hzero. split.
  - intros [Hret' Hrest]. destruct (decide (result o < 0)%Z) as [|Hres]; [done|].
    split; [done|]. intros [|j] l' r' Hl Hr; simplify_eq/=; [|by eauto].
    destruct (decide (same_structure (ddrc_cfg l') (ddrc_cfg r'))); [done|].
    by destruct Hres; apply Hstruct.
  - intros [-> Hall]. split.
    + rewrite decide_False; [done|]. rewrite Hstruct.
      intros Hno. apply Hno. by apply (Hall 0).
    + intros j l' r' Hl Hr. by apply (Hall (S j)).
Qed.

(** X17: the return value of [check_fsp_cfg].  A call that returns gives
    0 or -1.  It gives 0 exactly when both sides have as many FSP entries
    and the DDRC tables of every pair of entries have the same structure
    (as many records, every register of either present in the other);
    reordered tables and value or bypass differences do not change it.
    When the numbers of entries differ it compares nothing. *)
Theorem check_fsp_cfg_result (fuel : nat) (heap : nat → bool) (brk : nat)
    (left_fsp right_fsp : list dram_fsp_cfg)
    (ret : Z) (brk' : nat) (lines : list report_line) :
  check_fsp_cfg fuel heap brk left_fsp right_fsp = Some (ret, brk', lines) →
  (ret = 0%Z ∨ ret = (-1)%Z) ∧
  (ret = 0%Z ↔
   length left_fsp = length right_fsp ∧
   ∀ i l r, left_fsp !! i = Some l → right_fsp !! i = Some r →
            same_structure (ddrc_cfg l) (ddrc_cfg r)) ∧
  (length left_fsp ≠ length right_fsp →
   brk' = brk ∧ lines = [E_fsp_entries_mismatch]).
Proof.
  unfold check_fsp_cfg. intros Hcheck.
  destruct (decide (length left_fsp ≠ length right_fsp)) as [Hlen|Hlen].
  - simplify_eq/=. split_and!; [by right | | done].
    split; [done | by intros [? _]].
  - assert (length left_fsp = length right_fsp) as Hlen'
      by by destruct (decide (length left_fsp = length right_fsp)).
    apply check_fsp_entries_result in Hcheck as [Hrange Hzero];
      [|done|by left].
    split_and!; [done| |done]. rewrite Hzero. tauto.
Qed.

Lemma check_fsp_cfg_result_witness :
  ∃ ret brk' lines,
    check_fsp_cfg 1 (λ _, true) 0 sample_fsp_left sample_fsp_right
      = Some (ret, brk', lines) ∧
    (ret = 0%Z ∨ ret = (-1)%Z).
Proof.
  eexists _, _, _. split; [vm_compute; reflexivity|].
  refine (proj1 (check_fsp_cfg_result 1 (λ _, true) 0 sample_fsp_left
                   sample_fsp_right _ _ _ _)).
  vm_compute; reflexivity.
Defined.

Lemma positional_equal cfg1 cfg2 :
  reg <$> cfg1 = reg <$> cfg2 →
  count_positional_diffs cfg1 cfg2 = 0%Z ↔ cfg1 = cfg2.
Proof.
  revert cfg2. induction cfg1 as [|[r1 v1] cfg1 IH]; intros [|[r2 v2] cfg2] Hkeys;
    simplify_eq/=; [done|].
  pose proof (count_positional_diffs_nonneg cfg1 cfg2).
  destruct (decide (v1 ≠ v2)) as [Hne|Heq].
  - split; [lia | by intros [= ? ?]].
  - rewrite IH by done.
    assert (v1 = v2) as -> by (by destruct (decide (v1 = v2))).
    split; [by intros -> | by intros [= ->]].
Qed.

Lemma compare_same_length_no_success fuel brk cfg1 cfg2 diff_count_p o :
  compare_same_length fuel brk cfg1 cfg2 diff_count_p = Some o →
  S_registers_and_values_match ∉ diagnostics o.
Proof.
  unfold compare_same_length.
  rewrite check_left_in_right_set.
  destruct (same_order cfg1 cfg2).
  { intros [= <-]. simpl. case_decide; solve_message_absent. }
  destruct (decide (all_found cfg1 cfg2)).
  - rewrite check_right_in_left_set.
    destruct (decide (all_found cfg2 cfg1)); simpl.
    + destruct (relocate_blocks fuel cfg1 cfg2 0 0 []) as [[[??]?]|]; [|done].
      intros [= <-]. simpl. case_decide; solve_message_absent.
    + intros [= <-]. simpl. case_decide; solve_message_absent.
  - rewrite check_right_in_left_cleared. simpl.
    intros [= <-]. simpl. case_decide; solve_message_absent.
Qed.

Lemma summary_success r d :
  S_registers_and_values_match ∈ print_comparison_summary r d ↔
  r = 0%Z ∧ d = 0%Z.
Proof.
  unfold print_comparison_summary. split.
  - intros Hm. repeat case_decide; try (by apply elem_of_nil in Hm); try done.
    by apply list_elem_of_singleton in Hm.
  - intros [-> ->]. simpl. left.
Qed.

(** The comparator itself prints the success message only from the summary
    of its nested comparison. *)
Lemma compare_success_message fuel heap brk cfg1 cfg2 d0 o :
  compare_ddrc_cfg_arrays fuel heap brk cfg1 cfg2 (Some d0) = Some o →
  S_registers_and_values_match ∈ diagnostics o ↔
  length cfg1 ≠ length cfg2 ∧ heap brk = true ∧ heap (S brk) = true ∧
  extract_found cfg1 cfg2 = extract_found cfg2 cfg1 ∧
  extract_found cfg1 cfg2 ≠ [].
Proof.
  intros Ho. destruct fuel as [|fuel]; [done|].
  destruct (decide (length cfg1 = length cfg2)) as [Hlen|Hlen].
  { rewrite compare_equal_length_unfold in Ho by done.
    apply compare_same_length_no_success in Ho.
    split; [done | by intros [? _]]. }
  rewrite compare_length_mismatch_unfold in Ho by done.
  cbv zeta in Ho. unfold find_and_display_unique_ddrc in Ho.
  rewrite !count_found_extract in Ho.
  destruct (unique_counts_ddrc cfg1 cfg2) as [left_count right_count].
  destruct (decide (length (extract_found cfg1 cfg2)
                    = length (extract_found cfg2 cfg1))) as [Hcount|Hcount].
  2: { simplify_eq/=. split.
       - case_decide; solve_message_absent.
       - intros (_ & _ & _ & Heq & _). by rewrite Heq in Hcount. }
  destruct (decide (0 < length (extract_found cfg1 cfg2))) as [Hpos|Hpos].
  2: { simplify_eq/=. split.
       - case_decide; solve_message_absent.
       - intros (_ & _ & _ & _ & Hne).
         destruct (extract_found cfg1 cfg2); [done | simpl in Hpos; lia]. }
  destruct (heap brk && heap (S brk)) eqn:Hheap.
  2: { simplify_eq/=. split.
       - case_decide; solve_message_absent.
       - intros (_ & H1 & H2 & _). by rewrite H1, H2 in Hheap. }
  apply andb_true_iff in Hheap as [Hheap1 Hheap2].
  destruct (compare_ddrc_cfg_arrays fuel heap (S (S brk)) _ _ _)
    as [common|] eqn:Hcommon; [|done].
  destruct fuel as [|fuel]; [done|].
  rewrite compare_equal_length_unfold in Hcommon by done.
  pose proof (compare_same_length_no_success _ _ _ _ _ _ Hcommon) as Hdiag.
  pose proof (same_order_keys _ _ Hcount) as Hkeys.
  assert (S_registers_and_values_match
            ∈ print_comparison_summary (result common)
                (default 0%Z (diff_count_out common)) ↔
          extract_found cfg1 cfg2 = extract_found cfg2 cfg1) as Hsum.
  { rewrite summary_success.
    destruct (same_order (extract_found cfg1 cfg2) (extract_found cfg2 cfg1))
      eqn:Hsame.
    - rewrite compare_same_length_identical in Hcommon by done.
      injection Hcommon as <-. simpl.
      rewrite <- (positional_equal _ _ (proj1 Hkeys eq_refl)). tauto.
    - destruct (compare_same_length_inv _ _ _ _ _ _ Hcommon)
        as [(_ & ? & _)|[(Hres & _)|(Hres & _)]]; [congruence|..];
        (split; [intros [? _]; lia|]);
        intros Heq; rewrite Heq, same_order_refl in Hsame; done. }
  simplify_eq/=. split.
  - intros Hin. split_and!; try done.
    + apply Hsum. revert Hin. 
      rewrite elem_of_cons, !elem_of_app.
      intros [?|[Hin|[?|?]]]; [done| |done|done].
      by case_decide; [apply elem_of_nil in Hin
                      | apply list_elem_of_singleton in Hin].
    + destruct (extract_found cfg1 cfg2); [simpl in Hpos; lia | done].
  - intros (_ & _ & _ & Heq & _). apply Hsum in Heq.
    rewrite elem_of_cons, !elem_of_app. auto.
Qed.

(** X24: the success message.  Whenever [check_ddrc_cfg] returns, it
    returns 0.  Its report shows "Registers and values match" exactly in
    two cases: the two tables are equal, record by record; or they differ
    in length, both allocations of the comparator succeed and the common
    records of the two sides form the same list, which is not empty (the
    message then comes from the nested comparison, under the warning of
    structural differences). *)
Theorem check_ddrc_cfg_success (fuel : nat) (heap : nat → bool) (brk : nat)
    (opt_list_duplicates : bool) (left_cfg right_cfg : list ddrc_cfg_param)
    (ret : Z) (brk' : nat) (lines : list report_line) :
  check_ddrc_cfg fuel heap brk opt_list_duplicates left_cfg right_cfg
    = Some (ret, brk', lines) →
  ret = 0%Z ∧
  (success_printed lines ↔
   left_cfg = right_cfg ∨
   (length left_cfg ≠ length right_cfg ∧
    heap brk = true ∧ heap (S brk) = true ∧
    (extract_common_ddrc left_cfg right_cfg).1
      = (extract_common_ddrc left_cfg right_cfg).2 ∧
    (extract_common_ddrc left_cfg right_cfg).1 ≠ [])).
Proof.
  unfold check_ddrc_cfg, success_printed, extract_common_ddrc. cbn [fst snd].
  destruct (compare_ddrc_cfg_arrays fuel heap brk left_cfg right_cfg
              (Some 0%Z)) as [o|] eqn:Ho; [|done].
  intros [= <- <- <-]. split; [done|].
  pose proof (compare_success_message _ _ _ _ _ _ _ Ho) as Hnested.
  cbn [app].
  set (rest := if decide (_ ∨ _) then _ else _).
  assert ((Summary S_registers_and_values_match ∉ rest) ∧
          (∀ o', Compared o' ∉ rest)) as [Hrest Hrest'].
  { unfold rest. split; [|intros o'];
      (case_decide; [|by intros ?%elem_of_nil]);
      rewrite elem_of_app; (intros [Hin|Hin];
        [ repeat case_decide; try (by apply elem_of_nil in Hin);
          by apply list_elem_of_fmap in Hin as (? & ? & _)
        | destruct opt_list_duplicates;
          [ by apply list_elem_of_fmap in Hin as (? & ? & _)
          | by apply list_elem_of_singleton in Hin ] ]). }
  assert (Summary S_registers_and_values_match
            ∈ Summary <$> print_comparison_summary (result o)
                            (default 0%Z (diff_count_out o)) ↔
          left_cfg = right_cfg) as Hsum.
  { rewrite list_elem_of_fmap. split.
    - intros (m & [= <-] & [Hres Hdiff]%summary_success).
      destruct (compare_result_cases _ _ _ _ _ _ _ Ho)
        as [[_ Hkeys]|[(? & _)|[? _]]]; [|lia..].
      apply positional_equal; [done|].
      destruct fuel as [|fuel]; [done|].
      rewrite compare_equal_length_unfold in Ho
        by (by rewrite <- (length_fmap reg left_cfg), Hkeys, length_fmap).
      rewrite compare_same_length_identical in Ho
        by (apply same_order_keys; [|done];
            by rewrite <- (length_fmap reg left_cfg), Hkeys, length_fmap).
      by simplify_eq/=.
    - intros <-. exists S_registers_and_values_match. split; [done|].
      apply summary_success.
      destruct fuel as [|fuel]; [done|].
      rewrite compare_equal_length_unfold in Ho by done.
      rewrite compare_same_length_identical in Ho by apply same_order_refl.
      rewrite count_positional_diffs_refl in Ho. by simplify_eq/=. }
  assert (∀ o' (l : list message), Compared o' ∉ Summary <$> l) as Hno.
  { intros o' l (? & ? & _)%list_elem_of_fmap. done. }
  rewrite <- Hsum, <- Hnested. split.
  - intros [Hin|(o' & Hin & Hdiag)].
    + apply elem_of_cons in Hin as [?|Hin]; [done|].
      apply elem_of_app in Hin as [?|?]; [by left | done].
    + apply elem_of_cons in Hin as [[= ->]|Hin]; [by right|].
      apply elem_of_app in Hin as [?%Hno|?%Hrest']; done.
  - intros [Hin|Hin].
    + left. rewrite elem_of_cons, elem_of_app. auto.
    + right. exists o. split; [left | done].
Qed.

Lemma check_ddrc_cfg_success_witness :
  ∃ ret brk' lines,
    check_ddrc_cfg 2 (λ _, true) 0 false sample_left sample_subset
      = Some (ret, brk', lines) ∧
    ret = 0%Z ∧ success_printed lines.
Proof.
  eexists _, _, _. split; [vm_compute; reflexivity|].
  destruct (check_ddrc_cfg_success 2 (λ _, true) 0 false sample_left
              sample_subset _ _ _ ltac:(vm_compute; reflexivity))
    as [Hret Hsuccess].
  split; [exact Hret|]. apply Hsuccess. right.
  split_and!; [by vm_compute | reflexivity | reflexivity | reflexivity
              | by vm_compute].
Defined.

(** *** The duplicate listing *)

Lemma omap_lookup_seq {A B} (g : A → B) (l : list A) n :
  omap (λ i, g <$> l !! i) (seq 0 n) = g <$> take n l.
Proof.
  induction n as [|n IH]; [done|].
  rewrite seq_S, omap_app, IH. simpl.
  destruct (l !! n) as [x|] eqn:Hn; simpl.
  - by rewrite (take_S_r _ _ x), fmap_app.
  - apply lookup_ge_None in Hn. rewrite app_nil_r.
    by rewrite !take_ge by lia.
Qed.

Lemma omap_fmap_compose {A B C} (f : B → option C) (g : A → B)
    (l : list A) :
  omap f (g <$> l) = omap (λ x, f (g x)) l.
Proof.
  induction l as [|x l IH]; [done|]. cbn [fmap list_fmap omap list_omap].
  change (omap f (g <$> l) = omap (λ x, f (g x)) l) in IH.
  by rewrite IH.
Qed.

(** X18: the listing of [--list-duplicates] shows every group: the
    filled cells of the left column are the registers and counts of the
    left groups, in order, those of the right column the right groups, and
    there are as many rows as the longer side has groups. *)
Theorem print_duplicates_columns (left_dups right_dups : list duplicate_info) :
  let rows := print_duplicates_ddrc_sidebyside left_dups right_dups in
  omap fst rows = (λ d, (dup_reg d, count d)) <$> left_dups ∧
  omap snd rows = (λ d, (dup_reg d, count d)) <$> right_dups ∧
  length rows = length left_dups `max` length right_dups.
Proof.
  unfold print_duplicates_ddrc_sidebyside. cbv zeta.
  destruct (decide (length left_dups = 0 ∧ length right_dups = 0))
    as [[Hl Hr]|Hsome].
  { destruct left_dups, right_dups; simplify_eq/=. done. }
  set (n := if decide (length right_dups < length left_dups)
            then length left_dups else length right_dups).
  assert (n = length left_dups `max` length right_dups) as Hn
    by (unfold n; case_decide; lia).
  split_and!.
  - rewrite omap_fmap_compose. simpl. rewrite omap_lookup_seq.
    by rewrite take_ge by lia.
  - rewrite omap_fmap_compose. simpl. rewrite omap_lookup_seq.
    by rewrite take_ge by lia.
  - by rewrite length_fmap, length_seq.
Qed.

(** ** The command line *)

Lemma parse_arguments_run args opt opt' :
  parse_arguments args opt = Run_comparison opt' ↔
  Forall (λ arg, arg = "--list-duplicates") args ∧
  opt' = (if decide (args = []) then opt else true).
Proof.
  revert opt. induction args as [|arg args IH]; intros opt; simpl.
  - split; [by intros [= ->] | by intros [_ ->]].
  - rewrite Forall_cons.
    destruct (decide (arg = "--list-duplicates")) as [->|Hne].
    + rewrite IH. destruct (decide (args = [])); intuition.
    + destruct (decide (arg = "--help" ∨ arg = "-h"));
        (split; [done | by intros [[? _] _]]).
Qed.

Lemma parse_arguments_unknown args opt :
  exit_status (parse_arguments args opt) = 1%Z ↔
  ∃ before arg after,
    args = before ++ arg :: after ∧
    Forall (λ arg, arg = "--list-duplicates") before ∧
    arg ≠ "--list-duplicates" ∧ arg ≠ "--help" ∧ arg ≠ "-h".
Proof.
  revert opt. induction args as [|arg args IH]; intros opt; simpl.
  - split; [done|]. by intros ([|??] & ? & ? & ? & _).
  - destruct (decide (arg = "--list-duplicates")) as [->|Hne].
    + rewrite IH. split.
      * intros (before & arg & after & -> & Hbefore & Harg).
        exists ("--list-duplicates" :: before), arg, after.
        split_and!; [done|by constructor|tauto..].
      * intros ([|x before] & arg & after & Heq & Hbefore & Harg);
          simplify_eq/=; [tauto|].
        apply Forall_cons in Hbefore as [_ Hbefore].
        by exists before, arg, after.
    + destruct (decide (arg = "--help" ∨ arg = "-h")) as [Hhelp|Hother]; simpl.
      * split; [done|].
        intros ([|x before] & a & after & Heq & Hbefore & Harg);
          simplify_eq/=; [tauto|].
        by apply Forall_cons in Hbefore as [? _].
      * split; [intros _|done]. exists [], arg, args.
        split_and!; [done|constructor|tauto..].
Qed.

(** X19: the command line of ddrconfcmp.  The comparison runs exactly when
    every argument is [--list-duplicates], and its flag is set exactly
    when there is such an argument.  The exit status is 1 exactly when the
    first argument other than [--list-duplicates] is neither [--help] nor
    [-h].  The arguments that follow the first argument other than
    [--list-duplicates] are never looked at. *)
Theorem parse_arguments_outcome (args : list string) :
  (∀ opt, parse_arguments args false = Run_comparison opt ↔
          Forall (λ arg, arg = "--list-duplicates") args ∧
          opt = bool_decide (args ≠ [])) ∧
  (exit_status (parse_arguments args false) = 1%Z ↔
   ∃ before arg after,
     args = before ++ arg :: after ∧
     Forall (λ arg, arg = "--list-duplicates") before ∧
     arg ≠ "--list-duplicates" ∧ arg ≠ "--help" ∧ arg ≠ "-h") ∧
  (∀ before arg after,
     arg ≠ "--list-duplicates" →
     parse_arguments (before ++ arg :: after) false
       = parse_arguments (before ++ [arg]) false).
Proof.
  split_and!.
  - intros opt. rewrite parse_arguments_run.
    destruct (decide (args = [])) as [->|Hne]; [done|].
    by rewrite bool_decide_true.
  - apply parse_arguments_unknown.
  - intros before arg after Harg. generalize false.
    induction before as [|x before IH]; intros opt; simpl.
    + by destruct (decide (arg = "--list-duplicates")).
    + destruct (decide (x = "--list-duplicates")); [apply IH | done].
Qed.

(** ** The checksum *)

Section checksum_properties.
Local Open Scope Z_scope.

Lemma lxor_range n a b :
  0 ≤ n → 0 ≤ a < 2 ^ n → 0 ≤ b < 2 ^ n → 0 ≤ Z.lxor a b < 2 ^ n.
Proof.
  intros Hn [Ha Ha'] [Hb Hb']. split; [by apply Z.lxor_nonneg|].
  destruct (decide (Z.lxor a b = 0)) as [->|Hne]; [by apply Z.pow_pos_nonneg|].
  assert (0 < Z.lxor a b) by (pose proof (proj2 (Z.lxor_nonneg a b)); lia).
  assert (0 < n).
  { destruct (decide (n = 0)) as [->|?]; [|lia].
    destruct Hne. replace a with 0 by lia. by replace b with 0 by lia. }
  apply Z.log2_lt_pow2; [done|].
  eapply Z.le_lt_trans; [by apply Z.log2_lxor|].
  apply Z.max_lub_lt.
  - destruct (decide (a = 0)) as [->|?]; [simpl; lia|].
    apply Z.log2_lt_pow2; lia.
  - destruct (decide (b = 0)) as [->|?]; [simpl; lia|].
    apply Z.log2_lt_pow2; lia.
Qed.

Lemma nibble_cases k :
  0 ≤ k < 16 →
  k = 0 ∨ k = 1 ∨ k = 2 ∨ k = 3 ∨ k = 4 ∨ k = 5 ∨ k = 6 ∨ k = 7 ∨
  k = 8 ∨ k = 9 ∨ k = 10 ∨ k = 11 ∨ k = 12 ∨ k = 13 ∨ k = 14 ∨ k = 15.
Proof. lia. Qed.

Lemma land_15_range x : 0 ≤ Z.land x 15 < 16.
Proof.
  change 15 with (Z.ones 4). rewrite Z.land_ones by lia.
  apply Z.mod_pos_bound. lia.
Qed.

Lemma s_crcTable_range k :
  0 ≤ nth (Z.to_nat (Z.land k 15)) s_crcTable 0 < 2 ^ 32.
Proof.
  pose proof (nibble_cases _ (land_15_range k)) as H.
  repeat (destruct H as [H|H]); rewrite H; by vm_compute.
Qed.

Lemma crc_nibble_range crc x :
  0 ≤ crc < 2 ^ 32 → 0 ≤ crc_nibble crc x < 2 ^ 32.
Proof.
  intros [Hc Hc']. apply lxor_range; [lia| |apply s_crcTable_range].
  rewrite Z.shiftr_div_pow2 by lia. split; [by apply Z.div_pos|].
  apply Z.div_lt_upper_bound; lia.
Qed.

Lemma crc_byte_range crc a : 0 ≤ crc < 2 ^ 32 → 0 ≤ crc_byte crc a < 2 ^ 32.
Proof. intros Hc. by do 2 apply crc_nibble_range. Qed.

Lemma foldl_crc_byte_range crc data :
  0 ≤ crc < 2 ^ 32 → 0 ≤ foldl crc_byte crc data < 2 ^ 32.
Proof.
  revert crc. induction data as [|a data IH]; intros crc Hc; [done|].
  simpl. by apply IH, crc_byte_range.
Qed.

(** *** The bitwise reference *)

Lemma crc_bit_lxor a b : crc_bit (Z.lxor a b) = Z.lxor (crc_bit a) (crc_bit b).
Proof.
  unfold crc_bit. rewrite <- !Z.bit0_odd, Z.lxor_spec, Z.shiftr_lxor.
  set (x := Z.shiftr a 1). set (y := Z.shiftr b 1). set (P := 0xEDB88320).
  destruct (Z.testbit a 0), (Z.testbit b 0); simpl.
  - rewrite (Z.lxor_comm y P), Z.lxor_assoc, <- (Z.lxor_assoc P P y).
    by rewrite Z.lxor_nilpotent, Z.lxor_0_l.
  - by rewrite !Z.lxor_assoc, (Z.lxor_comm P y).
  - by rewrite Z.lxor_assoc.
  - done.
Qed.

Lemma crc_bits_lxor n a b :
  Nat.iter n crc_bit (Z.lxor a b)
    = Z.lxor (Nat.iter n crc_bit a) (Nat.iter n crc_bit b).
Proof. induction n as [|n IH]; [done|]. simpl. by rewrite IH, crc_bit_lxor. Qed.

Lemma crc_bit_shiftl h (k : nat) :
  crc_bit (Z.shiftl h (Z.of_nat (S k))) = Z.shiftl h (Z.of_nat k).
Proof.
  unfold crc_bit. rewrite <- Z.bit0_odd, Z.shiftl_spec_low by lia.
  rewrite Z.shiftr_shiftl_l by lia. f_equal. lia.
Qed.

Lemma crc_bits_shiftl_plus h (k m : nat) :
  Nat.iter k crc_bit (Z.shiftl h (Z.of_nat (k + m))) = Z.shiftl h (Z.of_nat m).
Proof.
  revert m. induction k as [|k IH]; intros m; [done|].
  replace (S k + m)%nat with (k + S m)%nat by lia.
  by rewrite Nat.iter_succ, IH, crc_bit_shiftl.
Qed.

Lemma crc_bits_shiftl h : Nat.iter 4 crc_bit (Z.shiftl h 4) = h.
Proof.
  etrans; [exact (crc_bits_shiftl_plus h 4 0)|]. apply Z.shiftl_0_r.
Qed.

Lemma split_low_nibble x :
  x = Z.lxor (Z.shiftl (Z.shiftr x 4) 4) (Z.land x 15).
Proof.
  apply Z.bits_inj'. intros n Hn.
  rewrite Z.lxor_spec, Z.land_spec. change 15 with (Z.ones 4).
  destruct (decide (n < 4)) as [Hlt|Hge].
  - rewrite Z.shiftl_spec_low, Z.ones_spec_low by lia.
    by rewrite andb_true_r.
  - rewrite Z.shiftl_spec, Z.shiftr_spec, Z.ones_spec_high by lia.
    rewrite andb_false_r, xorb_false_r. f_equal. lia.
Qed.

Lemma crc_bits_nibble x :
  Nat.iter 4 crc_bit x
    = Z.lxor (Z.shiftr x 4) (Nat.iter 4 crc_bit (Z.land x 15)).
Proof.
  rewrite (split_low_nibble x) at 1.
  by rewrite crc_bits_lxor, crc_bits_shiftl.
Qed.

(** The table holds the four-bit steps of the reference, for the
    complemented state. *)
Lemma s_crcTable_reference k :
  nth (Z.to_nat (Z.lxor (Z.land k 15) 15)) s_crcTable 0
    = Z.lxor (Nat.iter 4 crc_bit (Z.land k 15)) 0xF0000000.
Proof.
  pose proof (nibble_cases _ (land_15_range k)) as H.
  repeat (destruct H as [H|H]); rewrite H; by vm_compute.
Qed.

Lemma land_lxor_distr a b c :
  Z.land (Z.lxor a b) c = Z.lxor (Z.land a c) (Z.land b c).
Proof.
  apply Z.bits_inj'. intros n _.
  rewrite !Z.lxor_spec, !Z.land_spec, Z.lxor_spec.
  by destruct (Z.testbit a n), (Z.testbit b n), (Z.testbit c n).
Qed.

Lemma crc_nibble_reference c x :
  crc_nibble (Z.lxor c 0xFFFFFFFF) x
    = Z.lxor
        (Z.lxor (Z.shiftr c 4) (Nat.iter 4 crc_bit (Z.land (Z.lxor c x) 15)))
        0xFFFFFFFF.
Proof.
  unfold crc_nibble.
  replace (Z.land (Z.lxor (Z.lxor c 0xFFFFFFFF) x) 15)
    with (Z.lxor (Z.land (Z.lxor c x) 15) 15).
  2: { rewrite (Z.lxor_comm c 0xFFFFFFFF), Z.lxor_assoc.
       rewrite (land_lxor_distr 0xFFFFFFFF).
       change (Z.land 0xFFFFFFFF 15) with 15.
       apply Z.lxor_comm. }
  rewrite s_crcTable_reference, Z.shiftr_lxor.
  change (Z.shiftr 0xFFFFFFFF 4) with 0x0FFFFFFF.
  set (u := Z.shiftr c 4). set (v := Nat.iter 4 crc_bit _).
  rewrite !Z.lxor_assoc. f_equal.
  rewrite (Z.lxor_comm v), <- !Z.lxor_assoc. by rewrite (Z.lxor_comm _ v).
Qed.

Lemma crc_byte_reference c a :
  is_byte a →
  crc_byte (Z.lxor c 0xFFFFFFFF) a
    = Z.lxor (crc32_reference_byte c a) 0xFFFFFFFF.
Proof.
  intros Ha. unfold crc_byte, crc32_reference_byte.
  rewrite Z.shiftr_0_r, !crc_nibble_reference. f_equal.
  change (Nat.iter 8 crc_bit (Z.lxor c a))
    with (Nat.iter 4 crc_bit (Nat.iter 4 crc_bit (Z.lxor c a))).
  set (k := Nat.iter 4 crc_bit (Z.land (Z.lxor c a) 15)).
  set (u := Z.lxor (Z.shiftr c 4) k).
  rewrite (crc_bits_nibble (Z.lxor c a)), (Z.shiftr_lxor c a). fold k.
  replace (Z.lxor (Z.lxor (Z.shiftr c 4) (Z.shiftr a 4)) k)
    with (Z.lxor u (Z.shiftr a 4))
    by (unfold u; by rewrite !Z.lxor_assoc, (Z.lxor_comm k)).
  rewrite (crc_bits_nibble (Z.lxor u (Z.shiftr a 4))).
  rewrite (Z.shiftr_lxor u), Z.shiftr_shiftr by lia.
  replace (Z.shiftr a (4 + 4)) with 0; [by rewrite Z.lxor_0_r|].
  symmetry. unfold is_byte in Ha. rewrite Z.shiftr_div_pow2 by lia.
  apply Z.div_small. simpl. lia.
Qed.

Lemma foldl_crc_byte_reference c data :
  Forall is_byte data →
  foldl crc_byte (Z.lxor c 0xFFFFFFFF) data
    = Z.lxor (foldl crc32_reference_byte c data) 0xFFFFFFFF.
Proof.
  intros Hdata. revert c.
  induction Hdata as [|a data Ha _ IH]; intros c; [done|].
  simpl. by rewrite crc_byte_reference, IH.
Qed.

(** X21: the checksum is the standard CRC-32 (IEEE 802.3: reflected
    polynomial 0xEDB88320, initial value and final complement
    0xFFFFFFFF): on every list of bytes, the table-driven loop of both
    programs agrees with the bit-by-bit definition. *)
Theorem compute_crc32_standard (data : list Z) :
  Forall is_byte data →
  compute_crc32 data = crc32_reference data ∧
  crc32 data = crc32_reference data.
Proof.
  intros Hdata. unfold compute_crc32, crc32, crc32_reference.
  by rewrite <- foldl_crc_byte_reference.
Qed.

Lemma compute_crc32_standard_witness :
  compute_crc32 sample_bytes = 0xCBF43926 ∧
  crc32 sample_bytes = 0xCBF43926.
Proof.
  apply (compute_crc32_standard sample_bytes).
  repeat constructor; unfold is_byte; lia.
Defined.

(** *** A change of one byte changes the checksum *)

Lemma shiftr_1_range x : 0 ≤ x < 2 ^ 32 → 0 ≤ Z.shiftr x 1 < 2 ^ 31.
Proof.
  intros [Hx Hx']. rewrite Z.shiftr_div_pow2 by lia.
  split; [by apply Z.div_pos|]. apply Z.div_lt_upper_bound; lia.
Qed.

Lemma crc_bit_range x : 0 ≤ x < 2 ^ 32 → 0 ≤ crc_bit x < 2 ^ 32.
Proof.
  intros Hx. pose proof (shiftr_1_range x Hx). unfold crc_bit.
  destruct (Z.odd x); [apply lxor_range|]; lia.
Qed.

Lemma crc_bits_range n x :
  0 ≤ x < 2 ^ 32 → 0 ≤ Nat.iter n crc_bit x < 2 ^ 32.
Proof.
  intros Hx. induction n as [|n IH]; [done|].
  rewrite Nat.iter_succ. by apply crc_bit_range.
Qed.

Lemma testbit_31_small y : 0 ≤ y < 2 ^ 31 → Z.testbit y 31 = false.
Proof.
  intros [Hy Hy']. destruct (decide (y = 0)) as [->|?]; [done|].
  apply Z.bits_above_log2; [done|]. apply Z.log2_lt_pow2; lia.
Qed.

(** The bit shifted out by a step can be read off the top bit of the
    result. *)
Lemma crc_bit_top x :
  0 ≤ x < 2 ^ 32 → Z.testbit (crc_bit x) 31 = Z.odd x.
Proof.
  intros Hx. pose proof (testbit_31_small _ (shiftr_1_range x Hx)) as Htop.
  unfold crc_bit. destruct (Z.odd x); [|done].
  by rewrite Z.lxor_spec, Htop.
Qed.

Lemma lxor_cancel_l c a b : Z.lxor c a = Z.lxor c b → a = b.
Proof.
  intros Heq. apply (f_equal (Z.lxor c)) in Heq.
  by rewrite <- !Z.lxor_assoc, !Z.lxor_nilpotent, !Z.lxor_0_l in Heq.
Qed.

Lemma lxor_cancel_r c c' a : Z.lxor c a = Z.lxor c' a → c = c'.
Proof. rewrite !(Z.lxor_comm _ a). apply lxor_cancel_l. Qed.

Lemma crc_bit_inj x y :
  0 ≤ x < 2 ^ 32 → 0 ≤ y < 2 ^ 32 → crc_bit x = crc_bit y → x = y.
Proof.
  intros Hx Hy Heq.
  assert (Z.odd x = Z.odd y) as Hodd.
  { by rewrite <- (crc_bit_top x), <- (crc_bit_top y), Heq. }
  assert (Z.shiftr x 1 = Z.shiftr y 1) as Hhigh.
  { unfold crc_bit in Heq. rewrite <- Hodd in Heq.
    destruct (Z.odd x); [|done]. by apply lxor_cancel_r in Heq. }
  rewrite (Z.div2_odd x), (Z.div2_odd y), Hodd.
  by rewrite !Z.div2_spec, Hhigh.
Qed.

Lemma crc_bits_inj n x y :
  0 ≤ x < 2 ^ 32 → 0 ≤ y < 2 ^ 32 →
  Nat.iter n crc_bit x = Nat.iter n crc_bit y → x = y.
Proof.
  intros Hx Hy. induction n as [|n IH]; [done|].
  rewrite !Nat.iter_succ. intros Heq. apply IH.
  by apply crc_bit_inj; [apply crc_bits_range..|].
Qed.

Lemma lxor_complement c : Z.lxor (Z.lxor c 0xFFFFFFFF) 0xFFFFFFFF = c.
Proof. by rewrite Z.lxor_assoc, Z.lxor_nilpotent, Z.lxor_0_r. Qed.

Lemma crc_byte_inj c c' a a' :
  0 ≤ c < 2 ^ 32 → 0 ≤ c' < 2 ^ 32 → is_byte a → is_byte a' →
  crc_byte c a = crc_byte c' a' → Z.lxor c a = Z.lxor c' a'.
Proof.
  intros Hc Hc' Ha Ha' Heq.
  rewrite <- (lxor_complement c), <- (lxor_complement c') in Heq.
  rewrite !crc_byte_reference in Heq by done.
  apply (f_equal (λ z, Z.lxor z 0xFFFFFFFF)) in Heq.
  rewrite !lxor_complement in Heq. unfold crc32_reference_byte in Heq.
  assert (∀ z b, 0 ≤ z < 2 ^ 32 → is_byte b →
            0 ≤ Z.lxor (Z.lxor z 0xFFFFFFFF) b < 2 ^ 32) as Hrange.
  { intros z b Hz Hb. unfold is_byte in Hb.
    apply lxor_range; [lia| |lia]. apply lxor_range; lia. }
  apply crc_bits_inj in Heq; [|by apply Hrange..].
  apply (f_equal (λ z, Z.lxor 0xFFFFFFFF z)) in Heq.
  rewrite !(Z.lxor_comm _ 0xFFFFFFFF) in Heq.
  by rewrite <- !Z.lxor_assoc, !Z.lxor_nilpotent, !Z.lxor_0_l in Heq.
Qed.

Lemma foldl_crc_byte_inj c c' data :
  0 ≤ c < 2 ^ 32 → 0 ≤ c' < 2 ^ 32 → Forall is_byte data →
  foldl crc_byte c data = foldl crc_byte c' data → c = c'.
Proof.
  intros Hc Hc' Hdata. revert c c' Hc Hc'.
  induction Hdata as [|a data Ha _ IH]; intros c c' Hc Hc' Heq; [done|].
  simpl in Heq. apply IH in Heq; [|by apply crc_byte_range..].
  by apply crc_byte_inj, lxor_cancel_r in Heq.
Qed.

(** X22: the checksum detects every change of a single byte: two byte
    sequences that differ in exactly one place have different
    checksums. *)
Theorem compute_crc32_single_byte (before after : list Z) (a b : Z) :
  Forall is_byte before → Forall is_byte after → is_byte a → is_byte b →
  a ≠ b →
  compute_crc32 (before ++ a :: after) ≠ compute_crc32 (before ++ b :: after).
Proof.
  intros Hbefore Hafter Ha Hb Hne. unfold compute_crc32.
  rewrite !foldl_app. cbn [foldl].
  assert (0 ≤ foldl crc_byte 0 before < 2 ^ 32) as Hc
    by (apply foldl_crc_byte_range; lia).
  intros Heq. apply foldl_crc_byte_inj in Heq;
    [|by apply crc_byte_range..|done].
  by apply crc_byte_inj, lxor_cancel_l in Heq.
Qed.

Lemma compute_crc32_single_byte_witness :
  compute_crc32 ([49] ++ 50 :: [52]) ≠ compute_crc32 ([49] ++ 51 :: [52]).
Proof.
  apply (compute_crc32_single_byte [49] [52] 50 51);
    repeat constructor; unfold is_byte; lia.
Defined.

End checksum_properties.
